(** * jmcrego/tokenise: nearest-neighbour search CLI and word2vec data pipeline

    Shallow embedding of [corpus/faiss_cli.py], [w2vec/dataset.py] and
    [w2vec/model.py], and the properties of the specification checked
    against it. *)

From Stdlib Require Import ZArith QArith String Ascii List Lia.
From stdpp Require Import base option list sorting gmap strings pretty.

Local Open Scope string_scope.
Local Open Scope list_scope.
Local Open Scope Z_scope.

(** ** Python runtime conventions shared by the three files *)

Module Py.

(** The exceptions the modelled code can end with.  [SystemExit] is
    [sys.exit()]. *)
Inductive exn : Type :=
| SystemExit
| AttributeError
| IndexError
| ValueError
| TypeError
| AssertionError
| FileNotFoundError.

(** A call either returns or raises. *)
Inductive res (A : Type) : Type :=
| Ok (a : A)
| Raise (e : exn).
Arguments Ok {A} a.
Arguments Raise {A} e.

#[export] Instance res_ret : MRet res := fun A a => Ok a.

#[export] Instance res_bind : MBind res := fun A B k m =>
  match m with
  | Ok a => k a
  | Raise e => Raise e
  end.

(** Dynamically typed values, as far as the code dispatches on them. *)
Inductive val : Type :=
| VInt (z : Z)
| VStr (s : string)
| VList (l : list Z).

(** Arguments of a [logging] call: the format string and the values
    passed to [str.format], left unrendered. *)
Inductive level : Type := ERROR | INFO | DEBUG.

Record log_record : Type := LogRecord {
  severity : level;
  message : string;
  message_args : list val
}.

(** [len(x)] as a Python int. *)
Definition len {A} (l : list A) : Z := Z.of_nat (length l).

(** [l[i]] for a list [l]: a negative index counts from the end. *)
Definition getitem_list {A} (l : list A) (i : Z) : res A :=
  let j := if i <? 0 then len l + i else i in
  if j <? 0 then Raise IndexError
  else match l !! Z.to_nat j with
       | Some x => Ok x
       | None => Raise IndexError
       end.

(** Characters are the code points below 256.  [str.isspace] on that
    range. *)
Definition isspace (c : ascii) : bool :=
  let n := nat_of_ascii c in
  ((9 <=? n)%nat && (n <=? 13)%nat) || ((28 <=? n)%nat && (n <=? 32)%nat)
  || (n =? 133)%nat || (n =? 160)%nat.

Fixpoint lstrip_by (p : ascii → bool) (s : list ascii) : list ascii :=
  match s with
  | c :: s' => if p c then lstrip_by p s' else s
  | [] => []
  end.

Definition rstrip_by (p : ascii → bool) (s : list ascii) : list ascii :=
  rev (lstrip_by p (rev s)).

(** [s.rstrip()] *)
Definition rstrip (s : string) : string :=
  string_of_list_ascii (rstrip_by isspace (list_ascii_of_string s)).

(** [s.strip(' \n')] *)
Definition strip_sp_nl (s : string) : string :=
  let p c := (nat_of_ascii c =? 32)%nat || (nat_of_ascii c =? 10)%nat in
  string_of_list_ascii (rstrip_by p (lstrip_by p (list_ascii_of_string s))).

(** [s.split(sep)] for a one-character separator: never empty, empty
    fields are kept. *)
Fixpoint split_on (sep : ascii) (s : string) : list string :=
  match s with
  | EmptyString => [EmptyString]
  | String c s' =>
      if Ascii.eqb c sep then EmptyString :: split_on sep s'
      else match split_on sep s' with
           | w :: ws => String c w :: ws
           | [] => [String c EmptyString]
           end
  end.

(** [sorted(l)] under the order [le]: [x] goes in front of the first
    entry that may follow it, so entries that compare equal keep the
    order they had in [l] (the sort is stable). *)
Fixpoint insert_sorted {A} (le : A → A → bool) (x : A) (l : list A) : list A :=
  match l with
  | [] => [x]
  | y :: l' => if le x y then x :: l else y :: insert_sorted le x l'
  end.

Fixpoint sorted {A} (le : A → A → bool) (l : list A) : list A :=
  match l with
  | [] => []
  | x :: l' => insert_sorted le x (sorted le l')
  end.

(** [s.split()]: maximal runs of non-space characters. *)
Fixpoint split_ws_from (cur : list ascii) (s : list ascii) : list string :=
  let flush rest :=
    match cur with
    | [] => rest
    | _ => string_of_list_ascii (rev cur) :: rest
    end in
  match s with
  | [] => flush []
  | c :: s' =>
      if isspace c then flush (split_ws_from [] s')
      else split_ws_from (c :: cur) s'
  end.

Definition split_ws (s : string) : list string :=
  split_ws_from [] (list_ascii_of_string s).

(** The line end, and [for l in f] on the text of a file opened with
    [newline='\n']: every line keeps its line end, the last line may
    have none. *)
Definition newline : string := String "010"%char EmptyString.

Fixpoint file_lines (s : string) : list string :=
  match s with
  | EmptyString => []
  | String c s' =>
      if Ascii.eqb c "010"%char then String c EmptyString :: file_lines s'
      else match file_lines s' with
           | l :: ls => String c l :: ls
           | [] => [String c EmptyString]
           end
  end.

End Py.

Import Py.

(** ** [w2vec/dataset.py] *)

Module Dataset.

(** *** class OpenNMTTokenizer

    [self.tokenizer] is [None] or a [pyonmttok.Tokenizer], of which
    only the token sequence it returns matters here. *)

Record OpenNMTTokenizer : Type := mkTokenizer {
  tokenizer : option (string → list string)
}.

(** [OpenNMTTokenizer.tokenize] *)
Definition tokenize (token : OpenNMTTokenizer) (text : string) : list string :=
  match tokenizer token with
  | None => split_ws text
  | Some tk => tk text
  end.

(** *** class Vocab *)

Record Vocab : Type := mkVocab {
  idx_unk : Z;
  str_unk : string;
  tok_to_idx : gmap string Z;
  idx_to_tok : list string;
  (** set by [build] only; a dict in insertion order *)
  tok_to_frq : option (list (string * Z))
}.

(** [Vocab.__init__] *)
Definition Vocab_init : Vocab :=
  {| idx_unk := 0; str_unk := "<unk>"; tok_to_idx := ∅;
     idx_to_tok := []; tok_to_frq := None |}.

(** [Vocab.__len__] *)
Definition Vocab_len (v : Vocab) : Z := len (idx_to_tok v).

(** [Vocab.__contains__]: an int is tested against the index range, a
    string against the table. *)
Definition contains (v : Vocab) (s : val) : bool :=
  match s with
  | VInt i => (0 <=? i) && (i <? Vocab_len v)
  | VStr t => bool_decide (is_Some (tok_to_idx v !! t))
  | VList _ => false
  end.

(** [Vocab.__getitem__] *)
Definition getitem (v : Vocab) (s : val) : res val :=
  match s with
  | VInt i =>
      if negb (contains v s) then Raise SystemExit
      else match idx_to_tok v !! Z.to_nat i with
           | Some t => Ok (VStr t)
           | None => Raise IndexError
           end
  | VStr t =>
      if negb (contains v s) then Ok (VInt (idx_unk v))
      else match tok_to_idx v !! t with
           | Some i => Ok (VInt i)
           | None => Ok (VInt (idx_unk v))
           end
  | VList _ => Raise TypeError
  end.

(** One iteration of the loop of [Vocab.read]. *)
Definition read_line (v : Vocab) (l : string) : Vocab :=
  let tok := strip_sp_nl l in
  if bool_decide (is_Some (tok_to_idx v !! tok)) then v
  else {| idx_unk := idx_unk v; str_unk := str_unk v;
          tok_to_idx := <[tok := Z.of_nat (size (tok_to_idx v))]> (tok_to_idx v);
          idx_to_tok := idx_to_tok v ++ [tok];
          tok_to_frq := tok_to_frq v |}.

(** [Vocab.read], on the lines of the file. *)
Definition read (v : Vocab) (lines : list string) : Vocab :=
  fold_left read_line lines v.

(** [Vocab.dump]: the text written to the file, one [f.write] per
    entry.  The file is opened in text mode with the defaults; the text
    is taken as written, which is what a system does whose line end is
    the newline character. *)
Definition dump (v : Vocab) : string :=
  foldl (fun text tok => text +:+ (tok +:+ newline)) "" (idx_to_tok v).

(** [self.tok_to_frq[tok] += 1] on a [defaultdict(int)]: a new key goes
    last, a known key keeps its place. *)
Fixpoint incr (tok : string) (d : list (string * Z)) : list (string * Z) :=
  match d with
  | [] => [(tok, 1)]
  | (k, n) :: d' =>
      if String.eqb k tok then (k, n + 1) :: d' else (k, n) :: incr tok d'
  end.

(** [sorted(items, key=lambda item: item[1], reverse=True)]: higher
    counts first; the sort stays stable under [reverse=True], so items
    of equal count keep the order of the dict. *)
Definition by_count_desc (x y : string * Z) : bool := y.2 <=? x.2.

Definition sorted_desc (l : list (string * Z)) : list (string * Z) :=
  sorted by_count_desc l.

Section Build.

Variable token : OpenNMTTokenizer.

(** The tokens of all lines of all files, in reading order. *)
Definition token_stream (files : list (list string)) : list string :=
  concat (map (fun l => tokenize token (strip_sp_nl l)) (concat files)).

(** The counting loops of [Vocab.build]. *)
Definition count_tokens (files : list (list string)) : list (string * Z) :=
  fold_left (fun d tok => incr tok d) (token_stream files) [].

(** The selection loop of [Vocab.build], with its two [break]s. *)
Fixpoint build_loop (min_freq max_size : Z) (items : list (string * Z))
    (t2i : gmap string Z) (i2t : list string) : gmap string Z * list string :=
  match items with
  | [] => (t2i, i2t)
  | (wrd, frq) :: rest =>
      if len i2t =? max_size then (t2i, i2t)
      else if frq <? min_freq then (t2i, i2t)
      else build_loop min_freq max_size rest
             (<[wrd := len i2t]> t2i) (i2t ++ [wrd])
  end.

(** [Vocab.build(files, token, min_freq, max_size)] *)
Definition build (v : Vocab) (files : list (list string))
    (min_freq max_size : Z) : Vocab :=
  let frq := count_tokens files in
  let t2i := <[str_unk v := idx_unk v]> (tok_to_idx v) in
  let i2t := idx_to_tok v ++ [str_unk v] in
  let '(t2i', i2t') := build_loop min_freq max_size (sorted_desc frq) t2i i2t in
  {| idx_unk := idx_unk v; str_unk := str_unk v;
     tok_to_idx := t2i'; idx_to_tok := i2t'; tok_to_frq := Some frq |}.

End Build.

(** *** The random generator

    The outcomes of the generator are an input: the k-th call of
    [random.randint] is handed the k-th number of [draws].  A run that
    asks for more outcomes than [draws] holds is [Starved]: it is still
    running when the given outcomes are used up. *)

Inductive run (A : Type) : Type :=
| Done (a : A) (rest : list nat)
| Fail (e : exn)
| Starved.
Arguments Done {A} a rest.
Arguments Fail {A} e.
Arguments Starved {A}.

Definition rnd (A : Type) : Type := list nat → run A.

Definition ret {A} (a : A) : rnd A := fun draws => Done a draws.

Definition bind {A B} (m : rnd A) (k : A → rnd B) : rnd B := fun draws =>
  match m draws with
  | Done a rest => k a rest
  | Fail e => Fail e
  | Starved => Starved
  end.

Definition lift {A} (r : res A) : rnd A := fun draws =>
  match r with
  | Ok a => Done a draws
  | Raise e => Fail e
  end.

(** [random.randint(a, b)]: [ValueError] on an empty range, else the
    outcome [r] selects [a + r mod (b - a + 1)], so that every integer
    of [a..b] and no other can come out. *)
Definition pick (a b : Z) (r : nat) : Z := a + Z.of_nat r mod (b - a + 1).

Definition randint (a b : Z) : rnd Z := fun draws =>
  if b <? a then Fail ValueError
  else match draws with
       | [] => Starved
       | r :: rest => Done (pick a b r) rest
       end.

(** [for x in l: s = body(x, s)] *)
Fixpoint for_each {A S} (body : A → S → rnd S) (l : list A) (s : S) : rnd S :=
  match l with
  | [] => ret s
  | x :: l' => bind (body x s) (for_each body l')
  end.

(** *** class Dataset *)

(** The attributes [build_batchs] and [build_batchs_infer_sent] read. *)
Record Dataset : Type := mkDataset {
  batch_size : Z;
  window : Z;
  n_negs : Z;
  vocab_size : Z;
  idx_pad : Z;
  corpus : list (list Z)
}.

(** One element of [self.batchs] as [build_batchs] makes it:
    [[batch_wrd, batch_ctx, batch_neg, batch_snt, batch_len]]. *)
Record batch : Type := mkBatch {
  b_wrd : list Z;
  b_ctx : list (list Z);
  b_neg : list (list Z);
  b_snt : list (list Z);
  b_len : list Z
}.

(** The local variables of [build_batchs]. *)
Record locals : Type := mkLocals {
  batchs : list batch;
  batch_wrd : list Z;
  batch_ctx : list (list Z);
  batch_neg : list (list Z);
  batch_snt : list (list Z);
  batch_len : list Z
}.

Section Batches.

Variable self : Dataset.

(** [np.argsort] of the sentence lengths. *)
Variable argsort : list Z → list nat.

(** The context window of position [i]: the loop over
    [range(i-window, i+window+1)]. *)
Definition context (toks : list Z) (i : Z) : list Z :=
  j ← seqZ (i - window self) (i + window self + 1 - (i - window self));
  if j <? 0 then [idx_pad self]
  else if len toks <=? j then [idx_pad self]
  else if negb (j =? i) then
    match toks !! Z.to_nat j with Some t => [t] | None => [] end
  else [].

Definition rejected (ctx : list Z) (wrd idx : Z) : bool :=
  bool_decide (idx ∈ ctx) || (idx =? wrd).

(** [while idx in ctx or idx == wrd: idx = random.randint(1, vocab_size-1)],
    by recursion on the outcomes the calls of [randint] use up. *)
Fixpoint resample (ctx : list Z) (wrd idx : Z) (draws : list nat) : run Z :=
  if rejected ctx wrd idx then
    if vocab_size self - 1 <? 1 then Fail ValueError
    else match draws with
         | [] => Starved
         | r :: rest => resample ctx wrd (pick 1 (vocab_size self - 1) r) rest
         end
  else Done idx draws.

(** One round of [for _ in range(self.n_negs)]. *)
Definition draw_neg (ctx : list Z) (wrd : Z) : rnd Z :=
  bind (randint 1 (vocab_size self - 1)) (resample ctx wrd).

Fixpoint sample_negs (n : nat) (ctx : list Z) (wrd : Z) (neg : list Z) : rnd (list Z) :=
  match n with
  | O => ret neg
  | S n' => bind (draw_neg ctx wrd) (fun idx => sample_negs n' ctx wrd (neg ++ [idx]))
  end.

(** The retroactive padding of [batch_snt], whose last entry is the
    sentence just appended. *)
Definition pad_snt (snts : list (list Z)) : list (list Z) :=
  match snts, last snts with
  | first :: _, Some snt =>
      if (1 <? len snts) && (len first <? len snt) then
        ((fun s => s ++ replicate (Z.to_nat (len snt - len s)) (idx_pad self))
           <$> take (length snts - 1) snts) ++ [snt]
      else snts
  | _, _ => snts
  end.

(** The end of the loop body: a full batch is moved to [self.batchs]. *)
Definition flush (st : locals) : locals :=
  if len (batch_wrd st) =? batch_size self then
    {| batchs := batchs st ++
                 [mkBatch (batch_wrd st) (batch_ctx st) (batch_neg st)
                          (batch_snt st) (batch_len st)];
       batch_wrd := []; batch_ctx := []; batch_neg := [];
       batch_snt := []; batch_len := [] |}
  else st.

(** The body of [for i in range(len(toks))]. *)
Definition example (toks : list Z) (i : nat) (st : locals) : rnd locals :=
  bind (lift (match toks !! i with Some w => Ok w | None => Raise IndexError end))
  (fun wrd =>
  let snt := delete i toks in
  let ctx := context toks (Z.of_nat i) in
  bind (sample_negs (Z.to_nat (n_negs self)) ctx wrd [])
  (fun neg =>
  ret (flush {| batchs := batchs st;
                batch_wrd := batch_wrd st ++ [wrd];
                batch_ctx := batch_ctx st ++ [ctx];
                batch_neg := batch_neg st ++ [neg];
                batch_snt := pad_snt (batch_snt st ++ [snt]);
                batch_len := batch_len st ++ [len snt] |}))).

(** The body of [for index in indexs]. *)
Definition sentence (index : nat) (st : locals) : rnd locals :=
  bind (lift (match corpus self !! index with
              | Some toks => Ok toks
              | None => Raise IndexError
              end))
  (fun toks =>
  if len toks <? 2 then ret st
  else for_each (example toks) (seq 0 (length toks)) st).

(** [Dataset.build_batchs]: the value left in [self.batchs]. *)
Definition build_batchs : rnd (list batch) :=
  let indexs := argsort (len <$> corpus self) in
  bind (for_each sentence indexs (mkLocals [] [] [] [] [] []))
  (fun st =>
  ret (if negb (len (batch_wrd st) =? 0) then
         batchs st ++ [mkBatch (batch_wrd st) (batch_ctx st) (batch_neg st)
                               (batch_snt st) (batch_len st)]
       else batchs st)).

(** One element of [self.batchs] as [build_batchs_infer_sent] makes
    it: [[batch_snt, batch_len, batch_ind]]. *)
Record infer_batch : Type := mkInferBatch {
  ib_snt : list (list Z);
  ib_len : list val;
  ib_ind : list nat
}.

Definition infer_flush (st : list infer_batch * infer_batch)
    : list infer_batch * infer_batch :=
  if len (ib_snt st.2) =? batch_size self
  then (st.1 ++ [st.2], mkInferBatch [] [] [])
  else st.

(** The body of the loop of [build_batchs_infer_sent]:
    [batch_len.append(batch_snt[-1])] stores the last entry of
    [batch_snt] itself. *)
Definition infer_sentence (st : list infer_batch * infer_batch) (index : nat)
    : res (list infer_batch * infer_batch) :=
  match corpus self !! index with
  | None => Raise IndexError
  | Some toks =>
      let snts := ib_snt st.2 ++ [toks] in
      match last snts with
      | None => Raise IndexError
      | Some l =>
          Ok (infer_flush (st.1, mkInferBatch snts (ib_len st.2 ++ [VList l])
                                              (ib_ind st.2 ++ [index])))
      end
  end.

Fixpoint infer_loop (indexs : list nat) (st : list infer_batch * infer_batch)
    : res (list infer_batch * infer_batch) :=
  match indexs with
  | [] => Ok st
  | index :: rest => st' ← infer_sentence st index; infer_loop rest st'
  end.

(** [Dataset.build_batchs_infer_sent]: the value left in
    [self.batchs]. *)
Definition build_batchs_infer_sent : res (list infer_batch) :=
  st ← infer_loop (argsort (len <$> corpus self)) ([], mkInferBatch [] [] []);
  Ok (if negb (len (ib_snt st.2) =? 0) then st.1 ++ [st.2] else st.1).

End Batches.

(** *** [Dataset.__init__] and [Dataset.SubSample] *)

(** [vocab[tok]] for a string [tok]: the string branch of
    [Vocab.__getitem__], which always returns an index. *)
Definition index (vocab : Vocab) (tok : string) : Z :=
  match getitem vocab (VStr tok) with
  | Ok (VInt idx) => idx
  | _ => idx_unk vocab
  end.

(** The options [__init__] reads; [data] holds the lines of each
    file. *)
Record args : Type := mkArgs {
  args_batch_size : Z;
  args_window : Z;
  args_n_negs : Z;
  args_data : list (list string)
}.

(** The variables of the reading loop. *)
Record reading : Type := mkReading {
  r_corpus : list (list Z);
  r_wrd2n : gmap Z Z;
  r_ntokens : Z;
  r_nOOV : Z
}.

(** The body of [for tok in toks], on [(idxs, self.wrd2n, nOOV)]. *)
Definition read_tok (vocab : Vocab) (st : list Z * gmap Z Z * Z) (tok : string)
    : list Z * gmap Z Z * Z :=
  let idx := index vocab tok in
  let nOOV := if idx =? idx_unk vocab then st.2 + 1 else st.2 in
  (st.1.1 ++ [idx], <[idx := default 0 (st.1.2 !! idx) + 1]> st.1.2, nOOV).

(** The body of [for l in f]. *)
Definition read_sentence (token : OpenNMTTokenizer) (vocab : Vocab)
    (st : reading) (l : string) : reading :=
  let toks := tokenize token (strip_sp_nl l) in
  let r := foldl (read_tok vocab) ([], r_wrd2n st, r_nOOV st) toks in
  mkReading (r_corpus st ++ [r.1.1]) r.1.2 (r_ntokens st + len r.1.1) r.2.

(** The loops over the files and their lines. *)
Definition read_data (token : OpenNMTTokenizer) (vocab : Vocab)
    (data : list (list string)) : reading :=
  foldl (read_sentence token vocab) (mkReading [] ∅ 0 0) (concat data).

(** A call returns, or raises one of the two exceptions met here. *)
Inductive built (A : Type) : Type :=
| Built (a : A)
| ZeroDivisionError
| KeyError.
Arguments Built {A} a.
Arguments ZeroDivisionError {A}.
Arguments KeyError {A}.

Section SubSampling.

(** Floats with [<]; [p_keep n sum_counts] is the probability computed
    on lines 280 and 281 from the count [n] of a word, [None] where a
    division raises; [random k] is the outcome of the [k]-th call of
    [random.random()]. *)
Variable F : Type.
Variable flt : F → F → bool.
Variable p_keep : Z → Z → option F.
Variable random : nat → F.

(** The first loop of [SubSample]: [wrd2p_keep]. *)
Definition keep_table (wrd2n : gmap Z Z) (sum_counts : Z) : built (gmap Z F) :=
  match mapM (fun e : Z * Z => p ← p_keep e.2 sum_counts; Some (e.1, p))
             (map_to_list wrd2n) with
  | Some l => Built (list_to_map l)
  | None => ZeroDivisionError
  end.

(** The body of [for wrd in toks], on the sentence being filled, the
    token count and the number of outcomes used. *)
Definition keep_tok (wrd2p_keep : gmap Z F) (st : built (list Z * Z * nat)) (wrd : Z)
    : built (list Z * Z * nat) :=
  match st with
  | Built (snt, ntokens, calls) =>
      match wrd2p_keep !! wrd with
      | None => KeyError
      | Some p =>
          if flt (random calls) p then Built (snt ++ [wrd], ntokens + 1, S calls)
          else Built (snt, ntokens, S calls)
      end
  | ZeroDivisionError => ZeroDivisionError
  | KeyError => KeyError
  end.

(** The body of [for toks in self.corpus]. *)
Definition keep_sentence (wrd2p_keep : gmap Z F) (st : built (list (list Z) * Z * nat))
    (toks : list Z) : built (list (list Z) * Z * nat) :=
  match st with
  | Built (filtered_corpus, ntokens, calls) =>
      match foldl (keep_tok wrd2p_keep) (Built ([], ntokens, calls)) toks with
      | Built (snt, ntokens, calls) => Built (filtered_corpus ++ [snt], ntokens, calls)
      | ZeroDivisionError => ZeroDivisionError
      | KeyError => KeyError
      end
  | ZeroDivisionError => ZeroDivisionError
  | KeyError => KeyError
  end.

(** [Dataset.SubSample(sum_counts)]: the new [self.corpus] and the value
    returned. *)
Definition SubSample (corpus : list (list Z)) (wrd2n : gmap Z Z) (sum_counts : Z)
    : built (list (list Z) * Z) :=
  match keep_table wrd2n sum_counts with
  | Built wrd2p_keep =>
      match foldl (keep_sentence wrd2p_keep) (Built ([], 0, 0%nat)) corpus with
      | Built (filtered_corpus, ntokens, _) => Built (filtered_corpus, ntokens)
      | ZeroDivisionError => ZeroDivisionError
      | KeyError => KeyError
      end
  | ZeroDivisionError => ZeroDivisionError
  | KeyError => KeyError
  end.

(** [Dataset(args, token, vocab, skip_subsampling)]: the new object with
    its [wrd2n]; logging is left out.  Line 166 divides by the number of
    tokens read. *)
Definition Dataset_init (a : args) (token : OpenNMTTokenizer) (vocab : Vocab)
    (skip_subsampling : bool) : built (Dataset * gmap Z Z) :=
  let st := read_data token vocab (args_data a) in
  let self corpus :=
    mkDataset (args_batch_size a) (args_window a) (args_n_negs a)
              (Vocab_len vocab) (idx_unk vocab) corpus in
  if r_ntokens st =? 0 then ZeroDivisionError
  else if skip_subsampling then Built (self (r_corpus st), r_wrd2n st)
  else match SubSample (r_corpus st) (r_wrd2n st) (r_ntokens st) with
       | Built (corpus, _) => Built (self corpus, r_wrd2n st)
       | ZeroDivisionError => ZeroDivisionError
       | KeyError => KeyError
       end.

End SubSampling.

End Dataset.

(** ** [corpus/faiss_cli.py] *)

Module FaissCli.

(** What a run emits, in order: calls of [logging], writes to the
    standard error stream, lines printed.  A [logging] call is recorded
    whatever the configured level later lets through. *)
Inductive event : Type :=
| Log (r : log_record)
| Stderr (s : string)
| Stdout (s : string).

Section Search.

(** Floating-point numbers: cells of vectors, scores, [min_score]. *)
Variable F : Type.
(** Conversion of one cell by [astype('float32')]; [None] where it
    raises. *)
Variable float32 : string → option F.
(** [faiss.normalize_L2]: the value of a cell after its row has been
    divided by the row's norm. *)
Variable renorm : list F → F → F.
(** [<] on floats. *)
Variable flt : F → F → bool.

(** *** class Infile *)

Record Infile : Type := mkInfile {
  file : string;
  vec : list (list F);
  txt : list string;
  d : Z
}.

(** The cells of a line: [l.rstrip().split(' ')]. *)
Definition cells (l : string) : list string := split_on " "%char (rstrip l).

(** The first loop of [Infile.__init__]. *)
Fixpoint read_cells (file : string) (lines : list string) (d : Z)
    (vec : list (list string)) : list log_record * res (Z * list (list string)) :=
  match lines with
  | [] => ([], Ok (d, vec))
  | l :: rest =>
      let l := cells l in
      if 0 <? d then
        if negb (len l =? d) then
          ([LogRecord ERROR
              "found a vector with {} cells instead of {} in line {} of file {}"
              [VInt (len l); VInt d; VInt (len vec + 1); VStr file]],
           Raise SystemExit)
        else read_cells file rest d (vec ++ [l])
      else read_cells file rest (len l) (vec ++ [l])
  end.

(** [np.array(self.vec).astype('float32')] *)
Definition astype_float32 (vec : list (list string)) : res (list (list F)) :=
  match mapM (mapM float32) vec with
  | Some a => Ok a
  | None => Raise ValueError
  end.

Definition normalize_L2 (vec : list (list F)) : list (list F) :=
  (fun row => renorm row <$> row) <$> vec.

(** Lines 38 to 49 of [Infile.__init__]: the lines are read, counted
    and converted. *)
Definition load_vectors (file : string) (lines : list string) (d : Z)
    : list log_record * res (Z * list (list F)) :=
  match read_cells file lines d [] with
  | (log, Raise e) => (log, Raise e)
  | (log, Ok (d, cellss)) =>
      let log := log ++ [LogRecord INFO "Read {} vectors ({} cells) from {}"
                           [VInt (len cellss); VInt d; VStr file]] in
      match astype_float32 cellss with
      | Raise e => (log, Raise e)
      | Ok vec => (log, Ok (d, vec))
      end
  end.

(** [Infile(file, d, norm, file_str)], given the lines of [file] and,
    when [file_str] is not [None], the lines of [file_str]. *)
Definition Infile_init (file : string) (lines : list string) (d : Z) (norm : bool)
    (file_str : option (string * list string)) : list log_record * res Infile :=
  match load_vectors file lines d with
  | (log, Raise e) => (log, Raise e)
  | (log, Ok (d, vec)) =>
      let vec := if norm then normalize_L2 vec else vec in
      let log := if norm then log ++ [LogRecord INFO "Vectors normalized" []]
                 else log in
      match file_str with
      | None => (log, Ok (mkInfile file vec [] d))
      | Some (fstr, slines) =>
          let txt := rstrip <$> slines in
          let log := log ++ [LogRecord INFO "Read {} strings in {}"
                               [VInt (len txt); VStr fstr]] in
          if negb (len txt =? len vec) then
            (log ++ [LogRecord ERROR
                       "diff num of entries {} <> {} in files {} and {}"
                       [VInt (len vec); VInt (len txt); VStr file; VStr fstr]],
             Raise SystemExit)
          else (log, Ok (mkInfile file vec txt d))
      end
  end.

(** [Infile.__len__] *)
Definition Infile_len (f : Infile) : Z := len (vec f).

(** *** class IndexFaiss *)

(** A [faiss.IndexFlatIP] with its vectors, and [index.search(x, k)]:
    the arrays [(D, I)] of scores and database offsets, one row per
    query vector. *)
Variable Index : Type.
Variable search : Index → list (list F) → Z → list (list F) * list (list Z).

(** The attributes of an [IndexFaiss] object.  [__init__] and [add_db]
    assign [file], [db] and [index]; nothing in the class assigns
    [curr_db], which [Query] reads. *)
Record IndexFaiss : Type := mkIndexFaiss {
  self_file : list string;
  self_db : list Infile;
  self_index : list Index;
  self_curr_db : option Infile
}.

(** [IndexFaiss.__init__] *)
Definition IndexFaiss_init : IndexFaiss := mkIndexFaiss [] [] [] None.

(** [results] holds references into a store of dicts.
    [[defaultdict(float)] * len(query)] makes one dict and a list
    that refers to it [len(query)] times. *)
Record results : Type := mkResults {
  refs : list nat;
  store : gmap nat (gmap string F)
}.

Definition new_results (n : Z) : results :=
  mkResults (replicate (Z.to_nat n) 0%nat) {[0%nat := ∅]}.

(** The mapping seen at each position of the returned list. *)
Definition mappings (r : results) : list (gmap string F) :=
  (fun ref => default ∅ (store r !! ref)) <$> refs r.

(** [for i in range(n): s = body(i, s)] *)
Definition for_range {S} (n : nat) (body : nat → S → res S) (s : S) : res S :=
  foldl (fun acc i => s ← acc; body i s) (Ok s) (seq 0 n).

(** The body of [for j in range(len(I[i_query]))]; [row] is
    [I[i_query]]. *)
Definition candidate (self : IndexFaiss) (D : list (list F)) (row : list Z)
    (min_score : F) (skip_same_id : bool) (i_query j : nat) (r : results)
    : res results :=
  i_db ← getitem_list row (Z.of_nat j);
  Drow ← getitem_list D (Z.of_nat i_query);
  score ← getitem_list Drow (Z.of_nat j);
  if flt score min_score then Ok r
  else if skip_same_id && (Z.of_nat i_query =? i_db) then Ok r
  else
    ref ← getitem_list (refs r) (Z.of_nat i_query);
    curr_db ← match self_curr_db self with
               | Some c => Ok c
               | None => Raise AttributeError
               end;
    key ← getitem_list (txt curr_db) i_db;
    Ok (mkResults (refs r)
          (<[ref := <[key := score]> (default ∅ (store r !! ref))]> (store r))).

(** The body of [for i_db in range(len(self.db))]. *)
Definition query_db (self : IndexFaiss) (query : Infile) (k : Z) (min_score : F)
    (skip_same_id : bool) (i_db : nat) (r : results) : res results :=
  _ ← getitem_list (self_db self) (Z.of_nat i_db);
  curr_index ← getitem_list (self_index self) (Z.of_nat i_db);
  let '(D, I_) := search curr_index (vec query) k in
  if negb (len D =? len I_) then Raise AssertionError
  else if negb (len D =? Infile_len query) then Raise AssertionError
  else
    for_range (length I_) (fun i_query r =>
      row ← getitem_list I_ (Z.of_nat i_query);
      for_range (length row)
        (candidate self D row min_score skip_same_id i_query) r) r.

(** [IndexFaiss.Query(query, k, min_score, skip_same_id)]; logging and
    timing are left out. *)
Definition Query (self : IndexFaiss) (query : Infile) (k : Z) (min_score : F)
    (skip_same_id : bool) : res results :=
  for_range (length (self_db self))
    (query_db self query k min_score skip_same_id)
    (new_results (Infile_len query)).

(** *** The command line *)

(** [int(s)], [float(s)]; the level names [create_logger] accepts;
    the default [0.5] of [min_score]. *)
Variable to_int : string → option Z.
Variable to_float : string → option F.
Variable is_level : string → bool.
Variable one_half : F.

Record options : Type := mkOptions {
  fdb : list string;
  fquery : list string;
  fdb_str : list (option string);
  fquery_str : list (option string);
  k : Z;
  min_score : F;
  skip_same_id : bool;
  skip_query : bool;
  do_eval : bool;
  verbose : bool;
  log_file : option string;
  log_level : string
}.

(** Assignment to one of these variables. *)
Definition set_fdb (v : list string) (o : options) : options :=
  mkOptions v (fquery o) (fdb_str o) (fquery_str o) (k o) (min_score o) (skip_same_id o) (skip_query o) (do_eval o) (verbose o) (log_file o) (log_level o).
Definition set_fquery (v : list string) (o : options) : options :=
  mkOptions (fdb o) v (fdb_str o) (fquery_str o) (k o) (min_score o) (skip_same_id o) (skip_query o) (do_eval o) (verbose o) (log_file o) (log_level o).
Definition set_fdb_str (v : list (option string)) (o : options) : options :=
  mkOptions (fdb o) (fquery o) v (fquery_str o) (k o) (min_score o) (skip_same_id o) (skip_query o) (do_eval o) (verbose o) (log_file o) (log_level o).
Definition set_fquery_str (v : list (option string)) (o : options) : options :=
  mkOptions (fdb o) (fquery o) (fdb_str o) v (k o) (min_score o) (skip_same_id o) (skip_query o) (do_eval o) (verbose o) (log_file o) (log_level o).
Definition set_k (v : Z) (o : options) : options :=
  mkOptions (fdb o) (fquery o) (fdb_str o) (fquery_str o) v (min_score o) (skip_same_id o) (skip_query o) (do_eval o) (verbose o) (log_file o) (log_level o).
Definition set_min_score (v : F) (o : options) : options :=
  mkOptions (fdb o) (fquery o) (fdb_str o) (fquery_str o) (k o) v (skip_same_id o) (skip_query o) (do_eval o) (verbose o) (log_file o) (log_level o).
Definition set_skip_same_id (v : bool) (o : options) : options :=
  mkOptions (fdb o) (fquery o) (fdb_str o) (fquery_str o) (k o) (min_score o) v (skip_query o) (do_eval o) (verbose o) (log_file o) (log_level o).
Definition set_skip_query (v : bool) (o : options) : options :=
  mkOptions (fdb o) (fquery o) (fdb_str o) (fquery_str o) (k o) (min_score o) (skip_same_id o) v (do_eval o) (verbose o) (log_file o) (log_level o).
Definition set_do_eval (v : bool) (o : options) : options :=
  mkOptions (fdb o) (fquery o) (fdb_str o) (fquery_str o) (k o) (min_score o) (skip_same_id o) (skip_query o) v (verbose o) (log_file o) (log_level o).
Definition set_verbose (v : bool) (o : options) : options :=
  mkOptions (fdb o) (fquery o) (fdb_str o) (fquery_str o) (k o) (min_score o) (skip_same_id o) (skip_query o) (do_eval o) v (log_file o) (log_level o).
Definition set_log_file (v : option string) (o : options) : options :=
  mkOptions (fdb o) (fquery o) (fdb_str o) (fquery_str o) (k o) (min_score o) (skip_same_id o) (skip_query o) (do_eval o) (verbose o) v (log_level o).
Definition set_log_level (v : string) (o : options) : options :=
  mkOptions (fdb o) (fquery o) (fdb_str o) (fquery_str o) (k o) (min_score o) (skip_same_id o) (skip_query o) (do_eval o) (verbose o) (log_file o) v.
Definition defaults : options :=
  mkOptions [] [] [] [] 1 one_half false false false false None "debug".

Definition usage (name : string) : string :=
  "usage: " +:+ name +:+ " -db FILE -query FILE [-db_str FILE] [-query_str FILE] [-d INT] [-k INT] [-skip_same_id] [-skip_query] [-log_file FILE] [-log_level STRING]
    -db         FILEs : file/s to index (comma-separated)
    -db_str     FILEs : file/s to index (comma-separated)
    -query      FILEs : file with queries (comma-separated)
    -query_str  FILEs : file with queries (comma-separated)
    -k            INT : k-best to retrieve (default 1)
    -min_score  FLOAT : minimum distance to accept a match (default 0.5) 
    -skip_same_id     : do not consider matchs with db_id == query_id (k+1 matchs retrieved)
    -skip_query       : do not output query columns (query_index [query_str])
    -do_eval          : run evaluation (query_index == db_index)
    -log_file    FILE : verbose output (default False)
    -log_level STRING : verbose output (default False)
    -h                : this help
".

Definition split_comma (s : string) : list string := split_on ","%char s.

(** The [while len(sys.argv)] loop.  An option that takes a value and
    comes last falls through to the final [else]. *)
Fixpoint parse (name : string) (argv : list string) (o : options)
    : list event * res options :=
  match argv with
  | [] => ([], Ok o)
  | tok :: rest =>
      let flags :=
        if String.eqb tok "-skip_same_id" then parse name rest (set_skip_same_id true o)
        else if String.eqb tok "-do_eval" then parse name rest (set_do_eval true o)
        else if String.eqb tok "-skip_query" then parse name rest (set_skip_query true o)
        else ([Stderr ("error: unparsed " +:+ tok +:+ " option
"); Stderr (usage name)], Raise SystemExit) in
      if String.eqb tok "-h" then ([Stderr (usage name)], Raise SystemExit)
      else if String.eqb tok "-v" then parse name rest (set_verbose true o)
      else match rest with
           | [] => flags
           | v :: rest' =>
               if String.eqb tok "-db" then parse name rest' (set_fdb (split_comma v) o)
               else if String.eqb tok "-db_str" then
                 parse name rest' (set_fdb_str (Some <$> split_comma v) o)
               else if String.eqb tok "-query" then
                 parse name rest' (set_fquery (split_comma v) o)
               else if String.eqb tok "-query_str" then
                 parse name rest' (set_fquery_str (Some <$> split_comma v) o)
               else if String.eqb tok "-k" then
                 match to_int v with
                 | Some n => parse name rest' (set_k n o)
                 | None => ([], Raise ValueError)
                 end
               else if String.eqb tok "-min_score" then
                 match to_float v with
                 | Some x => parse name rest' (set_min_score x o)
                 | None => ([], Raise ValueError)
                 end
               else if String.eqb tok "-log_file" then
                 parse name rest' (set_log_file (Some v) o)
               else if String.eqb tok "-log_level" then
                 parse name rest' (set_log_level v o)
               else flags
           end
  end.

(** [create_logger(logfile, loglevel)] *)
Definition create_logger (logfile : option string) (loglevel : string)
    : list event * res unit :=
  if negb (is_level loglevel) then
    ([Log (LogRecord ERROR "Invalid log level={}" [VStr loglevel])], Raise SystemExit)
  else match logfile with
       | Some f =>
           if String.eqb f "stderr" then
             ([Log (LogRecord INFO "Created Logger level={}" [VStr loglevel])], Ok ())
           else
             ([Log (LogRecord INFO "Created Logger level={} file={}"
                      [VStr loglevel; VStr f])], Ok ())
       | None =>
           ([Log (LogRecord INFO "Created Logger level={}" [VStr loglevel])], Ok ())
       end.

(** [logging.error(msg)] followed by [sys.exit()]. *)
Definition fatal {A} (msg : string) : list event * res A :=
  ([Log (LogRecord ERROR msg [])], Raise SystemExit).

(** The checks of the file lists, lines 247 to 267. *)
Definition validate (o : options) : list event * res options :=
  if len (fdb o) =? 0 then fatal "error: missing -fdb option"
  else if len (fquery o) =? 0 then fatal "error: missing -fquery option"
  else
    let o := if len (fdb_str o) =? 0
             then set_fdb_str (replicate (length (fdb o)) None) o else o in
    let o := if len (fquery_str o) =? 0
             then set_fquery_str (replicate (length (fquery o)) None) o else o in
    if negb (len (fdb_str o) =? len (fdb o)) then
      fatal "error: diff num of files between -fdb and -fdb_str"
    else if negb (len (fquery_str o) =? len (fquery o)) then
      fatal "error: diff num of files between -fquery and -fquery_str"
    else ([], Ok o).

(** The two loops that end the script.  [IndexFaiss(fdb[i_db],
    fdb_str[i_db])] passes two arguments to a constructor that takes
    none, so the first database raises [TypeError]; with no database
    both loops do nothing. *)
Definition run_queries (o : options) : list event * res unit :=
  match fdb o with
  | _ :: _ => ([Log (LogRecord INFO "READING DBs" [])], Raise TypeError)
  | [] => ([Log (LogRecord INFO "READING DBs" []);
            Log (LogRecord INFO "PROCESSING Queries" [])], Ok ())
  end.

(** The script, on [sys.argv = name :: argv]. *)
Definition main (name : string) (argv : list string) : list event * res unit :=
  match parse name argv defaults with
  | (ev, Raise e) => (ev, Raise e)
  | (ev, Ok o) =>
      match create_logger (log_file o) (log_level o) with
      | (ev1, Raise e) => (ev ++ ev1, Raise e)
      | (ev1, Ok _) =>
          match validate o with
          | (ev2, Raise e) => (ev ++ ev1 ++ ev2, Raise e)
          | (ev2, Ok o) =>
              let '(ev3, r) := run_queries o in (ev ++ ev1 ++ ev2 ++ ev3, r)
          end
      end
  end.

End Search.

End FaissCli.

(** ** [w2vec/model.py] *)

Module Model.

Definition zeros (n : nat) : string := string_of_list_ascii (replicate n "0"%char).

(** ['{:09d}'.format(n)]: at least nine characters, the sign first. *)
Definition fmt09 (n : Z) : string :=
  let digits := pretty (Z.abs_N n) in
  if n <? 0 then "-" +:+ zeros (8 - String.length digits) +:+ digits
  else zeros (9 - String.length digits) +:+ digits.

Definition no_slash (s : string) : bool :=
  forallb (fun c => negb (Ascii.eqb c "/"%char)) (list_ascii_of_string s).

Fixpoint strip_prefix (p s : string) : option string :=
  match p, s with
  | EmptyString, _ => Some s
  | String a p', String b s' => if Ascii.eqb a b then strip_prefix p' s' else None
  | String _ _, EmptyString => None
  end.

(** A pattern [glob] reads as it is written: none of the characters
    [*], [?] and [[], and no doubled path separator. *)
Fixpoint no_doubled_slash (s : list ascii) : bool :=
  match s with
  | a :: (b :: _) as s' =>
      negb (Ascii.eqb a "/"%char && Ascii.eqb b "/"%char) && no_doubled_slash s'
  | _ => true
  end.

Definition literal (pattern : string) : bool :=
  forallb (fun c => negb (Ascii.eqb c "*"%char || Ascii.eqb c "?"%char
                          || Ascii.eqb c "["%char))
          (list_ascii_of_string pattern)
  && no_doubled_slash (list_ascii_of_string pattern).

(** A name matched by [pattern + '.model.?????????.pth'] for a literal
    [pattern]: each [?] stands for one character other than the path
    separator. *)
Definition is_ckpt (pattern name : string) : bool :=
  match strip_prefix (pattern +:+ ".model.") name with
  | Some rest =>
      (String.length rest =? 13)%nat && no_slash (substring 0 9 rest)
      && String.eqb (substring 9 4 rest) ".pth"
  | None => false
  end.

Section Checkpoints.

(** [model.state_dict()] and [optimizer.state_dict()]. *)
Variables M O : Type.

(** The dict handed to [torch.save]. *)
Record checkpoint : Type := mkCheckpoint {
  n_steps : Z;
  optimizer : O;
  model : M
}.

(** [sorted(glob.glob(pattern + '.model.?????????.pth'))] on a disk
    given as the map from the names of its files to their contents. *)
Definition ckpt_files (pattern : string) (disk : gmap string checkpoint)
    : list string :=
  sorted String.leb (filter (fun f => is_ckpt pattern f = true) (map_to_list disk).*1).

(** [load_model_optim(pattern, EMBEDDING_SIZE, vocab, model, optimizer)];
    the two middle arguments are only logged. *)
Definition load_model_optim (pattern : string) (model0 : M) (optimizer0 : O)
    (disk : gmap string checkpoint) : res (Z * M * O) :=
  let files := ckpt_files pattern disk in
  if negb (len files =? 0) then
    file ← getitem_list files (-1);
    match disk !! file with
    | Some ckpt => Ok (n_steps ckpt, model ckpt, optimizer ckpt)
    | None => Raise FileNotFoundError
    end
  else Ok (0, model0, optimizer0).

(** [while len(files) > keep_last_n: f = files.pop(0); os.remove(f)] *)
Fixpoint remove_oldest (keep_last_n : Z) (files : list string)
    (disk : gmap string checkpoint) : gmap string checkpoint :=
  match files with
  | [] => disk
  | f :: files' =>
      if keep_last_n <? len files
      then remove_oldest keep_last_n files' (delete f disk)
      else disk
  end.

(** [save_model_optim(pattern, model, optimizer, n_steps, keep_last_n)] *)
Definition save_model_optim (pattern : string) (model1 : M) (optimizer1 : O)
    (steps keep_last_n : Z) (disk : gmap string checkpoint)
    : gmap string checkpoint :=
  let file := pattern +:+ ".model." +:+ fmt09 steps +:+ ".pth" in
  let disk := <[file := mkCheckpoint steps optimizer1 model1]> disk in
  remove_oldest keep_last_n (ckpt_files pattern disk) disk.

End Checkpoints.

(** *** [sequence_mask]

    An array of two dimensions is the list of its rows. *)

(** [np.ones([bs, l], dtype=int)] *)
Definition ones (bs l : nat) : list (list Z) := replicate bs (replicate l 1).

(** [np.cumsum(a, axis=1)]: running sums along each row. *)
Fixpoint cumsum_from (acc : Z) (row : list Z) : list Z :=
  match row with
  | [] => []
  | x :: row' => (acc + x) :: cumsum_from (acc + x) row'
  end.

Definition cumsum (a : list (list Z)) : list (list Z) := cumsum_from 0 <$> a.

(** [a.T] for an array [a] of [cols] columns. *)
Definition transpose {A} (cols : nat) (a : list (list A)) : list (list A) :=
  (fun j => omap (fun row => row !! j) a) <$> seq 0 cols.

(** [sequence_mask(lengths)] for a list of ints: [lengths.max()] raises
    on an empty array, [np.ones] on a negative dimension; [msk <= lengths]
    compares every row of [msk], of shape [[l, bs]], with [lengths]. *)
Definition sequence_mask (lengths : list Z) : res (list (list bool)) :=
  let bs := length lengths in
  match lengths with
  | [] => Raise ValueError
  | x :: rest =>
      let l := foldl Z.max x rest in
      if l <? 0 then Raise ValueError
      else
        let msk := transpose (Z.to_nat l) (cumsum (ones bs (Z.to_nat l))) in
        let mask := (fun row => zip_with Z.leb row lengths) <$> msk in
        Ok (transpose bs mask)
  end.

End Model.

(** * Terms of the properties *)

Import Dataset FaissCli Model.

(** ** Vocabulary *)

(** Every token of the table sits in the list at the index the table
    gives it. *)
Definition table_sound (t2i : gmap string Z) (i2t : list string) : Prop :=
  ∀ t i, t2i !! t = Some i → 0 ≤ i ∧ i2t !! Z.to_nat i = Some t.

(** What the specification asks of [vocab[...]]. *)
Definition lookup_laws (v : Vocab) : Prop :=
  (∀ t, contains v (VStr t) = true →
        getitem v (VStr t) ≫= getitem v = Ok (VStr t)) ∧
  (∀ s, contains v (VStr s) = false → getitem v (VStr s) = Ok (VInt 0)) ∧
  getitem v (VInt 0) = Ok (VStr "<unk>").

(** Number of occurrences of a token in the corpus. *)
Fixpoint freq (t : string) (s : list string) : Z :=
  match s with
  | [] => 0
  | x :: s' => (if String.eqb x t then 1 else 0) + freq t s'
  end.

(** Position at which a token is first met. *)
Fixpoint first_index (t : string) (s : list string) : option nat :=
  match s with
  | [] => None
  | x :: s' => if String.eqb x t then Some 0%nat else S <$> first_index t s'
  end.

Definition met_before (a b : string) (s : list string) : Prop :=
  ∃ pa pb, first_index a s = Some pa ∧ first_index b s = Some pb ∧ (pa < pb)%nat.

Definition before {A} (l : list A) (x y : A) : Prop :=
  ∃ i j, (i < j)%nat ∧ l !! i = Some x ∧ l !! j = Some y.

(** What the counting loop has built after reading the tokens [s]. *)
Record counted (s : list string) (d : list (string * Z)) : Prop := {
  counted_nodup : NoDup d.*1;
  counted_freq : ∀ t c, (t, c) ∈ d → c = freq t s;
  counted_keys : ∀ t, t ∈ d.*1 ↔ t ∈ s;
  counted_order : ∀ i j a b, (i < j)%nat →
    d.*1 !! i = Some a → d.*1 !! j = Some b → met_before a b s
}.

(** [x] is ranked before [y]: higher count, or equal count and earlier
    in the dict [d]. *)
Definition ranks_before (d : list (string * Z)) (x y : string * Z) : Prop :=
  y.2 < x.2 ∨ (x.2 = y.2 ∧ before d x y).

(** ** Batches *)

Section BatchTerms.

Variable self : Dataset.

(** An index the resampling loop lets through. *)
Definition acceptable (ctx : list Z) (wrd idx : Z) : Prop :=
1 ≤ idx ≤ vocab_size self - 1 ∧ idx ≠ wrd ∧ idx ∉ ctx.

(** A finished example: as many negatives as asked for, all
  acceptable. *)
Definition good_example (wrd : Z) (ctx neg : list Z) : Prop :=
len neg = n_negs self ∧ Forall (acceptable ctx wrd) neg.

Definition good_lists (wrds : list Z) (ctxs negs : list (list Z)) : Prop :=
Forall3 good_example wrds ctxs negs.

Definition good_locals (st : locals) : Prop :=
Forall (fun b => good_lists (b_wrd b) (b_ctx b) (b_neg b)) (batchs st) ∧
good_lists (batch_wrd st) (batch_ctx st) (batch_neg st).

(** No index of [1..vocab_size-1] is let through. *)
Definition covered (ctx : list Z) (wrd : Z) : Prop :=
∀ idx, 1 ≤ idx ≤ vocab_size self - 1 → idx = wrd ∨ idx ∈ ctx.

(** Some example of some sentence the pass visits has its centre word
  and context window cover all of [1..vocab_size-1]. *)
Definition covered_example (argsort : list Z → list nat) : Prop :=
∃ index toks i wrd,
  index ∈ argsort (len <$> corpus self) ∧
  corpus self !! index = Some toks ∧ 2 ≤ len toks ∧
  toks !! i = Some wrd ∧ covered (context self toks (Z.of_nat i)) wrd.

End BatchTerms.

(** Loop bodies that cannot raise, and loop bodies that cannot end. *)
Definition safe {A S} (body : A → S → rnd S) (x : A) : Prop :=
  ∀ s draws e, body x s draws ≠ Fail e.

Definition stuck {A S} (body : A → S → rnd S) (x : A) : Prop :=
  ∀ s draws, body x s draws = Starved.

(** The "lengths" list of a batch is its list of sentences. *)
Definition len_is_snt (b : infer_batch) : Prop := ib_len b = VList <$> ib_snt b.

Definition infer_inv (st : list infer_batch * infer_batch) : Prop :=
  Forall len_is_snt st.1 ∧ len_is_snt st.2.

(** ** Vector files and queries *)

Definition cell_count (l : string) : Z := len (cells l).

(** The dimensionality the loader settles on: the caller's when it is
    positive, else the cell count of the first line. *)
Definition resolved (d : Z) (lines : list string) : Z :=
  if 0 <? d then d
  else match lines with
       | l :: _ => cell_count l
       | [] => d
       end.

Definition bad_cells (file : string) (l : string) (d : Z) (n : nat) : log_record :=
  LogRecord ERROR "found a vector with {} cells instead of {} in line {} of file {}"
    [VInt (cell_count l); VInt d; VInt (Z.of_nat n + 1); VStr file].

(** Every cell of every line is a number [astype('float32')] reads. *)
Definition numeric (F : Type) (float32 : string → option F) (lines : list string) : Prop :=
  Forall (fun l => Forall (fun c => is_Some (float32 c)) (cells l)) lines.

(** The sidecar, when there is one, has as many lines as the vector
    file. *)
Definition aligned (lines : list string) (file_str : option (string * list string)) : Prop :=
  match file_str with
  | None => True
  | Some (_, slines) => length slines = length lines
  end.

(** The list of references is never touched, and a write needs
    [self.curr_db]. *)
Definition untouched (F Index : Type) (self : IndexFaiss F Index) (n : Z)
    (r : results F) : Prop :=
  refs F r = replicate (Z.to_nat n) 0%nat ∧
  (self_curr_db F Index self = None → store F r = {[0%nat := ∅]}).

(** ** The command line *)

(** Nothing is printed on the standard output. *)
Definition silent (evs : list event) : Prop := ∀ s, Stdout s ∉ evs.

(** The file lists the checks refuse. *)
Definition mismatched (F : Type) (o : options F) : Prop :=
  fdb F o = [] ∨ fquery F o = [] ∨
  (fdb_str F o ≠ [] ∧ length (fdb_str F o) ≠ length (fdb F o)) ∨
  (fquery_str F o ≠ [] ∧ length (fquery_str F o) ≠ length (fquery F o)).

Definition check_messages : list string :=
  [ "error: missing -fdb option";
    "error: missing -fquery option";
    "error: diff num of files between -fdb and -fdb_str";
    "error: diff num of files between -fquery and -fquery_str" ].

(** ** Checkpoints *)

Definition str_le (s1 s2 : string) : Prop := String.leb s1 s2 = true.

(** A checkpoint of [pattern] that is on the disk. *)
Definition on_disk (M O : Type) (pattern : string)
    (disk : gmap string (checkpoint M O)) (f : string) : Prop :=
  is_Some (disk !! f) ∧ is_ckpt pattern f = true.

(** The name [save_model_optim] writes to. *)
Definition ckpt_name (pattern : string) (steps : Z) : string :=
  pattern +:+ ".model." +:+ fmt09 steps +:+ ".pth".

(** Saving at step [steps] with [keep_last_n = 3]. *)
Definition save3 (M O : Type) (pattern : string) (model_at : Z → M)
    (optimizer_at : Z → O) (disk : gmap string (checkpoint M O)) (steps : Z)
    : gmap string (checkpoint M O) :=
  save_model_optim M O pattern (model_at steps) (optimizer_at steps) steps 3 disk.

(** The steps whose files are left of those of [steps]. *)
Definition keep3 (steps : list Z) : list Z := drop (Z.to_nat (len steps - 3)) steps.

(** ** Concrete inputs *)

(** Integers stand for the floats; a cell is read digit by digit. *)
Definition digit_value (c : ascii) : option Z :=
  let n := nat_of_ascii c in
  if (48 <=? n)%nat && (n <=? 57)%nat then Some (Z.of_nat n - 48) else None.

Fixpoint read_digits (acc : Z) (s : string) : option Z :=
  match s with
  | EmptyString => Some acc
  | String c s' => v ← digit_value c; read_digits (10 * acc + v) s'
  end.

Definition read_number (s : string) : option Z :=
  match s with
  | EmptyString => None
  | _ => read_digits 0 s
  end.

Definition read_float (s : string) : option Q := inject_Z <$> read_number s.

Definition three_by_two : list string := ["1 2
"; "3 4
"; "5 6
"].

Definition ragged : list string := ["1 2
"; "3 4 5
"; "6
"].

Definition vocab_file : list string := ["<unk>
"; "a
"; "b
"].

Definition two_corpus_files : list (list string) := [["a b c
"; "b a"]; ["c b d
"]].

Definition qlt (a b : Q) : bool := negb (Qle_bool b a).

(** Two unit vectors with their texts. *)
Definition two_vectors : Infile Q :=
  mkInfile Q "db.vec" [[1%Q; 0%Q]; [0%Q; 1%Q]] ["a"; "b"] 2.

(** The best match of each query vector against [two_vectors] queried
    with itself: offsets 0 and 1, both of score 1. *)
Definition self_search (_ : unit) (_ : list (list Q)) (_ : Z)
    : list (list Q) * list (list Z) :=
  ([[1%Q]; [1%Q]], [[0]; [1]]).

Definition as_written : IndexFaiss Q unit :=
  mkIndexFaiss Q unit ["db.vec"] [two_vectors] [()] None.

Definition with_curr_db : IndexFaiss Q unit :=
  mkIndexFaiss Q unit ["db.vec"] [two_vectors] [()] (Some two_vectors).

Definition lower_levels (s : string) : bool :=
  bool_decide (s ∈ ["debug"; "info"; "warning"; "error"; "critical"]).

Definition run_cli (argv : list string) : list event * res unit :=
  main Q read_number read_float lower_levels (1 # 2) "faiss_cli.py" argv.

(** A disk holding one other file; states are numbered by the step. *)
Definition other_disk : gmap string (checkpoint Z Z) :=
  {[ "w2v.vocab" := mkCheckpoint Z Z 0 0 0 ]}.

Definition five_saves : gmap string (checkpoint Z Z) :=
  foldl (save3 Z Z "w2v" (fun i => 100 + i) (fun i => 200 + i)) other_disk [1; 2; 3; 4; 5].

(** The sentences are taken in corpus order. *)
Definition in_order (lengths : list Z) : list nat := seq 0 (length lengths).

(** One sentence of three tokens, window 1, two negatives per example,
    vocabulary of six entries, batches of two examples. *)
Definition small_dataset : Dataset := mkDataset 2 1 2 6 0 [[1; 2; 3]].

(** One sentence, batches of one sentence. *)
Definition one_sentence : Dataset := mkDataset 1 0 0 10 0 [[5; 6; 7]].

(** A vocabulary of ["<unk>"] and one word, a sentence of that word
    twice: index 1 is the centre word of both examples. *)
Definition one_word (negs : Z) : Dataset := mkDataset 2 1 negs 2 0 [[1; 1]].

(** A vocabulary of ["<unk>"] alone: [1..vocab_size-1] is empty. *)
Definition no_word : Dataset := mkDataset 2 1 1 1 0 [[0; 0]].

(** ** Terms of the further properties *)

(** *** Tokens and vocabulary files *)

(** A character that is not white space. *)
Definition visible (c : ascii) : Prop := isspace c = false.

Record listed (s : list string) (v : Vocab) : Prop := {
  listed_nodup : NoDup (idx_to_tok v);
  listed_size : size (tok_to_idx v) = length (idx_to_tok v);
  listed_table : ∀ t i, tok_to_idx v !! t = Some i ↔
                        0 ≤ i ∧ idx_to_tok v !! Z.to_nat i = Some t;
  listed_elems : ∀ t, t ∈ idx_to_tok v ↔ t ∈ s;
  listed_order : ∀ i j a b, (i < j)%nat →
    idx_to_tok v !! i = Some a → idx_to_tok v !! j = Some b → met_before a b s
}.

Definition newline_free (t : string) : Prop := "010"%char ∉ list_ascii_of_string t.
Definition clean (t : string) : Prop := strip_sp_nl t = t ∧ newline_free t.
Definition two_tokens : Vocab := mkVocab 0 "<unk>" ∅ ["<unk>"; "a b"] None.

Definition two_files : list (list string) := [["b a
"; " b
"]; ["c b a
"]].

(** *** Reading and subsampling the corpus *)

(** Occurrences of an index in a list. *)
Fixpoint count_of (x : Z) (l : list Z) : Z :=
  match l with
  | [] => 0
  | y :: l' => (if y =? x then 1 else 0) + count_of x l'
  end.

(** The sentence [__init__] makes of a line. *)
Definition encode (token : OpenNMTTokenizer) (vocab : Vocab) (l : string) : list Z :=
  index vocab <$> tokenize token (strip_sp_nl l).

(** What the reading loop has built from the lines [ls]. *)
Definition read_from (token : OpenNMTTokenizer) (vocab : Vocab)
    (ls : list string) (st : reading) : Prop :=
  r_corpus st = encode token vocab <$> ls ∧
  r_ntokens st = len (concat (r_corpus st)) ∧
  r_nOOV st = count_of (idx_unk vocab) (concat (r_corpus st)) ∧
  (∀ idx, default 0 (r_wrd2n st !! idx) = count_of idx (concat (r_corpus st))) ∧
  (∀ idx, is_Some (r_wrd2n st !! idx) ↔ idx ∈ concat (r_corpus st)).

Definition blank_lines : list (list string) := [["
"; "   
"]; []].

Definition abc_vocab : Vocab :=
  read Vocab_init ["<unk>
"; "a
"; "b
"].

Definition small_args : args := mkArgs 2 1 0 [["a b x
"; "
"]; ["b"]].

(** Every second outcome of the generator is below one half. *)
Definition alternating (k : nat) : Q := if Nat.even k then 0%Q else 1%Q.

Definition always_half (_ _ : Z) : option Q := Some (1 # 2).

Definition four_words : list (list Z) := [[1; 2; 3]; [2]].

Definition four_counts : gmap Z Z := {[1 := 1; 2 := 2; 3 := 1]}.

(** *** The shape of the batches *)

Section RowTerms.

Variable self : Dataset.

(** The sentences a pass over [indexs] makes examples of. *)
Definition visited (indexs : list nat) : list (list Z) :=
  filter (fun toks => 2 ≤ len toks) (omap (fun index => corpus self !! index) indexs).

(** The sentences are visited from the shortest to the longest, as
    [np.argsort] of their lengths orders them. *)
Definition ascending (indexs : list nat) : Prop :=
  StronglySorted (fun a b => ∀ ta tb,
    corpus self !! a = Some ta → corpus self !! b = Some tb →
    (length ta ≤ length tb)%nat) indexs.

(** The row of an example in a batch whose rows are [w] wide: the
    sentence without its centre word, then padding. *)
Definition row_of (w : nat) (wrd : Z) (row : list Z) (n : Z) : Prop :=
  ∃ toks i, toks ∈ corpus self ∧ toks !! i = Some wrd ∧ n = len toks - 1 ∧
    1 ≤ n ≤ Z.of_nat w ∧
    row = delete i toks ++ replicate (w - Z.to_nat n) (idx_pad self).

Definition rows_of (wrds : list Z) (snts : list (list Z)) (lens : list Z) : Prop :=
  ∃ w, Forall3 (row_of w) wrds snts lens ∧ last lens = Some (Z.of_nat w).

(** The window of an example. *)
Definition context_of (wrd : Z) (ctx : list Z) : Prop :=
  ∃ toks i, toks ∈ corpus self ∧ toks !! i = Some wrd ∧
    ctx = context self toks (Z.of_nat i).

(** The state of [build_batchs] after the example at position [i] of
    [toks], before a full batch is moved. *)
Definition with_example (st : locals) (toks : list Z) (i : nat) (wrd : Z)
    (neg : list Z) : locals :=
  {| batchs := batchs st;
     batch_wrd := batch_wrd st ++ [wrd];
     batch_ctx := batch_ctx st ++ [context self toks (Z.of_nat i)];
     batch_neg := batch_neg st ++ [neg];
     batch_snt := pad_snt self (batch_snt st ++ [delete i toks]);
     batch_len := batch_len st ++ [len (delete i toks)] |}.

(** The batch the lists of a state make. *)
Definition current (st : locals) : batch :=
  mkBatch (batch_wrd st) (batch_ctx st) (batch_neg st) (batch_snt st) (batch_len st).

(** What the loop keeps true of the contexts, and of the rows when no
    row so far is wider than [m]. *)
Definition ctx_inv (st : locals) : Prop :=
  Forall (fun b => Forall2 context_of (b_wrd b) (b_ctx b)) (batchs st) ∧
  Forall2 context_of (batch_wrd st) (batch_ctx st).

Definition rows_inv (m : nat) (st : locals) : Prop :=
  Forall (fun b => rows_of (b_wrd b) (b_snt b) (b_len b)) (batchs st) ∧
  ∃ w, (w ≤ m)%nat ∧
       Forall3 (row_of w) (batch_wrd st) (batch_snt st) (batch_len st) ∧
       (batch_wrd st ≠ [] → last (batch_len st) = Some (Z.of_nat w)).

(** The centre words so far are those of [done], and every batch moved
    is full. *)
Definition part_inv (done : list Z) (st : locals) : Prop :=
  concat (b_wrd <$> batchs st) ++ batch_wrd st = done ∧
  Forall (fun b => b_wrd b ≠ []) (batchs st) ∧
  (1 ≤ batch_size self →
   Forall (fun b => len (b_wrd b) = batch_size self) (batchs st) ∧
   len (batch_wrd st) < batch_size self).

End RowTerms.

Definition two_sentences : Dataset := mkDataset 3 1 0 6 0 [[1; 2]; [3; 4; 5]].

Section EntryTerms.

Variable self : Dataset.

(** Every entry of every row satisfies [P]. *)
Definition snt_inv (P : Z → Prop) (st : locals) : Prop :=
  Forall (fun b => Forall (Forall P) (b_snt b)) (batchs st) ∧
  Forall (Forall P) (batch_snt st).

End EntryTerms.

Section InferTerms.

Variable self : Dataset.

(** The sentences of a batch are those at the corpus positions it
    records. *)
Definition from_corpus (b : infer_batch) : Prop :=
  Forall2 (fun snt index => corpus self !! index = Some snt) (ib_snt b) (ib_ind b).

(** The positions taken so far are [done]; the batches moved are full. *)
Definition infer_part (done : list nat) (st : list infer_batch * infer_batch) : Prop :=
  concat (ib_ind <$> st.1) ++ ib_ind st.2 = done ∧
  Forall (fun b => from_corpus b ∧ ib_snt b ≠ []) st.1 ∧ from_corpus st.2 ∧
  (1 ≤ batch_size self →
   Forall (fun b => len (ib_snt b) = batch_size self) st.1 ∧
   len (ib_snt st.2) < batch_size self).

End InferTerms.

Definition three_sentences : Dataset := mkDataset 2 0 0 10 0 [[5; 6]; []; [7]].

(** *** Masks and checkpoint names *)

(** Row of the mask for a sentence of [n] words in a batch whose longest
    has [l]: position [j] is [True] when [j + 1 <= n]. *)
Definition mask_row (l : nat) (n : Z) : list bool :=
  (fun j => Z.of_nat j + 1 <=? n) <$> seq 0 l.

(** The [k] low decimal digits of [x], the highest first. *)
Fixpoint digits (k : nat) (x : N) : string :=
  match k with
  | O => ""
  | S k' => digits k' (x `div` 10)%N +:+ String (pretty_N_char (x `mod` 10)%N) ""
  end.

(** *** Text files, scores and the command line *)

(** Every score kept is at least [min_score], under a text of the
    database [self.curr_db]. *)
Definition kept (F : Type) (flt : F → F → bool) (Index : Type)
    (self : IndexFaiss F Index) (min_score : F) (key : string) (score : F) : Prop :=
  flt score min_score = false ∧
  ∃ c, self_curr_db F Index self = Some c ∧ key ∈ txt F c.

Definition all_kept (F : Type) (flt : F → F → bool) (Index : Type)
    (self : IndexFaiss F Index) (min_score : F) (r : results F) : Prop :=
  ∀ ref m key score, store F r !! ref = Some m → m !! key = Some score →
    kept F flt Index self min_score key score.

(** The message of the sidecar check. *)
Definition diff_entries (file fstr : string) (nvec ntxt : Z) : log_record :=
  LogRecord ERROR "diff num of entries {} <> {} in files {} and {}"
    [VInt nvec; VInt ntxt; VStr file; VStr fstr].

Definition sidecar_short : list string := ["first
"; "second
"].

(** A search that finds, for each of two query vectors, the database
    vectors 0 and 1 with scores 9 and 3. *)
Definition two_hits (_ : unit) (_ : list (list Q)) (_ : Z)
    : list (list Q) * list (list Z) :=
  ([[9%Q; 3%Q]; [9%Q; 3%Q]], [[0; 1]; [0; 1]]).

(** The line written for an option the loop does not know. *)
Definition unparsed (tok : string) : string :=
  "error: unparsed " +:+ tok +:+ " option
".

(** * Properties *)

(** ** Vocabulary lookups *)

Section VocabLookup.

Lemma table_sound_empty i2t : table_sound ∅ i2t.
Proof. intros t i. by rewrite lookup_empty. Qed.

Lemma table_sound_push t2i i2t tok :
  table_sound t2i i2t →
  table_sound (<[tok := len i2t]> t2i) (i2t ++ [tok]).
Proof.
  intros Hs t i. rewrite lookup_insert. case_decide as Heq.
  - intros [= <-]. subst t. unfold len. split; [lia|].
    rewrite Nat2Z.id. by rewrite lookup_app_r, Nat.sub_diag.
  - intros Hl. destruct (Hs _ _ Hl) as [Hi Hn]. split; [done|].
    rewrite lookup_app_l; [done|]. by eapply lookup_lt_Some.
Qed.

Lemma lookup_laws_of_sound v :
  idx_unk v = 0 →
  table_sound (tok_to_idx v) (idx_to_tok v) →
  idx_to_tok v !! 0%nat = Some "<unk>" →
  lookup_laws v.
Proof.
  intros Hu Hs H0. repeat split.
  - intros t Hc. simpl in Hc. unfold getitem at 1. simpl. rewrite Hc. simpl.
    apply bool_decide_eq_true in Hc. destruct Hc as [i Hi]. rewrite Hi. simpl.
    destruct (Hs _ _ Hi) as [Hge Hn].
    pose proof (lookup_lt_Some _ _ _ Hn) as Hlt.
    assert (Hin : (0 <=? i) && (i <? Vocab_len v) = true).
    { unfold Vocab_len, len. apply andb_true_intro. split; [lia|].
      apply Z.ltb_lt. lia. }
    unfold mbind, res_bind, getitem. simpl. by rewrite Hin, Hn.
  - intros s Hc. unfold getitem. simpl in *. by rewrite Hc, Hu.
  - unfold getitem. simpl.
    pose proof (lookup_lt_Some _ _ _ H0) as Hlt.
    assert (Hin : (0 <? Vocab_len v) = true).
    { unfold Vocab_len, len. apply Z.ltb_lt. lia. }
    rewrite Hin. simpl. change (Z.to_nat 0) with 0%nat. by rewrite H0.
Qed.

Lemma build_loop_sound min_freq max_size items : ∀ t2i i2t,
  table_sound t2i i2t →
  table_sound (build_loop min_freq max_size items t2i i2t).1
              (build_loop min_freq max_size items t2i i2t).2.
Proof.
  induction items as [|[wrd frq] rest IH]; intros t2i i2t Hs; simpl; [done|].
  destruct (len i2t =? max_size); [done|].
  destruct (frq <? min_freq); [done|].
  apply IH. by apply table_sound_push.
Qed.

Lemma build_loop_prefix min_freq max_size items : ∀ t2i i2t,
  i2t `prefix_of` (build_loop min_freq max_size items t2i i2t).2.
Proof.
  induction items as [|[wrd frq] rest IH]; intros t2i i2t; simpl; [done|].
  destruct (len i2t =? max_size); [done|].
  destruct (frq <? min_freq); [done|].
  etrans; [|apply IH]. by apply prefix_app_r.
Qed.

Lemma build_fields token v files min_freq max_size :
  let r := build_loop min_freq max_size (sorted_desc (count_tokens token files))
             (<[str_unk v := idx_unk v]> (tok_to_idx v)) (idx_to_tok v ++ [str_unk v]) in
  tok_to_idx (build token v files min_freq max_size) = r.1 ∧
  idx_to_tok (build token v files min_freq max_size) = r.2 ∧
  idx_unk (build token v files min_freq max_size) = idx_unk v.
Proof. intros r. unfold build. fold r. by destruct r. Qed.

(** The table of a loaded vocabulary is as long as its list. *)
Lemma read_line_sound v l :
  table_sound (tok_to_idx v) (idx_to_tok v) →
  size (tok_to_idx v) = length (idx_to_tok v) →
  table_sound (tok_to_idx (read_line v l)) (idx_to_tok (read_line v l)) ∧
  size (tok_to_idx (read_line v l)) = length (idx_to_tok (read_line v l)) ∧
  idx_unk (read_line v l) = idx_unk v.
Proof.
  intros Hs Hsz. unfold read_line. case_bool_decide as Hin; [done|]. simpl.
  split; [|split; [|done]].
  - rewrite Hsz. by apply table_sound_push.
  - rewrite map_size_insert_None, length_app; simpl; [lia|].
    by apply eq_None_not_Some.
Qed.

Lemma read_sound lines : ∀ v,
  table_sound (tok_to_idx v) (idx_to_tok v) →
  size (tok_to_idx v) = length (idx_to_tok v) →
  table_sound (tok_to_idx (read v lines)) (idx_to_tok (read v lines)) ∧
  idx_unk (read v lines) = idx_unk v.
Proof.
  induction lines as [|l lines IH]; intros v Hs Hsz; simpl; [done|].
  destruct (read_line_sound v l Hs Hsz) as (Hs' & Hsz' & Hu').
  destruct (IH _ Hs' Hsz') as [IH1 IH2]. split; [done|]. by rewrite <- Hu'.
Qed.

End VocabLookup.

(** C3.  A vocabulary built by [Vocab.build] answers [vocab[vocab[t]] == t]
    for every token [t] of the table, maps every other token to the
    unknown index 0, and maps index 0 back to ["<unk>"].  A vocabulary
    loaded by [Vocab.read] whose index 0 holds ["<unk>"] does the same. *)
Theorem vocab_lookup_roundtrip
    (token : OpenNMTTokenizer) (files : list (list string))
    (min_freq max_size : Z) (lines : list string) :
  lookup_laws (build token Vocab_init files min_freq max_size) ∧
  (idx_to_tok (read Vocab_init lines) !! 0%nat = Some "<unk>" →
   lookup_laws (read Vocab_init lines)).
Proof.
  split.
  - destruct (build_fields token Vocab_init files min_freq max_size) as (Ht & Hi & Hu).
    apply lookup_laws_of_sound.
    + by rewrite Hu.
    + rewrite Ht, Hi. apply build_loop_sound. simpl.
      apply (table_sound_push ∅ [] "<unk>"), table_sound_empty.
    + rewrite Hi. simpl.
      destruct (build_loop_prefix min_freq max_size
                  (sorted_desc (count_tokens token files))
                  (<["<unk>" := 0]> ∅) ["<unk>"]) as [k ->].
      done.
  - intros H0.
    destruct (read_sound lines Vocab_init) as [Hs Hu].
    + apply table_sound_empty.
    + done.
    + by apply lookup_laws_of_sound.
Qed.

(** A three-line vocabulary file: ["a"] is found at index 1 and read back,
    ["zz"] is unknown. *)
Lemma vocab_lookup_roundtrip_witness :
  idx_to_tok (read Vocab_init vocab_file) !! 0%nat = Some "<unk>" ∧
  lookup_laws (read Vocab_init vocab_file) ∧
  getitem (read Vocab_init vocab_file) (VStr "a") = Ok (VInt 1) ∧
  getitem (read Vocab_init vocab_file) (VStr "zz") = Ok (VInt 0).
Proof.
  split; [reflexivity|]. split; [|split; vm_compute; reflexivity].
  apply (vocab_lookup_roundtrip (mkTokenizer None) [] 0 0 vocab_file).
  reflexivity.
Defined.

(** ** Order and cut-offs of a built vocabulary *)

Section VocabBuild.

Lemma freq_nonneg t s : 0 ≤ freq t s.
Proof. induction s as [|x s IH]; simpl; [done|]. destruct (String.eqb x t); lia. Qed.

Lemma freq_app t s1 s2 : freq t (s1 ++ s2) = freq t s1 + freq t s2.
Proof. induction s1 as [|x s1 IH]; simpl; [done|]. rewrite IH. lia. Qed.

Lemma freq_notin t s : t ∉ s → freq t s = 0.
Proof.
  induction s as [|x s IH]; simpl; [done|]. intros Hn.
  apply not_elem_of_cons in Hn as [Hne Hn]. rewrite (IH Hn).
  destruct (String.eqb_spec x t); [congruence|done].
Qed.

Lemma freq_pos t s : 0 < freq t s → t ∈ s.
Proof.
  intros Hp. destruct (decide (t ∈ s)) as [|Hn]; [done|].
  rewrite (freq_notin _ _ Hn) in Hp. lia.
Qed.

Lemma first_index_lt t s p : first_index t s = Some p → (p < length s)%nat.
Proof.
  revert p. induction s as [|x s IH]; intros p; simpl; [done|].
  destruct (String.eqb x t).
  - intros [= <-]. lia.
  - destruct (first_index t s) as [q|]; simpl; [|done].
    intros [= <-]. specialize (IH q eq_refl). lia.
Qed.

Lemma first_index_elem t s : t ∈ s → is_Some (first_index t s).
Proof.
  induction s as [|x s IH]; simpl; [by intros ?%elem_of_nil|].
  intros [->|Hin]%elem_of_cons.
  - by rewrite String.eqb_refl.
  - destruct (String.eqb x t); [done|]. destruct (IH Hin) as [q ->]. done.
Qed.

Lemma first_index_app_l t s1 s2 p :
  first_index t s1 = Some p → first_index t (s1 ++ s2) = Some p.
Proof.
  revert p. induction s1 as [|x s1 IH]; intros p; simpl; [done|].
  destruct (String.eqb x t); [done|].
  destruct (first_index t s1) as [q|]; simpl; [|done].
  intros [= <-]. by rewrite (IH q eq_refl).
Qed.

Lemma first_index_snoc_new t s : t ∉ s → first_index t (s ++ [t]) = Some (length s).
Proof.
  induction s as [|x s IH]; simpl.
  - intros _. by rewrite String.eqb_refl.
  - intros [Hne Hn]%not_elem_of_cons. rewrite (IH Hn).
    destruct (String.eqb_spec x t); [congruence|done].
Qed.

Lemma met_before_app_l a b s s' : met_before a b s → met_before a b (s ++ s').
Proof.
  intros (pa & pb & Hpa & Hpb & Hlt). exists pa, pb.
  split; [by apply first_index_app_l|]. split; [by apply first_index_app_l|done].
Qed.

(** *** The counting dict *)

Lemma keys_incr tok d :
  (incr tok d).*1 = if decide (tok ∈ d.*1) then d.*1 else d.*1 ++ [tok].
Proof.
  induction d as [|[k n] d IH].
  - destruct (decide _) as [H|H]; [by apply elem_of_nil in H|done].
  - cbn [incr]. rewrite (fmap_cons fst).
    destruct (String.eqb_spec k tok) as [->|Hne]; rewrite !fmap_cons; cbn [fst].
    + rewrite decide_True; [done|]. apply elem_of_cons. by left.
    + rewrite IH. destruct (decide (tok ∈ d.*1)) as [Hin|Hn].
      * rewrite decide_True; [done|]. apply elem_of_cons. by right.
      * rewrite decide_False; [done|]. intros [?|?]%elem_of_cons; congruence.
Qed.

Lemma incr_elem tok d t c :
  NoDup d.*1 →
  (t, c) ∈ incr tok d →
  (t ≠ tok ∧ (t, c) ∈ d) ∨
  (t = tok ∧ ((c = 1 ∧ tok ∉ d.*1) ∨ ∃ c', (tok, c') ∈ d ∧ c = c' + 1)).
Proof.
  induction d as [|[k n] d IH]; simpl; intros Hnd.
  - intros [= -> ->]%list_elem_of_singleton. right. split; [done|]. left.
    split; [done|]. apply not_elem_of_nil.
  - apply NoDup_cons in Hnd as [Hk Hnd].
    destruct (String.eqb_spec k tok) as [->|Hne].
    + intros [[= -> ->]|Hin]%elem_of_cons.
      * right. split; [done|]. right. exists n. split; [|done]. apply elem_of_cons. by left.
      * left. split; [|apply elem_of_cons; by right].
        intros ->. apply Hk. by apply (list_elem_of_fmap_2 fst) in Hin.
    + intros [[= -> ->]|Hin]%elem_of_cons.
      * left. split; [done|]. apply elem_of_cons. by left.
      * destruct (IH Hnd Hin) as [[Hne' Hd]|[-> [[-> Hn]|(c' & Hd & ->)]]].
        -- left. split; [done|]. apply elem_of_cons. by right.
        -- right. split; [done|]. left. split; [done|].
           intros [?|?]%elem_of_cons; [congruence|done].
        -- right. split; [done|]. right. exists c'. split; [|done].
           apply elem_of_cons. by right.
Qed.

Lemma counted_nil : counted [] [].
Proof.
  split; simpl.
  - constructor.
  - by intros t c ?%elem_of_nil.
  - done.
  - by intros i j a b _ ?.
Qed.

Lemma counted_snoc s d tok : counted s d → counted (s ++ [tok]) (incr tok d).
Proof.
  intros [Hnd Hf Hk Ho]. split.
  - rewrite keys_incr. case_decide as Hin; [done|].
    apply NoDup_app. split; [done|]. split; [|apply NoDup_singleton].
    intros x Hx Hx'%list_elem_of_singleton. by subst x.
  - intros t c Hin. rewrite freq_app. simpl.
    destruct (incr_elem _ _ _ _ Hnd Hin) as [[Hne Hd]|[-> [[-> Hn]|(c' & Hd & ->)]]].
    + rewrite (Hf _ _ Hd). destruct (String.eqb_spec tok t); [congruence|lia].
    + rewrite String.eqb_refl. rewrite freq_notin; [lia|]. by rewrite <- Hk.
    + rewrite String.eqb_refl. rewrite (Hf _ _ Hd). lia.
  - intros t. rewrite keys_incr. case_decide as Hin.
    + rewrite Hk, elem_of_app, list_elem_of_singleton.
      split; [by left|]. intros [?| ->]; [done|by apply Hk].
    + by rewrite !elem_of_app, Hk.
  - intros i j a b Hij. rewrite keys_incr. case_decide as Hin.
    + intros Ha Hb. apply met_before_app_l. by apply (Ho i j).
    + intros Ha Hb.
      assert (Hi : (i < length d.*1)%nat).
      { apply lookup_lt_Some in Hb. rewrite length_app in Hb. simpl in Hb. lia. }
      rewrite lookup_app_l in Ha by done.
      destruct (decide (j < length d.*1)%nat) as [Hj|Hj].
      * rewrite lookup_app_l in Hb by done.
        apply met_before_app_l. by apply (Ho i j).
      * rewrite lookup_app_r in Hb by lia.
        apply list_lookup_singleton_Some in Hb as [_ <-].
        destruct (first_index_elem a s) as [pa Hpa].
        { apply Hk. by eapply list_elem_of_lookup_2. }
        exists pa, (length s). rewrite (first_index_app_l _ _ _ _ Hpa).
        rewrite first_index_snoc_new by (by rewrite <- Hk).
        split; [done|]. split; [done|]. by eapply first_index_lt.
Qed.

Lemma counted_fold s : ∀ s0 d,
  counted s0 d → counted (s0 ++ s) (fold_left (fun d tok => incr tok d) s d).
Proof.
  induction s as [|tok s IH]; intros s0 d Hc; simpl.
  - by rewrite app_nil_r.
  - replace (s0 ++ tok :: s) with ((s0 ++ [tok]) ++ s) by (by rewrite <- app_assoc).
    apply IH. by apply counted_snoc.
Qed.

Lemma count_tokens_counted token files :
  counted (token_stream token files) (count_tokens token files).
Proof. apply (counted_fold _ [] []), counted_nil. Qed.

(** *** The stable descending sort *)

Lemma before_cons {A} (l : list A) z x y : before l x y → before (z :: l) x y.
Proof. intros (i & j & Hij & Hi & Hj). exists (S i), (S j). split; [lia|done]. Qed.

Lemma before_head {A} (l : list A) x y : y ∈ l → before (x :: l) x y.
Proof.
  intros [j Hj]%list_elem_of_lookup_1. exists 0%nat, (S j). split; [lia|done].
Qed.

Lemma insert_sorted_perm {A} (le : A → A → bool) x l : insert_sorted le x l ≡ₚ x :: l.
Proof.
  induction l as [|y l IH]; simpl; [done|].
  destruct (le x y); [done|]. rewrite IH. apply Permutation_swap.
Qed.

Lemma sorted_perm {A} (le : A → A → bool) l : sorted le l ≡ₚ l.
Proof.
  induction l as [|x l IH]; simpl; [done|]. by rewrite insert_sorted_perm, IH.
Qed.

Lemma StronglySorted_mono {A} (R R' : A → A → Prop) l :
  (∀ x y, R x y → R' x y) → StronglySorted R l → StronglySorted R' l.
Proof.
  intros HR. induction 1 as [|x l Hs IH Hf]; constructor; [done|].
  eapply Forall_impl; [exact Hf|]. intros y. apply HR.
Qed.

Lemma insert_desc_sorted d x sl :
  (∀ z, z ∈ sl → z.2 ≤ x.2 → ranks_before d x z) →
  StronglySorted (ranks_before d) sl →
  StronglySorted (ranks_before d) (insert_sorted by_count_desc x sl).
Proof.
  intros Hx Hs. induction Hs as [|y sl Hs IH Hf]; simpl.
  - repeat constructor.
  - unfold by_count_desc at 1. destruct (Z.leb_spec y.2 x.2) as [Hge|Hlt].
    + constructor; [by constructor|].
      apply Forall_forall. intros z Hz. apply Hx; [done|].
      apply elem_of_cons in Hz as [->|Hz]; [done|].
      rewrite Forall_forall in Hf. destruct (Hf z Hz) as [?|[? _]]; lia.
    + constructor.
      * apply IH. intros z Hz. apply Hx. apply elem_of_cons. by right.
      * apply Forall_forall. intros z Hz.
        rewrite insert_sorted_perm in Hz.
        apply elem_of_cons in Hz as [->|Hz]; [by left|].
        rewrite Forall_forall in Hf. by apply Hf.
Qed.

Lemma sorted_desc_perm l : sorted_desc l ≡ₚ l.
Proof. apply sorted_perm. Qed.

Lemma sorted_desc_sorted l : StronglySorted (ranks_before l) (sorted_desc l).
Proof.
  induction l as [|x l IH]; simpl; [constructor|].
  apply insert_desc_sorted.
  - intros z Hz Hle.
    assert (Hzl : z ∈ l) by (by rewrite <- (sorted_desc_perm l)).
    destruct (decide (z.2 = x.2)) as [Heq|Hne].
    + right. split; [done|]. by apply before_head.
    + left. lia.
  - eapply StronglySorted_mono; [|exact IH].
    intros a b [Hlt|[Heq Hb]]; [by left|]. right. split; [done|]. by apply before_cons.
Qed.

Lemma StronglySorted_lookup {A} (R : A → A → Prop) l i j x y :
  StronglySorted R l → (i < j)%nat → l !! i = Some x → l !! j = Some y → R x y.
Proof.
  intros Hs. revert i j. induction Hs as [|z l Hs IH Hf]; intros i j Hij Hi Hj; [done|].
  destruct j as [|j]; [lia|]. simpl in Hj. destruct i as [|i]; simpl in Hi.
  - injection Hi as ->. rewrite Forall_forall in Hf.
    by apply Hf, (list_elem_of_lookup_2 _ j).
  - apply (IH i j); [lia|done..].
Qed.

(** *** The selection loop *)

Lemma build_loop_spec min_freq max_size items : ∀ t2i i2t,
  ∃ k, (build_loop min_freq max_size items t2i i2t).2 = i2t ++ (take k items).*1 ∧
       (k ≤ length items)%nat ∧
       Forall (fun it => min_freq ≤ it.2) (take k items) ∧
       (len i2t ≤ max_size → len (i2t ++ (take k items).*1) ≤ max_size) ∧
       (max_size < len i2t → (k < length items)%nat →
        ∃ it, items !! k = Some it ∧ it.2 < min_freq).
Proof.
  induction items as [|[wrd frq] rest IH]; intros t2i i2t; simpl.
  - exists 0%nat. simpl. rewrite app_nil_r.
    split; [done|]. split; [lia|]. split; [constructor|]. split; [done|].
    intros _ ?. lia.
  - destruct (Z.eqb_spec (len i2t) max_size) as [Heq|Hne].
    { exists 0%nat. simpl. rewrite app_nil_r.
      split; [done|]. split; [lia|]. split; [constructor|]. split; [done|].
      intros ? _. lia. }
    destruct (Z.ltb_spec frq min_freq) as [Hlt|Hge].
    { exists 0%nat. simpl. rewrite app_nil_r.
      split; [done|]. split; [lia|]. split; [constructor|]. split; [done|].
      intros _ _. by exists (wrd, frq). }
    destruct (IH (<[wrd := len i2t]> t2i) (i2t ++ [wrd])) as (k & Hk & Hlen & Hf & Hcap & Hstop).
    exists (S k). simpl. rewrite Hk, <- app_assoc. simpl.
    assert (Hl : len (i2t ++ [wrd]) = len i2t + 1).
    { unfold len. rewrite length_app. simpl. lia. }
    split; [done|]. split; [lia|]. split; [by constructor|]. split.
    + intros Hle. rewrite <- app_assoc in Hcap. apply Hcap. lia.
    + intros Hm Hks. apply Hstop; lia.
Qed.

End VocabBuild.



(** ** Training batches: negative samples *)

Section NegativeSamples.

Variable self : Dataset.

Local Abbreviation acceptable := (acceptable self).
Local Abbreviation good_example := (good_example self).
Local Abbreviation good_lists := (good_lists self).
Local Abbreviation good_locals := (good_locals self).

(** The loop is the source's: test, draw again, repeat. *)
Lemma resample_unfold ctx wrd idx draws :
  resample self ctx wrd idx draws =
    if rejected ctx wrd idx
    then bind (randint 1 (vocab_size self - 1)) (resample self ctx wrd) draws
    else ret idx draws.
Proof.
  destruct draws as [|r rest]; simpl; unfold bind, randint, ret;
    destruct (rejected ctx wrd idx); try done;
    by destruct (vocab_size self - 1 <? 1).
Qed.

Lemma pick_range a b r : a ≤ b → a ≤ pick a b r ≤ b.
Proof.
  intros Hab. unfold pick.
  pose proof (Z.mod_pos_bound (Z.of_nat r) (b - a + 1) ltac:(lia)). lia.
Qed.

Lemma pick_onto a b v : a ≤ v ≤ b → pick a b (Z.to_nat (v - a)) = v.
Proof.
  intros Hv. unfold pick. rewrite Z2Nat.id by lia.
  rewrite Z.mod_small by lia. lia.
Qed.

Lemma rejected_false ctx wrd idx :
  rejected ctx wrd idx = false ↔ idx ≠ wrd ∧ idx ∉ ctx.
Proof.
  unfold rejected. rewrite orb_false_iff, bool_decide_eq_false, Z.eqb_neq. tauto.
Qed.

Lemma resample_done ctx wrd : ∀ draws idx0 idx rest,
  (rejected ctx wrd idx0 = false → 1 ≤ idx0 ≤ vocab_size self - 1) →
  resample self ctx wrd idx0 draws = Done idx rest →
  acceptable ctx wrd idx.
Proof.
  induction draws as [|r draws IH]; intros idx0 idx rest H0; simpl.
  - destruct (rejected ctx wrd idx0) eqn:Hr.
    + by destruct (vocab_size self - 1 <? 1).
    + intros [= <- <-]. split; [auto|]. by apply rejected_false.
  - destruct (rejected ctx wrd idx0) eqn:Hr.
    + destruct (Z.ltb_spec (vocab_size self - 1) 1) as [|Hvs]; [done|].
      apply IH. intros _. by apply pick_range.
    + intros [= <- <-]. split; [auto|]. by apply rejected_false.
Qed.

Lemma draw_neg_done ctx wrd draws idx rest :
  draw_neg self ctx wrd draws = Done idx rest → acceptable ctx wrd idx.
Proof.
  unfold draw_neg, bind, randint.
  destruct (Z.ltb_spec (vocab_size self - 1) 1) as [|Hvs]; [done|].
  destruct draws as [|r draws]; [done|].
  apply resample_done. intros _. by apply pick_range.
Qed.

Lemma sample_negs_done ctx wrd n : ∀ neg0 draws neg rest,
  sample_negs self n ctx wrd neg0 draws = Done neg rest →
  ∃ new, neg = neg0 ++ new ∧ length new = n ∧ Forall (acceptable ctx wrd) new.
Proof.
  induction n as [|n IH]; intros neg0 draws neg rest; simpl.
  - intros [= <- <-]. exists []. by rewrite app_nil_r.
  - unfold bind at 1. destruct (draw_neg self ctx wrd draws) as [idx rest'| |] eqn:Hd; [|done..].
    intros Hs. destruct (IH _ _ _ _ Hs) as (new & -> & Hlen & Hall).
    exists (idx :: new). rewrite <- app_assoc. split; [done|]. split; [simpl; lia|].
    constructor; [|done]. by eapply draw_neg_done.
Qed.

(** Loop invariants for [for_each]. *)
Lemma for_each_invariant {A S} (P : S → Prop) (body : A → S → rnd S) l :
  (∀ x s draws s' rest, P s → body x s draws = Done s' rest → P s') →
  ∀ s draws s' rest, P s → for_each body l s draws = Done s' rest → P s'.
Proof.
  intros Hbody. induction l as [|x l IH]; intros s draws s' rest Hs; simpl.
  - by intros [= <- <-].
  - unfold bind. destruct (body x s draws) as [s1 rest1| |] eqn:Hb; [|done..].
    apply IH. by eapply Hbody.
Qed.

Lemma flush_good st : good_locals st → good_locals (flush self st).
Proof.
  intros [Hb Hl]. unfold flush. destruct (len (batch_wrd st) =? batch_size self); [|done].
  split; simpl; [|constructor].
  apply Forall_app. split; [done|]. by repeat constructor.
Qed.

Lemma example_good toks i st draws st' rest :
  0 ≤ n_negs self →
  good_locals st → example self toks i st draws = Done st' rest → good_locals st'.
Proof.
  intros Hn [Hb Hl]. unfold example, bind at 1, lift.
  destruct (toks !! i) as [wrd|]; [|done].
  unfold bind.
  destruct (sample_negs self _ _ _ _ draws) as [neg rest'| |] eqn:Hs; [|done..].
  unfold ret. intros [= <- <-]. apply flush_good. split; [done|]. simpl.
  apply Forall3_app; [done|]. repeat constructor.
  - apply sample_negs_done in Hs as (new & -> & Hlen & _). simpl.
    unfold len. rewrite Hlen. lia.
  - apply sample_negs_done in Hs as (new & -> & _ & Hall). done.
Qed.

Lemma sentence_good index st draws st' rest :
  0 ≤ n_negs self →
  good_locals st → sentence self index st draws = Done st' rest → good_locals st'.
Proof.
  intros Hn Hst. unfold sentence, bind, lift.
  destruct (corpus self !! index) as [toks|]; [|done].
  destruct (len toks <? 2).
  - by intros [= <- <-].
  - apply for_each_invariant; [|done]. intros x s d s1 r1. by apply example_good.
Qed.

Lemma good_lists_lookup wrds ctxs negs :
  good_lists wrds ctxs negs →
  length wrds = length ctxs ∧ length wrds = length negs ∧
  ∀ k wrd ctx neg, wrds !! k = Some wrd → ctxs !! k = Some ctx → negs !! k = Some neg →
    good_example wrd ctx neg.
Proof.
  intros H. split; [exact (Forall3_length_lm _ _ _ _ H)|].
  split; [exact (Forall3_length_lr _ _ _ _ H)|].
  intros k wrd ctx neg Hw Hc Hn. exact (Forall3_lookup_lmr _ _ _ _ _ _ _ _ H Hw Hc Hn).
Qed.

End NegativeSamples.

(** C5.  Whenever [build_batchs] returns, the three lists of an emitted
    batch have the same length, and for the example at each position the
    negative list has [n_negs] entries, each in [1..vocab_size-1], none
    equal to the centre word and none in the context window. *)
Theorem negatives_avoid_centre_and_context
    (self : Dataset) (argsort : list Z → list nat)
    (draws : list nat) (result : list batch) (rest : list nat) :
  0 ≤ n_negs self →
  build_batchs self argsort draws = Done result rest →
  ∀ b, b ∈ result →
    length (b_wrd b) = length (b_ctx b) ∧ length (b_wrd b) = length (b_neg b) ∧
    ∀ k wrd ctx neg,
      b_wrd b !! k = Some wrd → b_ctx b !! k = Some ctx → b_neg b !! k = Some neg →
      len neg = n_negs self ∧
      ∀ idx, idx ∈ neg → 1 ≤ idx ≤ vocab_size self - 1 ∧ idx ≠ wrd ∧ idx ∉ ctx.
Proof.
  intros Hn. unfold build_batchs, bind at 1.
  destruct (for_each _ _ _ draws) as [st rest'| |] eqn:Hloop; [|done..].
  assert (Hst : good_locals self st).
  { eapply (for_each_invariant (good_locals self)); [| |exact Hloop].
    - intros x s d s1 r1. by apply sentence_good.
    - split; simpl; constructor. }
  unfold ret. intros [= <- <-] b Hb.
  assert (Hgood : good_lists self (b_wrd b) (b_ctx b) (b_neg b)).
  { destruct Hst as [Hbs Hl]. rewrite Forall_forall in Hbs.
    destruct (negb _); [|by apply Hbs].
    apply elem_of_app in Hb as [Hb|Hb%list_elem_of_singleton]; [by apply Hbs|].
    by subst b. }
  destruct (good_lists_lookup _ _ _ _ Hgood) as (H1 & H2 & H3).
  split; [done|]. split; [done|].
  intros k wrd ctx neg Hw Hc Hg. destruct (H3 _ _ _ _ Hw Hc Hg) as [Hlen Hall].
  split; [done|]. intros idx Hidx. rewrite Forall_forall in Hall. by apply Hall.
Qed.

(** On [small_dataset], with twelve outcomes of the generator. *)
Lemma negatives_avoid_centre_and_context_witness :
  ∃ result rest,
    build_batchs small_dataset in_order [0; 1; 2; 3; 4; 0; 1; 2; 3; 4; 0; 3]%nat
      = Done result rest ∧
    b_neg <$> result = [[[3; 4]; [5; 4]]; [[5; 1]]] ∧
    ∀ b, b ∈ result →
      length (b_wrd b) = length (b_ctx b) ∧ length (b_wrd b) = length (b_neg b) ∧
      ∀ k wrd ctx neg,
        b_wrd b !! k = Some wrd → b_ctx b !! k = Some ctx → b_neg b !! k = Some neg →
        len neg = 2 ∧ ∀ idx, idx ∈ neg → 1 ≤ idx ≤ 6 - 1 ∧ idx ≠ wrd ∧ idx ∉ ctx.
Proof.
  eexists _, _.
  split; [vm_compute; reflexivity|]. split; [reflexivity|].
  eapply (negatives_avoid_centre_and_context small_dataset in_order
            [0; 1; 2; 3; 4; 0; 1; 2; 3; 4; 0; 3]%nat); [simpl; lia|].
  vm_compute. reflexivity.
Defined.

(** ** Training batches: termination of the resampling loop *)

Section Resampling.

Variable self : Dataset.

Local Abbreviation covered := (covered self).
Local Abbreviation covered_example := (covered_example self).

Local Abbreviation top := (vocab_size self - 1).

Lemma resample_finds ctx wrd : ∀ draws idx0,
  1 ≤ top →
  rejected ctx wrd idx0 = false ∨
    (∃ r, r ∈ draws ∧ acceptable self ctx wrd (pick 1 top r)) →
  ∃ idx rest, resample self ctx wrd idx0 draws = Done idx rest.
Proof.
  induction draws as [|r draws IH]; intros idx0 Htop Hfind; simpl.
  - destruct Hfind as [->|(r & Hr%elem_of_nil & _)]; [eauto|done].
  - destruct (rejected ctx wrd idx0) eqn:Hrej; [|eauto].
    destruct (Z.ltb_spec top 1) as [|_]; [lia|].
    apply IH; [done|]. destruct Hfind as [|(r' & Hr' & Hacc)]; [done|].
    apply elem_of_cons in Hr' as [->|Hr']; [|right; eauto].
    left. by apply rejected_false, Hacc.
Qed.

Lemma draw_neg_finds ctx wrd draws r :
  r ∈ draws → acceptable self ctx wrd (pick 1 top r) →
  ∃ idx rest, draw_neg self ctx wrd draws = Done idx rest.
Proof.
  intros Hr Hacc. assert (Htop : 1 ≤ top) by (destruct Hacc as [? _]; lia).
  unfold draw_neg, bind, randint. destruct (Z.ltb_spec top 1) as [|_]; [lia|].
  destruct draws as [|r0 draws]; [by apply elem_of_nil in Hr|].
  apply resample_finds; [done|].
  apply elem_of_cons in Hr as [->|Hr]; [|right; eauto].
  left. by apply rejected_false, Hacc.
Qed.

Lemma covered_rejected ctx wrd idx :
  covered ctx wrd → 1 ≤ idx ≤ top → rejected ctx wrd idx = true.
Proof.
  intros Hc Hidx. unfold rejected. apply orb_true_iff.
  destruct (Hc idx Hidx) as [->|Hin]; [right; apply Z.eqb_refl|left].
  by apply bool_decide_eq_true.
Qed.

Lemma resample_starved ctx wrd : ∀ draws idx0,
  covered ctx wrd → 1 ≤ top → 1 ≤ idx0 ≤ top →
  resample self ctx wrd idx0 draws = Starved.
Proof.
  induction draws as [|r draws IH]; intros idx0 Hc Htop Hidx; simpl;
    rewrite (covered_rejected _ _ _ Hc Hidx);
    destruct (Z.ltb_spec top 1) as [|_]; try lia; [done|].
  apply IH; [done..|]. by apply pick_range.
Qed.

Lemma draw_neg_starved ctx wrd draws :
  covered ctx wrd → 1 ≤ top → draw_neg self ctx wrd draws = Starved.
Proof.
  intros Hc Htop. unfold draw_neg, bind, randint.
  destruct (Z.ltb_spec top 1) as [|_]; [lia|].
  destruct draws as [|r draws]; [done|].
  apply resample_starved; [done..|]. by apply pick_range.
Qed.

Lemma for_each_safe {A S} (body : A → S → rnd S) l :
  Forall (safe body) l → ∀ s draws e, for_each body l s draws ≠ Fail e.
Proof.
  induction 1 as [|x l Hx Hl IH]; intros s draws e; simpl; [done|].
  unfold bind. destruct (body x s draws) as [s1 rest| |] eqn:Hb; [apply IH| |done].
  by destruct (Hx s draws e0).
Qed.

Lemma for_each_stuck {A S} (body : A → S → rnd S) l x :
  Forall (safe body) l → x ∈ l → stuck body x →
  ∀ s draws, for_each body l s draws = Starved.
Proof.
  intros Hsafe Hx Hstuck. induction Hsafe as [|y l Hy Hl IH]; intros s draws.
  - by apply elem_of_nil in Hx.
  - simpl. unfold bind. apply elem_of_cons in Hx as [<-|Hx].
    + by rewrite Hstuck.
    + destruct (body y s draws) as [s1 rest|e|] eqn:Hb; [by apply IH| |done].
      by destruct (Hy s draws e).
Qed.

Lemma resample_safe ctx wrd : ∀ draws idx0 e,
  1 ≤ top → resample self ctx wrd idx0 draws ≠ Fail e.
Proof.
  induction draws as [|r draws IH]; intros idx0 e Htop; simpl;
    destruct (rejected ctx wrd idx0); try done;
    destruct (Z.ltb_spec top 1) as [|_]; try lia; [done|].
  by apply IH.
Qed.

Lemma draw_neg_safe ctx wrd draws e :
  1 ≤ top → draw_neg self ctx wrd draws ≠ Fail e.
Proof.
  intros Htop. unfold draw_neg, bind, randint.
  destruct (Z.ltb_spec top 1) as [|_]; [lia|].
  destruct draws as [|r draws]; [done|]. by apply resample_safe.
Qed.

Lemma sample_negs_safe ctx wrd n : ∀ neg draws e,
  1 ≤ top → sample_negs self n ctx wrd neg draws ≠ Fail e.
Proof.
  induction n as [|n IH]; intros neg draws e Htop; simpl; [done|].
  unfold bind at 1.
  destruct (draw_neg self ctx wrd draws) as [idx rest|e'|] eqn:Hd; [by apply IH| |done].
  by destruct (draw_neg_safe ctx wrd draws e').
Qed.

Lemma example_safe toks i :
  1 ≤ top → (i < length toks)%nat → safe (example self toks) i.
Proof.
  intros Htop Hi st draws e. unfold example, bind at 1, lift.
  destruct (lookup_lt_is_Some_2 toks i Hi) as [wrd ->].
  unfold bind.
  destruct (sample_negs self _ _ _ _ draws) as [neg rest|e'|] eqn:Hs; [done| |done].
  by destruct (sample_negs_safe _ _ _ _ _ e' Htop Hs).
Qed.

Lemma examples_safe toks :
  1 ≤ top → Forall (safe (example self toks)) (seq 0 (length toks)).
Proof.
  intros Htop. apply Forall_forall. intros i Hi%elem_of_seq.
  apply example_safe; [done|lia].
Qed.

Lemma sentence_safe index :
  1 ≤ top → (index < length (corpus self))%nat → safe (sentence self) index.
Proof.
  intros Htop Hi st draws e. unfold sentence, bind, lift.
  destruct (lookup_lt_is_Some_2 _ _ Hi) as [toks ->].
  destruct (len toks <? 2); [done|].
  by apply for_each_safe, examples_safe.
Qed.

Lemma example_stuck toks i wrd :
  1 ≤ top → 1 ≤ n_negs self → toks !! i = Some wrd →
  covered (context self toks (Z.of_nat i)) wrd →
  stuck (example self toks) i.
Proof.
  intros Htop Hn Hw Hc st draws. unfold example, bind at 1, lift. rewrite Hw.
  destruct (Z.to_nat (n_negs self)) as [|n] eqn:Hz; [lia|].
  simpl. unfold bind. by rewrite draw_neg_starved.
Qed.

Lemma build_batchs_starved (argsort : list Z → list nat) :
  2 ≤ vocab_size self → 1 ≤ n_negs self →
  Forall (fun index => (index < length (corpus self))%nat)
         (argsort (len <$> corpus self)) →
  covered_example argsort →
  ∀ draws, build_batchs self argsort draws = Starved.
Proof.
  intros Hvs Hn Hvalid (index & toks & i & wrd & Hin & Htoks & Hlen & Hw & Hc) draws.
  assert (Htop : 1 ≤ top) by lia.
  unfold build_batchs, bind at 1.
  rewrite (for_each_stuck (sentence self) _ index); [done| |done|].
  - eapply Forall_impl; [exact Hvalid|]. intros ix. by apply sentence_safe.
  - intros st d. unfold sentence, bind, lift. rewrite Htoks.
    destruct (Z.ltb_spec (len toks) 2) as [|_]; [lia|].
    apply (for_each_stuck _ _ i).
    + by apply examples_safe.
    + apply elem_of_seq. apply lookup_lt_Some in Hw. lia.
    + by eapply example_stuck.
Qed.

Lemma draw_neg_empty_range ctx wrd draws :
  vocab_size self ≤ 1 → draw_neg self ctx wrd draws = Fail ValueError.
Proof.
  intros Hvs. unfold draw_neg, bind, randint.
  by destruct (Z.ltb_spec top 1) as [|]; [|lia].
Qed.

End Resampling.




(** ** Inference batches *)

Section InferBatches.

Variable self : Dataset.

Lemma infer_flush_inv st : infer_inv st → infer_inv (infer_flush self st).
Proof.
  intros [H1 H2]. unfold infer_flush.
  destruct (len (ib_snt st.2) =? batch_size self); [|done].
  split; simpl; [|done]. apply Forall_app. split; [done|]. by constructor.
Qed.

Lemma infer_sentence_inv st index st' :
  infer_inv st → infer_sentence self st index = Ok st' → infer_inv st'.
Proof.
  intros [H1 H2]. unfold infer_sentence.
  destruct (corpus self !! index) as [toks|]; [|done].
  rewrite last_snoc. intros [= <-]. apply infer_flush_inv. split; [done|].
  unfold len_is_snt in *. simpl. by rewrite H2, fmap_app.
Qed.

Lemma infer_loop_inv indexs : ∀ st st',
  infer_inv st → infer_loop self indexs st = Ok st' → infer_inv st'.
Proof.
  induction indexs as [|index indexs IH]; intros st st' Hst; simpl.
  - by intros [= <-].
  - destruct (infer_sentence self st index) as [st1|] eqn:Hs; [|done].
    simpl. apply IH. by eapply infer_sentence_inv.
Qed.

End InferBatches.

(** C7.  In every batch [build_batchs_infer_sent] emits, the second
    component holds the sentences themselves, one list of tokens per
    sentence, where the specification asks for their integer lengths. *)
Theorem infer_batch_second_component
    (self : Dataset) (argsort : list Z → list nat) (result : list infer_batch) :
  build_batchs_infer_sent self argsort = Ok result →
  ∀ b, b ∈ result → ib_len b = VList <$> ib_snt b.
Proof.
  unfold build_batchs_infer_sent.
  destruct (infer_loop _ _ _) as [st|] eqn:Hloop; [|done]. simpl.
  apply infer_loop_inv in Hloop as [H1 H2]; [|by split; [constructor|]].
  intros [= <-] b Hb. rewrite Forall_forall in H1.
  destruct (negb _); [|by apply H1].
  apply elem_of_app in Hb as [Hb|Hb%list_elem_of_singleton]; [by apply H1|by subst b].
Qed.

(** The sentence [[5, 6, 7]]: the length marker of its batch is the
    sentence, not 3. *)
Lemma infer_batch_second_component_witness :
  ∃ result,
    build_batchs_infer_sent one_sentence in_order = Ok result ∧
    result = [mkInferBatch [[5; 6; 7]] [VList [5; 6; 7]] [0%nat]] ∧
    ∀ b, b ∈ result → ib_len b = VList <$> ib_snt b ∧ ib_len b ≠ [VInt 3].
Proof.
  eexists. split; [vm_compute; reflexivity|]. split; [reflexivity|].
  intros b Hb. split.
  - by apply (infer_batch_second_component one_sentence in_order
                [mkInferBatch [[5; 6; 7]] [VList [5; 6; 7]] [0%nat]]).
  - apply list_elem_of_singleton in Hb as ->. simpl. discriminate.
Defined.

(** ** Loading a vector file *)

Section VectorFile.

Variable F : Type.
Variable float32 : string → option F.
Variable renorm : list F → F → F.

Local Abbreviation numeric := (numeric F float32).

Lemma split_on_nonempty sep s : split_on sep s ≠ [].
Proof.
  destruct s as [|c s]; simpl; [done|].
  destruct (Ascii.eqb c sep); [done|]. by destruct (split_on sep s).
Qed.

Lemma cell_count_pos l : 0 < cell_count l.
Proof.
  unfold cell_count, cells, len.
  pose proof (split_on_nonempty " "%char (rstrip l)) as H.
  destruct (split_on _ _); [done|]. simpl. lia.
Qed.

Lemma read_cells_uniform file d lines : ∀ vec,
  0 < d → Forall (fun l => cell_count l = d) lines →
  read_cells file lines d vec = ([], Ok (d, vec ++ (cells <$> lines))).
Proof.
  induction lines as [|l lines IH]; intros vec Hd Hall; simpl.
  - by rewrite app_nil_r.
  - apply Forall_cons in Hall as [Hl Hall].
    destruct (Z.ltb_spec 0 d) as [_|]; [|lia].
    fold (cell_count l). rewrite Hl, Z.eqb_refl. simpl.
    rewrite IH by done. by rewrite <- app_assoc.
Qed.

Lemma read_cells_offending file d pre l post : ∀ vec,
  0 < d → Forall (fun l => cell_count l = d) pre → cell_count l ≠ d →
  read_cells file (pre ++ l :: post) d vec =
    ([bad_cells file l d (length vec + length pre)], Raise SystemExit).
Proof.
  induction pre as [|l0 pre IH]; intros vec Hd Hall Hl; simpl.
  - destruct (Z.ltb_spec 0 d) as [_|]; [|lia].
    fold (cell_count l). destruct (Z.eqb_spec (cell_count l) d) as [|_]; [done|].
    simpl. unfold bad_cells, len. by rewrite Nat.add_0_r.
  - apply Forall_cons in Hall as [Hl0 Hall].
    destruct (Z.ltb_spec 0 d) as [_|]; [|lia].
    fold (cell_count l0). rewrite Hl0, Z.eqb_refl. simpl.
    rewrite IH by done. rewrite length_app. simpl.
    by replace (length vec + 1 + length pre)%nat
      with (length vec + S (length pre))%nat by lia.
Qed.

Lemma read_cells_first file d l lines :
  d ≤ 0 → read_cells file (l :: lines) d [] = read_cells file lines (cell_count l) [cells l].
Proof. intros Hd. simpl. by destruct (Z.ltb_spec 0 d) as [|_]; [lia|]. Qed.

(** The first entry of a list that fails a decidable test. *)
Lemma first_failure {A} (P : A → Prop) `{!∀ x, Decision (P x)} (l : list A) x :
  x ∈ l → ¬ P x → ∃ pre y post, l = pre ++ y :: post ∧ Forall P pre ∧ ¬ P y.
Proof.
  induction l as [|z l IH]; intros Hin Hx; [by apply elem_of_nil in Hin|].
  destruct (decide (P z)) as [Hz|Hz].
  - apply elem_of_cons in Hin as [->|Hin]; [done|].
    destruct (IH Hin Hx) as (pre & y & post & -> & Hpre & Hy).
    exists (z :: pre), y, post. split; [done|]. split; [by constructor|done].
  - exists [], z, l. split; [done|]. split; [constructor|done].
Qed.

(** The loop either reads all lines or stops at the first line whose
    cell count is not the resolved one. *)
Lemma read_cells_resolved file lines d :
  (Forall (fun l => cell_count l = resolved d lines) lines ∧
   read_cells file lines d [] = ([], Ok (resolved d lines, cells <$> lines))) ∨
  (∃ pre l post, lines = pre ++ l :: post ∧
     Forall (fun l => cell_count l = resolved d lines) pre ∧
     cell_count l ≠ resolved d lines ∧
     read_cells file lines d [] =
       ([bad_cells file l (resolved d lines) (length pre)], Raise SystemExit)).
Proof.
  assert (Hpos : ∀ d' vec, 0 < d' →
    (Forall (fun l => cell_count l = d') lines ∧
     read_cells file lines d' vec = ([], Ok (d', vec ++ (cells <$> lines)))) ∨
    (∃ pre l post, lines = pre ++ l :: post ∧
       Forall (fun l => cell_count l = d') pre ∧ cell_count l ≠ d' ∧
       read_cells file lines d' vec =
         ([bad_cells file l d' (length vec + length pre)], Raise SystemExit))).
  { clear d. intros d vec Hd.
    destruct (decide (Forall (fun l => cell_count l = d) lines)) as [Hall|Hn].
    - left. split; [done|]. by apply read_cells_uniform.
    - right. apply not_Forall_Exists, Exists_exists in Hn as (x & Hx & Hne); [|apply _].
      destruct (first_failure (fun l => cell_count l = d) lines x Hx Hne)
        as (pre & y & post & -> & Hpre & Hy).
      exists pre, y, post. split; [done|]. split; [done|]. split; [done|].
      by apply read_cells_offending. }
  unfold resolved. destruct (Z.ltb_spec 0 d) as [Hd|Hd].
  - destruct (Hpos d [] Hd) as [[Hall Hr]|(pre & l & post & -> & Hpre & Hl & Hr)].
    + left. done.
    + right. exists pre, l, post. done.
  - destruct lines as [|l0 lines]; [left; by split|].
    rewrite read_cells_first by done.
    clear Hpos.
    assert (Hpos' := cell_count_pos l0).
    destruct (decide (Forall (fun l => cell_count l = cell_count l0) lines)) as [Hall|Hn].
    + left. split; [by constructor|]. by rewrite read_cells_uniform.
    + right. apply not_Forall_Exists, Exists_exists in Hn as (x & Hx & Hne); [|apply _].
      destruct (first_failure (fun l => cell_count l = cell_count l0) lines x Hx Hne)
        as (pre & y & post & -> & Hpre & Hy).
      exists (l0 :: pre), y, post. split; [done|]. split; [by constructor|]. split; [done|].
      by rewrite read_cells_offending.
Qed.

Lemma astype_float32_shape (w : Z) lines :
  numeric lines → Forall (fun l => cell_count l = w) lines →
  ∃ vec, astype_float32 F float32 (cells <$> lines) = Ok vec ∧
         length vec = length lines ∧ Forall (fun v => len v = w) vec.
Proof.
  intros Hnum Hall. unfold astype_float32.
  destruct (mapM (mapM float32) (cells <$> lines)) as [vec|] eqn:Hm.
  - exists vec. split; [done|].
    apply mapM_Some_1 in Hm. split.
    + apply Forall2_length in Hm. by rewrite length_fmap in Hm.
    + apply Forall2_fmap_l in Hm.
      eapply Forall2_Forall_r; [exact Hm|].
      eapply Forall_impl; [exact Hall|]. intros l Hl v Hv%mapM_Some_1.
      apply Forall2_length in Hv. unfold cell_count, len in *. lia.
  - exfalso. apply mapM_None_1, Exists_exists in Hm as (cs & Hcs & Hnone).
    apply list_elem_of_fmap in Hcs as (l & -> & Hl).
    unfold numeric in Hnum. rewrite Forall_forall in Hnum. specialize (Hnum l Hl).
    apply mapM_is_Some_2 in Hnum. rewrite Hnone in Hnum. by destruct Hnum.
Qed.

Lemma normalize_L2_shape (w : Z) vec :
  Forall (fun v => len v = w) vec →
  length (normalize_L2 F renorm vec) = length vec ∧
  Forall (fun v => len v = w) (normalize_L2 F renorm vec).
Proof.
  intros Hall. unfold normalize_L2. split; [by rewrite length_fmap|].
  apply Forall_fmap. eapply Forall_impl; [exact Hall|].
  intros v Hv. simpl. unfold len in *. by rewrite length_fmap.
Qed.

End VectorFile.

(** C2.  When some line's cell count differs from the resolved
    dimensionality, [Infile] stops at the first such line: the only thing
    logged is the error naming its line number, and [sys.exit()] ends the
    run with no record.  When every line of a numeric file has the
    resolved cell count, the loading loop and the conversion yield as
    many vectors as there are lines, each of the resolved width; and
    [Infile], for a file of at least one line and a sidecar that is
    absent or aligned, returns the record of these vectors. *)
Theorem infile_dimension_check
    (F : Type) (float32 : string → option F) (renorm : list F → F → F)
    (file : string) (lines : list string) (d : Z) (norm : bool)
    (file_str : option (string * list string)) :
  ((∃ l, l ∈ lines ∧ cell_count l ≠ resolved d lines) →
   ∃ n l, lines !! n = Some l ∧ cell_count l ≠ resolved d lines ∧
          Forall (fun l => cell_count l = resolved d lines) (take n lines) ∧
          Infile_init F float32 renorm file lines d norm file_str =
            ([bad_cells file l (resolved d lines) n], Raise SystemExit)) ∧
  (Forall (fun l => cell_count l = resolved d lines) lines →
   numeric F float32 lines →
   (∃ log vec0,
      load_vectors F float32 file lines d = (log, Ok (resolved d lines, vec0)) ∧
      length vec0 = length lines ∧
      Forall (fun v => len v = resolved d lines) vec0) ∧
   (lines ≠ [] → aligned lines file_str →
    ∃ log inf, Infile_init F float32 renorm file lines d norm file_str = (log, Ok inf) ∧
               length (vec F inf) = length lines ∧
               Forall (fun v => len v = resolved d lines) (vec F inf) ∧
               FaissCli.d F inf = resolved d lines)).
Proof.
  destruct (read_cells_resolved file lines d)
    as [[Hall Hr]|(pre & l & post & -> & Hpre & Hl & Hr)]; split.
  - intros (l & Hin & Hne). rewrite Forall_forall in Hall. by destruct Hne; apply Hall.
  - intros _ Hnum. unfold Infile_init, load_vectors. rewrite Hr.
    destruct (astype_float32_shape F float32 _ lines Hnum Hall) as (vec0 & -> & Hlen & Hw).
    split; [eauto 10|]. intros _ Hal.
    set (vec1 := if norm then normalize_L2 F renorm vec0 else vec0).
    assert (Hshape : length vec1 = length lines ∧
                     Forall (fun v => len v = resolved d lines) vec1).
    { unfold vec1. destruct norm; [|done].
      destruct (normalize_L2_shape F renorm _ vec0 Hw) as [H1 H2]. split; [congruence|done]. }
    destruct Hshape as [Hlen1 Hw1].
    destruct file_str as [[fstr slines]|]; simpl in Hal.
    + assert (Heq : (len (rstrip <$> slines) =? len vec1) = true).
      { apply Z.eqb_eq. unfold len. rewrite length_fmap. lia. }
      rewrite Heq. simpl. eauto 10.
    + eauto 10.
  - intros _. exists (length pre), l.
    split; [by rewrite lookup_app_r, Nat.sub_diag|]. split; [done|].
    split; [by rewrite take_app_length|].
    unfold Infile_init, load_vectors. by rewrite Hr.
  - intros Hall. apply Forall_app in Hall as [_ Hall].
    apply Forall_cons in Hall as [Hl' _]. done.
Qed.

(** A file of three lines of two cells loads as three vectors of width 2;
    a file whose second line has three cells stops at line 2. *)
Lemma infile_dimension_check_witness :
  (∃ log inf,
     Infile_init Z read_number (fun _ x => x) "db.vec" three_by_two 0 false None
       = (log, Ok inf) ∧
     length (vec Z inf) = 3%nat ∧ Forall (fun v => len v = 2) (vec Z inf) ∧
     FaissCli.d Z inf = 2) ∧
  (∃ n l, ragged !! n = Some l ∧ n = 1%nat ∧
     Infile_init Z read_number (fun _ x => x) "db.vec" ragged 0 true None
       = ([bad_cells "db.vec" l 2 n], Raise SystemExit)).
Proof.
  split.
  - destruct (infile_dimension_check Z read_number (fun _ x => x)
                "db.vec" three_by_two 0 false None) as [_ Hok].
    destruct Hok as [_ Hok].
    + vm_compute. repeat constructor.
    + vm_compute. repeat (constructor; eauto).
    + destruct Hok as (log & inf & Hinit & Hlen & Hw & Hd); [discriminate|exact Logic.I|].
      exists log, inf. done.
  - destruct (infile_dimension_check Z read_number (fun _ x => x)
                "db.vec" ragged 0 true None) as [Hbad _].
    destruct Hbad as (n & l & Hn & Hne & Hpre & Hinit).
    + exists "3 4 5
". split; [apply list_elem_of_In; vm_compute; tauto|]. vm_compute. discriminate.
    + exists n, l. split; [done|]. split; [|done].
      assert (Hlt : (n < 3)%nat) by (apply lookup_lt_Some in Hn; done).
      destruct n as [|[|[|n]]]; [| done | | lia].
      * injection Hn as <-. vm_compute in Hne. done.
      * apply Forall_forall with (x := "3 4 5
") in Hpre; [vm_compute in Hpre; done|].
        apply list_elem_of_In. vm_compute. tauto.
Defined.

(** ** Querying the indices *)

Section QueryResults.

Variable F : Type.
Variable flt : F → F → bool.
Variable Index : Type.
Variable search : Index → list (list F) → Z → list (list F) * list (list Z).

Local Abbreviation untouched := (untouched F Index).

Lemma for_range_invariant {S} (P : S → Prop) n (body : nat → S → res S) s s' :
  P s → (∀ i s s', P s → body i s = Ok s' → P s') →
  for_range n body s = Ok s' → P s'.
Proof.
  intros Hs Hbody. unfold for_range.
  assert (Hacc : ∀ s0, Ok s = Ok s0 → P s0) by (by intros s0 [= <-]).
  revert Hacc. generalize (Ok s) as acc. generalize (seq 0 n) as l.
  induction l as [|i l IH]; intros acc Hacc; simpl.
  - intros ->. by apply Hacc.
  - apply IH. intros s1. destruct acc as [s0|e]; simpl; [|done].
    apply Hbody. by apply Hacc.
Qed.

Lemma candidate_untouched self D row min_score skip i_query j n r r' :
  untouched self n r →
  candidate F flt Index self D row min_score skip i_query j r = Ok r' →
  untouched self n r'.
Proof.
  intros [Hrefs Hstore]. unfold candidate.
  destruct (getitem_list row _) as [i_db|]; simpl; [|done].
  destruct (getitem_list D _) as [Drow|]; simpl; [|done].
  destruct (getitem_list Drow _) as [score|]; simpl; [|done].
  destruct (flt score min_score); [by intros [= <-]|].
  destruct (skip && _); [by intros [= <-]|].
  destruct (getitem_list (refs F r) _) as [ref|]; simpl; [|done].
  destruct (self_curr_db F Index self) as [c|] eqn:Hc; simpl; [|done].
  destruct (getitem_list (txt F c) i_db) as [key|]; simpl; [|done].
  intros [= <-]. split; [done|]. intros Hnone. congruence.
Qed.

Lemma query_db_untouched self query k min_score skip i_db n r r' :
  untouched self n r →
  query_db F flt Index search self query k min_score skip i_db r = Ok r' →
  untouched self n r'.
Proof.
  intros Hr. unfold query_db.
  destruct (getitem_list (self_db F Index self) _) as [c|]; simpl; [|done].
  destruct (getitem_list (self_index F Index self) _) as [ix|]; simpl; [|done].
  destruct (search ix (vec F query) k) as [D I_].
  destruct (negb (len D =? len I_)); [done|].
  destruct (negb (len D =? Infile_len F query)); [done|].
  apply for_range_invariant; [done|]. intros i_query s s1 Hs.
  destruct (getitem_list I_ _) as [row|]; simpl; [|done].
  apply for_range_invariant; [done|]. intros j s2 s3. apply candidate_untouched.
Qed.

Lemma Query_untouched self query k min_score skip r :
  Query F flt Index search self query k min_score skip = Ok r →
  untouched self (Infile_len F query) r.
Proof.
  unfold Query. apply for_range_invariant.
  - split; [done|]. done.
  - intros i_db s s'. apply query_db_untouched.
Qed.

End QueryResults.

(** C1.  Whenever [IndexFaiss.Query] returns, the returned list has one
    entry per query item, and all its entries are one and the same
    mapping: what is written for one query item shows at every position.
    With [curr_db] unset, as the class leaves it, [Query] returns only when
    no candidate passed the filters, and every mapping is empty. *)
Theorem query_rows_share_one_mapping
    (F : Type) (flt : F → F → bool) (Index : Type)
    (search : Index → list (list F) → Z → list (list F) * list (list Z))
    (self : IndexFaiss F Index) (query : Infile F) (k : Z) (min_score : F)
    (skip_same_id : bool) (r : results F) :
  Query F flt Index search self query k min_score skip_same_id = Ok r →
  len (mappings F r) = Infile_len F query ∧
  (∃ m, mappings F r = replicate (length (vec F query)) m) ∧
  (self_curr_db F Index self = None →
   mappings F r = replicate (length (vec F query)) ∅).
Proof.
  intros [Hrefs Hstore]%Query_untouched. unfold mappings, Infile_len, len in *.
  rewrite Nat2Z.id in Hrefs. rewrite Hrefs, fmap_replicate.
  split; [by rewrite length_replicate|]. split; [eauto|].
  intros Hnone. rewrite (Hstore Hnone). by rewrite lookup_singleton_eq.
Qed.

(** On the two vectors queried against themselves with [k = 1] and
    [min_score = 0.5]: as written, the first candidate that passes raises
    [AttributeError]; with [curr_db] bound by hand, both positions hold
    both candidates. *)
Lemma query_rows_share_one_mapping_witness :
  Query Q qlt unit self_search as_written two_vectors 1 (1 # 2) false
    = Raise AttributeError ∧
  ∃ r, Query Q qlt unit self_search with_curr_db two_vectors 1 (1 # 2) false = Ok r ∧
       mappings Q r = [ {["a" := 1%Q; "b" := 1%Q]}; {["a" := 1%Q; "b" := 1%Q]} ] ∧
       ∃ m, mappings Q r = replicate 2 m.
Proof.
  split; [vm_compute; reflexivity|].
  eexists. split; [vm_compute; reflexivity|].
  split.
  - vm_compute. reflexivity.
  - eapply (query_rows_share_one_mapping Q qlt unit self_search with_curr_db
              two_vectors 1 (1 # 2) false).
    vm_compute. reflexivity.
Defined.

(** ** The command line *)

Section CommandLine.

Variable F : Type.
Variable to_int : string → option Z.
Variable to_float : string → option F.
Variable is_level : string → bool.
Variable one_half : F.

Local Abbreviation parse := (FaissCli.parse F to_int to_float).
Local Abbreviation main := (FaissCli.main F to_int to_float is_level one_half).
Local Abbreviation mismatched := (mismatched F).

Lemma silent_nil : silent [].
Proof. intros s. apply not_elem_of_nil. Qed.

Lemma silent_app evs1 evs2 : silent evs1 → silent evs2 → silent (evs1 ++ evs2).
Proof. intros H1 H2 s [?|?]%elem_of_app; [by eapply H1|by eapply H2]. Qed.

Lemma silent_cons_log r evs : silent evs → silent (Log r :: evs).
Proof. intros H s [?|?]%elem_of_cons; [done|by eapply H]. Qed.

Lemma silent_cons_stderr t evs : silent evs → silent (Stderr t :: evs).
Proof. intros H s [?|?]%elem_of_cons; [done|by eapply H]. Qed.

Lemma parse_silent name n : ∀ argv o,
  (length argv ≤ n)%nat → silent (parse name argv o).1.
Proof.
  induction n as [|n IH]; intros argv o Hlen.
  - destruct argv; [apply silent_nil|simpl in Hlen; lia].
  - destruct argv as [|tok rest]; [apply silent_nil|]. simpl in Hlen.
    assert (Hrest : ∀ o', silent (parse name rest o').1) by (intros; apply IH; lia).
    simpl. repeat case_match; simpl; subst;
      try apply Hrest; try (apply IH; simpl in *; lia);
      repeat (apply silent_cons_stderr); apply silent_nil.
Qed.

(** A command line that parses emits nothing while it is parsed. *)
Lemma parse_ok_quiet name n : ∀ argv o ev o',
  (length argv ≤ n)%nat → parse name argv o = (ev, Ok o') → ev = [].
Proof.
  induction n as [|n IH]; intros argv o ev o' Hlen.
  - destruct argv; [by intros [= <- _]|simpl in Hlen; lia].
  - destruct argv as [|tok rest]; [by intros [= <- _]|]. simpl in Hlen.
    assert (Hrest : ∀ o1, parse name rest o1 = (ev, Ok o') → ev = [])
      by (intros o1; apply IH; lia).
    simpl. repeat case_match; simpl; subst;
      try apply Hrest; try (apply IH; simpl in *; lia); done.
Qed.

Lemma create_logger_events logfile loglevel :
  is_level loglevel = true →
  ∃ r, create_logger is_level logfile loglevel = ([Log r], Ok ()) ∧ severity r = INFO.
Proof.
  intros Hl. unfold create_logger. rewrite Hl. simpl.
  destruct logfile as [f|]; [destruct (String.eqb f "stderr")|]; eauto.
Qed.

Lemma create_logger_silent logfile loglevel :
  silent (create_logger is_level logfile loglevel).1.
Proof.
  unfold create_logger. repeat case_match; simpl; apply silent_cons_log, silent_nil.
Qed.

Lemma validate_ok o ev o' :
  validate F o = (ev, Ok o') → ev = [] ∧ fdb F o' ≠ [].
Proof.
  unfold validate.
  destruct (Z.eqb_spec (len (fdb F o)) 0) as [|Hdb]; [done|].
  destruct (len (fquery F o) =? 0); [done|].
  repeat case_match; try done; intros [= <- <-]; (split; [done|]);
    unfold set_fdb_str, set_fquery_str; simpl;
    intros Hnil; rewrite Hnil in Hdb; done.
Qed.

Lemma validate_silent o : silent (validate F o).1.
Proof.
  unfold validate. repeat case_match; simpl;
    try apply silent_nil; apply silent_cons_log, silent_nil.
Qed.

Lemma len_zero {A} (l : list A) : len l = 0 ↔ l = [].
Proof. unfold len. destruct l; simpl; split; intros; try done; lia. Qed.

Lemma len_eq {A B} (l : list A) (k : list B) : len l = len k ↔ length l = length k.
Proof. unfold len. lia. Qed.

Lemma validate_mismatched o :
  mismatched o →
  ∃ msg, validate F o = ([Log (LogRecord ERROR msg [])], Raise SystemExit) ∧
         msg ∈ check_messages.
Proof.
  intros Hm. unfold validate, fatal, check_messages.
  repeat case_match; simpl in *;
    try (eexists; split; [reflexivity|set_solver]);
    exfalso; subst;
    rewrite ?negb_false_iff in *;
    repeat match goal with
           | H : (_ =? _) = true |- _ => apply Z.eqb_eq in H
           | H : (_ =? _) = false |- _ => apply Z.eqb_neq in H
           end;
    rewrite ?len_zero, ?len_eq in *; simpl in *;
    destruct Hm as [?|[?|[[? ?]|[? ?]]]]; congruence.
Qed.

End CommandLine.




(** ** Checkpoints *)

Section StringOrder.

Lemma ascii_compare_refl a : Ascii.compare a a = Eq.
Proof. unfold Ascii.compare. apply N.compare_refl. Qed.

Lemma string_compare_app p s1 s2 :
  String.compare (p +:+ s1) (p +:+ s2) = String.compare s1 s2.
Proof. induction p as [|a p IH]; simpl; [done|]. by rewrite ascii_compare_refl. Qed.

Lemma string_leb_app p s1 s2 : String.leb (p +:+ s1) (p +:+ s2) = String.leb s1 s2.
Proof. unfold String.leb. by rewrite string_compare_app. Qed.

Lemma string_app_inj p s1 s2 : p +:+ s1 = p +:+ s2 → s1 = s2.
Proof. induction p as [|a p IH]; simpl; [done|]. intros [= H]. by apply IH. Qed.

Lemma ascii_compare_trans a b c r :
  Ascii.compare a b = r → Ascii.compare b c = r → Ascii.compare a c = r.
Proof.
  unfold Ascii.compare. destruct r.
  - rewrite !N.compare_eq_iff. congruence.
  - rewrite !N.compare_lt_iff. lia.
  - rewrite !N.compare_gt_iff. lia.
Qed.

Lemma string_compare_trans s1 : ∀ s2 s3 r,
  String.compare s1 s2 = r → String.compare s2 s3 = r → String.compare s1 s3 = r.
Proof.
  induction s1 as [|a s1 IH]; intros [|b s2] [|c s3] r; simpl; try congruence.
  destruct (Ascii.compare a b) eqn:Hab, (Ascii.compare b c) eqn:Hbc;
    try (apply Ascii.compare_eq_iff in Hab; subst b);
    try (apply Ascii.compare_eq_iff in Hbc; subst c);
    rewrite ?ascii_compare_refl, ?Hab, ?Hbc; try congruence.
  - apply IH.
  - rewrite (ascii_compare_trans _ _ _ _ Hab Hbc). congruence.
  - rewrite (ascii_compare_trans _ _ _ _ Hab Hbc). congruence.
Qed.

#[local] Instance str_le_trans : Transitive str_le.
Proof.
  intros s1 s2 s3. unfold str_le, String.leb.
  destruct (String.compare s1 s2) eqn:H12; [|intros _|done].
  - apply String.compare_eq_iff in H12. by subst s2.
  - destruct (String.compare s2 s3) eqn:H23; [|intros _|done].
    + apply String.compare_eq_iff in H23. subst s3. by rewrite H12.
    + by rewrite (string_compare_trans _ _ _ _ H12 H23).
Qed.

#[local] Instance str_le_antisym : AntiSymm (=) str_le.
Proof. intros s1 s2 H1 H2. by apply String.leb_antisym. Qed.

Lemma insert_sorted_le x l :
  StronglySorted str_le l → StronglySorted str_le (insert_sorted String.leb x l).
Proof.
  induction 1 as [|y l Hs IH Hf]; simpl; [repeat constructor|].
  destruct (String.leb x y) eqn:Hxy.
  - constructor; [by constructor|]. constructor; [done|].
    eapply Forall_impl; [exact Hf|]. intros z Hz. by trans y.
  - constructor; [done|]. apply Forall_forall. intros z Hz.
    rewrite insert_sorted_perm in Hz. apply elem_of_cons in Hz as [->|Hz].
    + destruct (String.leb_total x y) as [H|H]; [congruence|done].
    + rewrite Forall_forall in Hf. by apply Hf.
Qed.

Lemma sorted_le l : StronglySorted str_le (sorted String.leb l).
Proof. induction l as [|x l IH]; simpl; [constructor|]. by apply insert_sorted_le. Qed.

(** A sorted list without repetition is the sorted form of any list
    with the same members. *)
Lemma sorted_unique l k :
  NoDup l → NoDup k → StronglySorted str_le k → (∀ x, x ∈ l ↔ x ∈ k) →
  sorted String.leb l = k.
Proof.
  intros Hl Hk Hs Hmem. apply (StronglySorted_unique str_le); [apply sorted_le|done|].
  rewrite sorted_perm. by apply NoDup_Permutation.
Qed.

End StringOrder.

Section CheckpointFiles.

Variables M O : Type.
Variable pattern : string.

Local Abbreviation disk_t := (gmap string (checkpoint M O)).
Local Abbreviation files := (ckpt_files M O pattern).
Local Abbreviation on_disk := (on_disk M O pattern).
Local Abbreviation ckpt_name := (ckpt_name pattern).

Lemma elem_of_files disk f : f ∈ files disk ↔ on_disk disk f.
Proof.
  unfold ckpt_files, on_disk. rewrite sorted_perm, list_elem_of_filter.
  rewrite list_elem_of_fmap. split.
  - intros [Hc ([g c] & -> & Hin%elem_of_map_to_list)]. eauto.
  - intros [[c Hc] Hk]. split; [done|]. exists (f, c). split; [done|].
    by apply elem_of_map_to_list.
Qed.

Lemma files_nodup disk : NoDup (files disk).
Proof.
  unfold ckpt_files. rewrite sorted_perm. apply NoDup_filter, NoDup_fst_map_to_list.
Qed.

Lemma files_sorted disk : StronglySorted str_le (files disk).
Proof. apply sorted_le. Qed.

Lemma files_unique disk ks :
  NoDup ks → StronglySorted str_le ks → (∀ f, f ∈ ks ↔ on_disk disk f) → files disk = ks.
Proof.
  intros Hk Hs Hmem. unfold ckpt_files. apply sorted_unique; [|done..|].
  - apply NoDup_filter, NoDup_fst_map_to_list.
  - intros f. rewrite Hmem, <- elem_of_files. unfold ckpt_files. by rewrite sorted_perm.
Qed.

(** Writing a checkpoint adds its name, in order, unless it was there. *)
Lemma files_insert disk f c :
  is_ckpt pattern f = true →
  files (<[f := c]> disk) =
    if decide (f ∈ files disk) then files disk
    else insert_sorted String.leb f (files disk).
Proof.
  intros Hf. apply files_unique.
  - case_decide; [apply files_nodup|]. rewrite insert_sorted_perm.
    apply NoDup_cons. split; [done|apply files_nodup].
  - case_decide; [apply files_sorted|]. apply insert_sorted_le, files_sorted.
  - intros g. unfold on_disk at 1. rewrite lookup_insert_is_Some'.
    case_decide as Hin.
    + rewrite elem_of_files. unfold on_disk. split.
      * intros [Hs Hc]. split; [by right|done].
      * intros [[<-|Hs] Hc]; [|done]. by apply elem_of_files in Hin.
    + rewrite insert_sorted_perm, elem_of_cons, elem_of_files. unfold on_disk. split.
      * intros [->|[Hs Hc]]; (split; [|done]); [by left|by right].
      * intros [[<-|Hs] Hc]; [by left|by right].
Qed.

(** Removing the first checkpoint leaves the others. *)
Lemma files_delete_head disk f ks :
  files disk = f :: ks → files (delete f disk) = ks.
Proof.
  intros Hfiles.
  pose proof (files_nodup disk) as Hnd. pose proof (files_sorted disk) as Hs.
  rewrite Hfiles in Hnd, Hs. apply NoDup_cons in Hnd as [Hf Hnd].
  apply StronglySorted_inv in Hs as [Hs _].
  apply files_unique; [done..|]. intros g. unfold on_disk.
  rewrite lookup_delete_is_Some.
  pose proof (elem_of_files disk g) as Hg. rewrite Hfiles, elem_of_cons in Hg.
  unfold on_disk in Hg. split.
  - intros Hin. destruct Hg as [Hg _]. destruct Hg as [Hd Hc]; [by right|].
    split; [|done]. split; [|done]. intros <-. done.
  - intros [[Hne Hd] Hc]. destruct Hg as [_ Hg]. destruct Hg as [->|]; done.
Qed.

Lemma remove_oldest_files keep : ∀ ks disk,
  files disk = ks →
  files (remove_oldest M O keep ks disk) = drop (Z.to_nat (len ks - keep)) ks.
Proof.
  induction ks as [|f ks IH]; intros disk Hfiles; simpl.
  { rewrite Hfiles. by destruct (Z.to_nat _). }
  destruct (Z.ltb_spec keep (len (f :: ks))) as [Hlt|Hge].
  - rewrite (IH (delete f disk)) by (by apply files_delete_head).
    unfold len in *. simpl in *.
    replace (Z.to_nat (Z.of_nat (S (length ks)) - keep))
      with (S (Z.to_nat (Z.of_nat (length ks) - keep))) by lia.
    done.
  - replace (Z.to_nat (len (f :: ks) - keep)) with 0%nat by lia. done.
Qed.

Lemma remove_oldest_lookup keep g : ∀ ks disk,
  g ∉ take (Z.to_nat (len ks - keep)) ks →
  remove_oldest M O keep ks disk !! g = disk !! g.
Proof.
  induction ks as [|f ks IH]; intros disk Hg; simpl; [done|].
  destruct (Z.ltb_spec keep (len (f :: ks))) as [Hlt|Hge]; [|done].
  unfold len in *. simpl in *.
  replace (Z.to_nat (Z.of_nat (S (length ks)) - keep))
    with (S (Z.to_nat (Z.of_nat (length ks) - keep))) in Hg by lia.
  simpl in Hg. apply not_elem_of_cons in Hg as [Hne Hg].
  rewrite IH by done. by rewrite lookup_delete_ne.
Qed.

Lemma strip_prefix_app p q s : strip_prefix (p +:+ q) (p +:+ s) = strip_prefix q s.
Proof. induction p as [|a p IH]; simpl; [done|]. by rewrite Ascii.eqb_refl. Qed.

Lemma is_ckpt_app rest :
  is_ckpt pattern (pattern +:+ ".model." +:+ rest) = is_ckpt "" (".model." +:+ rest).
Proof. unfold is_ckpt. by rewrite strip_prefix_app. Qed.

(** The files after a save, from the files before it. *)
Lemma save_files model1 optimizer1 steps keep disk :
  is_ckpt pattern (ckpt_name steps) = true →
  let written :=
    if decide (ckpt_name steps ∈ files disk) then files disk
    else insert_sorted String.leb (ckpt_name steps) (files disk) in
  files (save_model_optim M O pattern model1 optimizer1 steps keep disk) =
    drop (Z.to_nat (len written - keep)) written.
Proof.
  intros Hc written. unfold save_model_optim. fold (ckpt_name steps).
  rewrite (files_insert _ _ _ Hc). fold written.
  apply remove_oldest_files. by apply files_insert.
Qed.

Lemma save_lookup model1 optimizer1 steps keep disk :
  is_ckpt pattern (ckpt_name steps) = true →
  let written :=
    if decide (ckpt_name steps ∈ files disk) then files disk
    else insert_sorted String.leb (ckpt_name steps) (files disk) in
  ckpt_name steps ∉ take (Z.to_nat (len written - keep)) written →
  save_model_optim M O pattern model1 optimizer1 steps keep disk !! ckpt_name steps
    = Some (mkCheckpoint M O steps optimizer1 model1).
Proof.
  intros Hc written Hkept. unfold save_model_optim. fold (ckpt_name steps).
  rewrite (files_insert _ _ _ Hc). fold written.
  rewrite remove_oldest_lookup by done. apply lookup_insert_eq.
Qed.

End CheckpointFiles.

Section FiveSaves.

Variables M O : Type.
Variable pattern : string.
Variable model_at : Z → M.
Variable optimizer_at : Z → O.

Local Abbreviation name := (ckpt_name pattern).
Local Abbreviation files_of := (ckpt_files M O pattern).
Local Abbreviation save3 := (save3 M O pattern model_at optimizer_at).

Ltac name_facts :=
  unfold ckpt_name;
  first [ rewrite is_ckpt_app; vm_compute; reflexivity
        | rewrite string_leb_app; vm_compute; reflexivity
        | let H := fresh in intros H%string_app_inj; vm_compute in H; discriminate ].

Lemma name_is_ckpt i : 1 ≤ i ≤ 5 → is_ckpt pattern (name i) = true.
Proof.
  intros H. assert (Hi : i = 1 ∨ i = 2 ∨ i = 3 ∨ i = 4 ∨ i = 5) by lia.
  destruct Hi as [->|[->|[->|[->| ->]]]]; name_facts.
Qed.

Lemma name_later i j :
  1 ≤ j < i → i ≤ 5 → String.leb (name i) (name j) = false ∧ name i ≠ name j.
Proof.
  intros H H5.
  assert (Hi : i = 2 ∨ i = 3 ∨ i = 4 ∨ i = 5) by lia.
  assert (Hj : j = 1 ∨ j = 2 ∨ j = 3 ∨ j = 4) by lia.
  destruct Hi as [->|[->|[->| ->]]], Hj as [->|[->|[->| ->]]];
    try lia; split; name_facts.
Qed.

(** Inserting a later name into a list of earlier ones puts it last. *)
Lemma insert_later i js :
  i ≤ 5 → Forall (fun j => 1 ≤ j < i) js →
  ¬ (name i ∈ name <$> js) ∧
  insert_sorted String.leb (name i) (name <$> js) = name <$> (js ++ [i]).
Proof.
  intros H5. induction 1 as [|j js Hj Hjs [IH1 IH2]].
  - split; [apply not_elem_of_nil|done].
  - destruct (name_later i j Hj H5) as [Hleb Hne]. rewrite !fmap_cons. split.
    + by apply not_elem_of_cons.
    + cbn [insert_sorted]. rewrite Hleb. by rewrite IH2.
Qed.

Lemma save3_spec disk i js :
  1 ≤ i ≤ 5 → files_of disk = name <$> js → Forall (fun j => 1 ≤ j < i) js →
  files_of (save3 disk i) = name <$> keep3 (js ++ [i]) ∧
  save3 disk i !! name i = Some (mkCheckpoint M O i (optimizer_at i) (model_at i)).
Proof.
  intros Hi Hfiles Hjs.
  destruct (insert_later i js ltac:(lia) Hjs) as [Hnew Hins].
  pose proof (name_is_ckpt i Hi) as Hc. split.
  - unfold save3. rewrite (save_files M O pattern _ _ _ _ _ Hc). rewrite Hfiles.
    rewrite decide_False by done. rewrite Hins.
    unfold keep3, len. by rewrite fmap_drop, length_fmap.
  - unfold save3. apply (save_lookup M O pattern _ _ _ _ _ Hc). rewrite Hfiles.
    rewrite decide_False by done. rewrite Hins.
    unfold len. rewrite length_fmap, length_app. simpl.
    replace (Z.to_nat (Z.of_nat (length js + 1) - 3)) with (length js - 2)%nat by lia.
    rewrite <- fmap_take, take_app_le by lia.
    intros (j & Heq & Hj%elem_of_take)%list_elem_of_fmap.
    destruct Hj as (n & Hn & _). apply list_elem_of_lookup_2 in Hn.
    rewrite Forall_forall in Hjs. specialize (Hjs j Hn).
    destruct (name_later i j Hjs ltac:(lia)) as [_ Hne]. done.
Qed.

Lemma load_newest model0 optimizer0 disk js i ckpt :
  files_of disk = name <$> (js ++ [i]) → disk !! name i = Some ckpt →
  load_model_optim M O pattern model0 optimizer0 disk =
    Ok (n_steps M O ckpt, model M O ckpt, optimizer M O ckpt).
Proof.
  intros Hfiles Hckpt. unfold load_model_optim. rewrite Hfiles.
  assert (Hlen : (len (name <$> (js ++ [i])) =? 0) = false).
  { apply Z.eqb_neq. unfold len. rewrite length_fmap, length_app. simpl. lia. }
  rewrite Hlen. simpl.
  assert (Hlast : getitem_list (name <$> (js ++ [i])) (-1) = Ok (name i)).
  { unfold getitem_list, len. rewrite length_fmap, length_app. simpl.
    destruct (Z.ltb_spec (Z.of_nat (length js + 1) + -1) 0) as [|_]; [lia|].
    replace (Z.to_nat (Z.of_nat (length js + 1) + -1)) with (length js) by lia.
    by rewrite list_lookup_fmap, lookup_app_r, Nat.sub_diag. }
  rewrite Hlast. simpl. by rewrite Hckpt.
Qed.

Lemma load_none model0 optimizer0 disk :
  files_of disk = [] →
  load_model_optim M O pattern model0 optimizer0 disk = Ok (0, model0, optimizer0).
Proof. intros Hfiles. unfold load_model_optim. by rewrite Hfiles. Qed.

End FiveSaves.

(** C6.  For a literal [pattern] and a disk with no checkpoint of it,
    saving at steps 1 to 5 with [keep_last_n = 3] leaves the checkpoints
    of steps 3, 4 and 5 and no other; loading then returns step count 5
    with the model and optimizer states saved at step 5; loading from the
    disk as it was returns step count 0 and the model and optimizer it
    was given. *)
Theorem checkpoint_rotation
    (M O : Type) (pattern : string) (model_at : Z → M) (optimizer_at : Z → O)
    (model0 : M) (optimizer0 : O) (disk : gmap string (checkpoint M O)) :
  literal pattern = true →
  ckpt_files M O pattern disk = [] →
  let disk5 := foldl (save3 M O pattern model_at optimizer_at) disk [1; 2; 3; 4; 5] in
  ckpt_files M O pattern disk5 = ckpt_name pattern <$> [3; 4; 5] ∧
  Forall (fun f => is_Some (disk5 !! f)) (ckpt_name pattern <$> [3; 4; 5]) ∧
  load_model_optim M O pattern model0 optimizer0 disk5 = Ok (5, model_at 5, optimizer_at 5) ∧
  load_model_optim M O pattern model0 optimizer0 disk = Ok (0, model0, optimizer0).
Proof.
  intros _ H0. simpl.
  set (save := save3 M O pattern model_at optimizer_at).
  assert (Hstep : ∀ d i js, 1 ≤ i ≤ 5 →
            ckpt_files M O pattern d = ckpt_name pattern <$> js →
            Forall (fun j => 1 ≤ j < i) js →
            ckpt_files M O pattern (save d i) = ckpt_name pattern <$> keep3 (js ++ [i]) ∧
            save d i !! ckpt_name pattern i =
              Some (mkCheckpoint M O i (optimizer_at i) (model_at i)))
    by (intros; by apply save3_spec).
  destruct (Hstep disk 1 [] ltac:(lia) H0 ltac:(constructor)) as [H1 _].
  destruct (Hstep _ 2 _ ltac:(lia) H1 ltac:(repeat constructor; lia)) as [H2 _].
  destruct (Hstep _ 3 _ ltac:(lia) H2 ltac:(repeat constructor; lia)) as [H3 _].
  destruct (Hstep _ 4 _ ltac:(lia) H3 ltac:(repeat constructor; lia)) as [H4 _].
  destruct (Hstep _ 5 _ ltac:(lia) H4 ltac:(repeat constructor; lia)) as [H5 L5].
  split; [exact H5|]. split; [|split].
  - apply Forall_forall. intros f Hf.
    apply (elem_of_files M O pattern). by rewrite H5.
  - by rewrite (load_newest M O pattern model0 optimizer0 _ [3; 4] 5 _ H5 L5).
  - by apply load_none.
Qed.

(** Five saves under the pattern ["w2v"] on a disk that holds one other
    file. *)
Lemma checkpoint_rotation_witness :
  ckpt_files Z Z "w2v" five_saves =
    ["w2v.model.000000003.pth"; "w2v.model.000000004.pth"; "w2v.model.000000005.pth"] ∧
  load_model_optim Z Z "w2v" 7 8 five_saves = Ok (5, 105, 205) ∧
  load_model_optim Z Z "w2v" 7 8 other_disk = Ok (0, 7, 8).
Proof.
  destruct (checkpoint_rotation Z Z "w2v" (fun i => 100 + i) (fun i => 200 + i) 7 8 other_disk)
    as (Hfiles & _ & Hload & Hnone).
  - reflexivity.
  - vm_compute. reflexivity.
  - split; [exact Hfiles|]. split; [exact Hload|exact Hnone].
Defined.

(** * Further properties of the code *)

(** ** White-space tokens *)

Section WhitespaceTokens.

Lemma split_ws_from_spec s : ∀ cur,
  Forall visible cur →
  Forall (fun t => t ≠ "" ∧ Forall visible (list_ascii_of_string t)) (split_ws_from cur s) ∧
  concat (list_ascii_of_string <$> split_ws_from cur s) = rev cur ++ filter visible s.
Proof.
  assert (Hflush : ∀ cur rest,
    Forall visible cur →
    Forall (fun t => t ≠ "" ∧ Forall visible (list_ascii_of_string t)) rest →
    let toks := match cur with [] => rest | _ => string_of_list_ascii (rev cur) :: rest end in
    Forall (fun t => t ≠ "" ∧ Forall visible (list_ascii_of_string t)) toks ∧
    concat (list_ascii_of_string <$> toks) =
      rev cur ++ concat (list_ascii_of_string <$> rest)).
  { intros [|c cur] rest Hcur Hrest; [done|]. cbv zeta. split.
    - constructor; [|done]. split.
      + intros H%(f_equal list_ascii_of_string).
        rewrite list_ascii_of_string_of_list_ascii in H. simpl in H.
        by destruct (rev cur).
      + rewrite list_ascii_of_string_of_list_ascii.
        apply Forall_forall. intros x Hx%list_elem_of_In%in_rev%list_elem_of_In.
        rewrite Forall_forall in Hcur. by apply Hcur.
    - rewrite fmap_cons. simpl concat. by rewrite list_ascii_of_string_of_list_ascii. }
  induction s as [|c s IH]; intros cur Hcur.
  - cbn [split_ws_from]. destruct (Hflush cur [] Hcur ltac:(constructor)) as [H1 H2].
    split; [exact H1|]. rewrite H2. done.
  - cbn [split_ws_from]. destruct (isspace c) eqn:Hc.
    + destruct (IH [] ltac:(constructor)) as [H1 H2].
      destruct (Hflush cur _ Hcur H1) as [H3 H4].
      split; [exact H3|]. rewrite H4, H2. simpl.
      rewrite filter_cons_False; [done|]. unfold visible. by rewrite Hc.
    + destruct (IH (c :: cur)) as [H1 H2]; [by constructor|].
      split; [exact H1|]. rewrite H2. simpl.
      rewrite filter_cons_True by done. by rewrite <- app_assoc.
Qed.

End WhitespaceTokens.

(** X1.  With no [pyonmttok] tokenizer, [tokenize] returns tokens that are
    never empty and hold no white space, and that, read one after the
    other, are the text with its white space taken out. *)
Theorem whitespace_tokens_hold_the_visible_text (text : string) :
  let toks := tokenize (mkTokenizer None) text in
  Forall (fun t => t ≠ "" ∧ Forall visible (list_ascii_of_string t)) toks ∧
  concat (list_ascii_of_string <$> toks) = filter visible (list_ascii_of_string text).
Proof.
  unfold tokenize. simpl. unfold split_ws.
  destruct (split_ws_from_spec (list_ascii_of_string text) [] ltac:(constructor))
    as [H1 H2].
  split; [exact H1|exact H2].
Qed.

(** ** Reading a vocabulary file *)

Lemma listed_init : listed [] Vocab_init.
Proof.
  split; simpl.
  - constructor.
  - done.
  - intros t i. rewrite lookup_empty. split; [done|]. by intros [_ ?].
  - done.
  - by intros i j a b _ ?.
Qed.

Lemma listed_read_line s v l :
  listed s v → listed (s ++ [strip_sp_nl l]) (read_line v l).
Proof.
  intros [Hnd Hsz Ht He Ho]. unfold read_line.
  set (tok := strip_sp_nl l).
  assert (Hin : is_Some (tok_to_idx v !! tok) ↔ tok ∈ idx_to_tok v).
  { split.
    - intros [i Hi]. apply Ht in Hi as [_ Hi]. by eapply list_elem_of_lookup_2.
    - intros [i Hi]%list_elem_of_lookup. exists (Z.of_nat i). apply Ht.
      split; [lia|]. by rewrite Nat2Z.id. }
  case_bool_decide as Hk.
  - apply Hin in Hk. split; try done.
    + intros t. rewrite He, elem_of_app, list_elem_of_singleton.
      split; [by left|]. intros [?| ->]; [done|by apply He].
    + intros i j a b Hij Ha Hb. apply met_before_app_l. by apply (Ho i j).
  - rewrite Hin in Hk. split; simpl.
    + apply NoDup_app. split; [done|]. split; [|apply NoDup_singleton].
      intros x Hx Hx'%list_elem_of_singleton. by subst x.
    + rewrite map_size_insert_None, length_app; [simpl; lia|].
      apply eq_None_not_Some. by rewrite Hin.
    + intros t i. rewrite Hsz. rewrite lookup_insert. case_decide as Heq.
      * subst t. split.
        -- intros [= <-]. split; [lia|]. rewrite Nat2Z.id.
           by rewrite lookup_app_r, Nat.sub_diag.
        -- intros [Hi Hl]. f_equal.
           destruct (decide (Z.to_nat i < length (idx_to_tok v))%nat) as [Hlt|Hge].
           ++ rewrite lookup_app_l in Hl by done. exfalso. apply Hk.
              by eapply list_elem_of_lookup_2.
           ++ apply lookup_lt_Some in Hl. rewrite length_app in Hl. simpl in Hl. lia.
      * rewrite Ht. split; intros [Hi Hl]; (split; [done|]).
        -- rewrite lookup_app_l; [done|]. by eapply lookup_lt_Some.
        -- destruct (decide (Z.to_nat i < length (idx_to_tok v))%nat) as [Hlt|Hge].
           ++ by rewrite lookup_app_l in Hl.
           ++ rewrite lookup_app_r in Hl by lia.
              apply list_lookup_singleton_Some in Hl as [_ Hl]. congruence.
    + intros t. by rewrite !elem_of_app, He.
    + intros i j a b Hij Ha Hb.
      assert (Hi : (i < length (idx_to_tok v))%nat).
      { apply lookup_lt_Some in Hb. rewrite length_app in Hb. simpl in Hb. lia. }
      rewrite lookup_app_l in Ha by done.
      destruct (decide (j < length (idx_to_tok v))%nat) as [Hj|Hj].
      * rewrite lookup_app_l in Hb by done.
        apply met_before_app_l. by apply (Ho i j).
      * rewrite lookup_app_r in Hb by lia.
        apply list_lookup_singleton_Some in Hb as [_ <-].
        destruct (first_index_elem a s) as [pa Hpa].
        { apply He. by eapply list_elem_of_lookup_2. }
        exists pa, (length s). rewrite (first_index_app_l _ _ _ _ Hpa).
        rewrite first_index_snoc_new by (by rewrite <- He).
        split; [done|]. split; [done|]. by eapply first_index_lt.
Qed.

Lemma listed_read lines : ∀ s v,
  listed s v → listed (s ++ (strip_sp_nl <$> lines)) (read v lines).
Proof.
  induction lines as [|l lines IH]; intros s v Hl.
  - simpl. by rewrite app_nil_r.
  - rewrite fmap_cons, (cons_middle _ s), app_assoc.
    change (read v (l :: lines)) with (read (read_line v l) lines).
    apply IH. by apply listed_read_line.
Qed.

(** X2.  [Vocab().read(file)] lists every distinct stripped line of the
    file once, in the order in which the lines first occur, and [vocab[tok]]
    is the position of [tok] in that list. *)
Theorem vocab_read_lists_distinct_entries (lines : list string) :
  let v := read Vocab_init lines in
  let s := strip_sp_nl <$> lines in
  NoDup (idx_to_tok v) ∧
  (∀ t, t ∈ idx_to_tok v ↔ t ∈ s) ∧
  (∀ i j a b, (i < j)%nat →
     idx_to_tok v !! i = Some a → idx_to_tok v !! j = Some b → met_before a b s) ∧
  (∀ t i, idx_to_tok v !! i = Some t ↔ getitem v (VStr t) = Ok (VInt (Z.of_nat i)) ∧ contains v (VStr t) = true).
Proof.
  intros v s.
  destruct (listed_read lines [] Vocab_init listed_init) as [Hnd Hsz Ht He Ho].
  fold v in Hnd, Hsz, Ht, He, Ho. simpl in He, Ho. fold s in He, Ho.
  split; [done|]. split; [done|]. split; [done|].
  intros t i. unfold getitem, contains. split.
  - intros Hi. assert (Hl : tok_to_idx v !! t = Some (Z.of_nat i)).
    { apply Ht. split; [lia|]. by rewrite Nat2Z.id. }
    rewrite Hl. rewrite bool_decide_true by done. done.
  - intros [Hg Hc]. apply bool_decide_eq_true in Hc as [k Hk].
    rewrite Hk in Hg. rewrite bool_decide_true in Hg by done. simpl in Hg.
    injection Hg as ->. apply Ht in Hk as [_ Hk]. by rewrite Nat2Z.id in Hk.
Qed.

(** ** Writing a vocabulary file and reading it back *)

Ltac app_step := cbv beta iota delta [String.append]; fold String.append.

Section VocabFile.

Lemma string_app_assoc (a b c : string) : (a +:+ b) +:+ c = a +:+ b +:+ c.
Proof. induction a as [|x a IH]; [done|]. app_step. by rewrite IH. Qed.

Lemma list_ascii_of_string_app (a b : string) :
  list_ascii_of_string (a +:+ b) = list_ascii_of_string a ++ list_ascii_of_string b.
Proof. induction a as [|x a IH]; [done|]. app_step. simpl. by rewrite IH. Qed.

Lemma dump_text toks : ∀ acc,
  foldl (fun text tok => text +:+ (tok +:+ newline)) acc toks =
    acc +:+ foldr (fun tok s => tok +:+ newline +:+ s) "" toks.
Proof.
  induction toks as [|t toks IH]; intros acc; simpl.
  - clear. induction acc as [|x acc IH]; [done|]. app_step. by rewrite <- IH.
  - by rewrite IH, !string_app_assoc.
Qed.

Lemma file_lines_line t rest :
  newline_free t → file_lines (t +:+ newline +:+ rest) = (t +:+ newline) :: file_lines rest.
Proof.
  unfold newline_free. induction t as [|c t IH]; intros Hn; [done|].
  app_step. simpl in Hn |- *.
  apply not_elem_of_cons in Hn as [Hc Hn].
  destruct (Ascii.eqb_spec c "010"%char) as [->|_]; [done|].
  by rewrite (IH Hn).
Qed.

Lemma file_lines_dump toks :
  Forall newline_free toks →
  file_lines (foldr (fun tok s => tok +:+ newline +:+ s) "" toks) =
    (fun tok => tok +:+ newline) <$> toks.
Proof.
  induction 1 as [|t toks Ht _ IH]; [done|].
  simpl. rewrite file_lines_line by done. by rewrite IH.
Qed.

Lemma lstrip_by_length p s : (length (lstrip_by p s) ≤ length s)%nat.
Proof. induction s as [|c s IH]; simpl; [done|]. destruct (p c); simpl; lia. Qed.

Lemma lstrip_by_fixed p s :
  length (lstrip_by p s) = length s → lstrip_by p s = s.
Proof.
  destruct s as [|c s]; simpl; [done|]. destruct (p c); [|done].
  pose proof (lstrip_by_length p s). lia.
Qed.

Lemma rstrip_by_length p s : (length (rstrip_by p s) ≤ length s)%nat.
Proof.
  unfold rstrip_by. rewrite length_rev.
  etrans; [apply lstrip_by_length|]. by rewrite length_rev.
Qed.

Lemma rstrip_by_snoc p s c : p c = true → rstrip_by p (s ++ [c]) = rstrip_by p s.
Proof. intros Hc. unfold rstrip_by. rewrite rev_app_distr. simpl. by rewrite Hc. Qed.

Lemma lstrip_by_head p c s : lstrip_by p (c :: s) = c :: s → p c = false.
Proof.
  simpl. destruct (p c); [|done]. intros H.
  pose proof (lstrip_by_length p s) as Hl. rewrite H in Hl. simpl in Hl. lia.
Qed.

Lemma strip_line t : strip_sp_nl t = t → strip_sp_nl (t +:+ newline) = t.
Proof.
  unfold strip_sp_nl.
  set (p := fun c => (nat_of_ascii c =? 32)%nat || (nat_of_ascii c =? 10)%nat).
  intros Ht. rewrite list_ascii_of_string_app.
  apply (f_equal list_ascii_of_string) in Ht.
  rewrite list_ascii_of_string_of_list_ascii in Ht.
  rewrite <- (string_of_list_ascii_of_string t) at 2.
  set (s := list_ascii_of_string t) in *. f_equal.
  assert (Hl : lstrip_by p s = s).
  { apply lstrip_by_fixed.
    pose proof (lstrip_by_length p s). pose proof (rstrip_by_length p (lstrip_by p s)).
    rewrite Ht in *. lia. }
  rewrite Hl in Ht.
  change (list_ascii_of_string newline) with ["010"%char].
  destruct s as [|c s]; [done|].
  pose proof (lstrip_by_head _ _ _ Hl) as Hc.
  change ((c :: s) ++ ["010"%char]) with (c :: (s ++ ["010"%char])).
  cbn [lstrip_by]. rewrite Hc.
  change (c :: (s ++ ["010"%char])) with ((c :: s) ++ ["010"%char]).
  by rewrite rstrip_by_snoc.
Qed.

Lemma read_fresh lines : ∀ v,
  NoDup (idx_to_tok v ++ (strip_sp_nl <$> lines)) →
  (∀ t, is_Some (tok_to_idx v !! t) → t ∈ idx_to_tok v) →
  idx_to_tok (read v lines) = idx_to_tok v ++ (strip_sp_nl <$> lines).
Proof.
  induction lines as [|l lines IH]; intros v Hnd Hk.
  - simpl. by rewrite app_nil_r.
  - change (read v (l :: lines)) with (read (read_line v l) lines).
    rewrite fmap_cons, (cons_middle _ (idx_to_tok v)), app_assoc in Hnd |- *.
    assert (Hnew : read_line v l =
              {| idx_unk := idx_unk v; str_unk := str_unk v;
                 tok_to_idx := <[strip_sp_nl l := Z.of_nat (size (tok_to_idx v))]> (tok_to_idx v);
                 idx_to_tok := idx_to_tok v ++ [strip_sp_nl l];
                 tok_to_frq := tok_to_frq v |}).
    { unfold read_line. rewrite bool_decide_false; [done|].
      intros Hin%Hk. apply NoDup_app in Hnd as [Hnd _].
      apply NoDup_app in Hnd as (_ & Hd & _). apply (Hd _ Hin).
      by apply list_elem_of_singleton. }
    rewrite IH; rewrite Hnew; simpl; [done|done|].
    intros t. rewrite lookup_insert. case_decide as Heq.
    + subst t. intros _. apply elem_of_app. right. by apply list_elem_of_singleton.
    + intros Hin%Hk. apply elem_of_app. by left.
Qed.

(** The lines of a dumped file, stripped, are the entries. *)
Lemma dumped_lines (v : Vocab) :
  Forall clean (idx_to_tok v) →
  strip_sp_nl <$> file_lines (dump v) = idx_to_tok v.
Proof.
  intros Hclean. unfold dump. rewrite dump_text. app_step.
  rewrite file_lines_dump by (eapply Forall_impl; [exact Hclean|by intros t [_ ?]]).
  rewrite <- list_fmap_compose.
  induction Hclean as [|t toks [Ht _] _ IH]; [done|].
  rewrite fmap_cons, IH. simpl. by rewrite strip_line.
Qed.

(** A token without white space is written and read back unchanged. *)
Lemma visible_clean (t : string) :
  Forall visible (list_ascii_of_string t) → clean t.
Proof.
  intros Hv. split.
  - unfold strip_sp_nl.
    set (p := fun c => (nat_of_ascii c =? 32)%nat || (nat_of_ascii c =? 10)%nat).
    assert (Hp : ∀ s, Forall visible s → lstrip_by p s = s).
    { intros [|c s] Hs; [done|]. apply Forall_cons in Hs as [Hc _]. simpl.
      destruct (p c) eqn:Hpc; [|done]. exfalso. unfold visible, isspace in Hc.
      unfold p in Hpc. apply orb_true_iff in Hpc as [H%Nat.eqb_eq|H%Nat.eqb_eq];
        rewrite H in Hc; discriminate. }
    rewrite (Hp _ Hv). unfold rstrip_by. rewrite Hp.
    + by rewrite rev_involutive, string_of_list_ascii_of_string.
    + apply Forall_forall. intros x Hx%list_elem_of_In%in_rev%list_elem_of_In.
      rewrite Forall_forall in Hv. by apply Hv.
  - unfold newline_free. intros Hin. rewrite Forall_forall in Hv.
    specialize (Hv _ Hin). discriminate.
Qed.

End VocabFile.



(** ** Indices of a vocabulary *)

Section VocabIndices.

Lemma build_loop_table min_freq max_size items : ∀ t2i i2t,
  NoDup items.*1 →
  ∃ keys, keys `prefix_of` items.*1 ∧
    (build_loop min_freq max_size items t2i i2t).2 = i2t ++ keys ∧
    (∀ j w, keys !! j = Some w →
       (build_loop min_freq max_size items t2i i2t).1 !! w = Some (len i2t + Z.of_nat j)) ∧
    (∀ w, w ∉ keys → (build_loop min_freq max_size items t2i i2t).1 !! w = t2i !! w).
Proof.
  induction items as [|[wrd frq] items IH]; intros t2i i2t Hnd.
  - exists []. simpl. rewrite app_nil_r. split; [done|]. split; [done|]. by split.
  - assert (Hstop : ∃ keys, keys `prefix_of` ((wrd, frq) :: items).*1 ∧
              (t2i, i2t).2 = i2t ++ keys ∧
              (∀ j w, keys !! j = Some w → (t2i, i2t).1 !! w = Some (len i2t + Z.of_nat j)) ∧
              (∀ w, w ∉ keys → (t2i, i2t).1 !! w = t2i !! w)).
    { exists []. simpl. rewrite app_nil_r. split; [apply prefix_nil|]. split; [done|]. by split. }
    cbn [build_loop].
    destruct (len i2t =? max_size); [exact Hstop|].
    destruct (frq <? min_freq); [exact Hstop|]. clear Hstop.
    rewrite fmap_cons in Hnd |- *. cbn [fst] in Hnd |- *.
    apply NoDup_cons in Hnd as [Hw Hnd].
    destruct (IH (<[wrd := len i2t]> t2i) (i2t ++ [wrd]) Hnd) as (keys & Hpre & H2 & Hin & Hout).
    exists (wrd :: keys). split; [by apply prefix_cons|].
    split; [by rewrite H2, <- app_assoc|].
    assert (Hwk : wrd ∉ keys).
    { intros Hk. apply Hw. destruct Hpre as [rest ->]. apply elem_of_app. by left. }
    split.
    + intros [|j] w Hl; simpl in Hl.
      * injection Hl as <-. rewrite (Hout _ Hwk), lookup_insert_eq. f_equal. lia.
      * rewrite (Hin _ _ Hl). f_equal. unfold len. rewrite length_app. simpl. lia.
    + intros w Hn. apply not_elem_of_cons in Hn as [Hne Hn].
      by rewrite (Hout _ Hn), lookup_insert_ne.
Qed.

Lemma sorted_desc_keys_nodup token files :
  NoDup (sorted_desc (count_tokens token files)).*1.
Proof.
  pose proof (count_tokens_counted token files) as [Hnd _ _ _].
  by rewrite sorted_desc_perm.
Qed.

Lemma sorted_desc_keys_stream token files w :
  w ∈ (sorted_desc (count_tokens token files)).*1 → w ∈ token_stream token files.
Proof.
  pose proof (count_tokens_counted token files) as [_ _ Hk _].
  intros Hw. apply Hk. by rewrite sorted_desc_perm in Hw.
Qed.

End VocabIndices.

(** X4.  [vocab[i]] for an int [i] returns the entry at [i] when
    [0 <= i < len(vocab)] and ends the program otherwise, for a negative
    [i] too: no index counts from the end and none raises [IndexError]. *)
Theorem vocab_index_out_of_range (v : Vocab) (i : Z) :
  (getitem v (VInt i) = Raise SystemExit ↔ i < 0 ∨ Vocab_len v ≤ i) ∧
  (∀ t, getitem v (VInt i) = Ok (VStr t) ↔
        0 ≤ i ∧ idx_to_tok v !! Z.to_nat i = Some t) ∧
  (∀ e, getitem v (VInt i) = Raise e → e = SystemExit).
Proof.
  unfold getitem, contains, Vocab_len, len.
  destruct (0 <=? i) eqn:H0; destruct (i <? Z.of_nat (length (idx_to_tok v))) eqn:H1; simpl.
  - apply Z.leb_le in H0. apply Z.ltb_lt in H1.
    destruct (lookup_lt_is_Some_2 (idx_to_tok v) (Z.to_nat i) ltac:(lia)) as [t Ht].
    rewrite Ht. split; [split; [done|lia]|]. split; [|done].
    intros t'. split; [by intros [= <-]|]. by intros [_ [= <-]].
  - apply Z.leb_le in H0. apply Z.ltb_ge in H1.
    split; [split; [lia|done]|]. split; [|by intros e [= <-]].
    intros t. split; [done|]. intros [_ Hl%lookup_lt_Some]. lia.
  - apply Z.leb_gt in H0.
    split; [split; [lia|done]|]. split; [|by intros e [= <-]].
    intros t. split; [done|]. lia.
  - apply Z.leb_gt in H0.
    split; [split; [lia|done]|]. split; [|by intros e [= <-]].
    intros t. split; [done|]. lia.
Qed.

(** X5.  After [Vocab().build(...)] the entries at the indices 1 and up
    are pairwise distinct and [vocab[vocab[i]] == i] for each of them;
    for index 0 this holds exactly when the string ["<unk>"] was not
    selected from the corpus, and the whole table is free of repeats when
    the corpus does not hold the token ["<unk>"]. *)
Theorem vocab_build_index_roundtrip
    (token : OpenNMTTokenizer) (files : list (list string)) (min_freq max_size : Z) :
  let v := build token Vocab_init files min_freq max_size in
  NoDup (drop 1 (idx_to_tok v)) ∧
  (∀ i, 1 ≤ i < Vocab_len v → getitem v (VInt i) ≫= getitem v = Ok (VInt i)) ∧
  (getitem v (VInt 0) ≫= getitem v = Ok (VInt 0) ↔ "<unk>" ∉ drop 1 (idx_to_tok v)) ∧
  ("<unk>" ∉ token_stream token files → NoDup (idx_to_tok v)).
Proof.
  intros v.
  destruct (build_fields token Vocab_init files min_freq max_size) as (Ht & Hi & _).
  fold v in Ht, Hi. simpl in Ht, Hi.
  destruct (build_loop_table min_freq max_size (sorted_desc (count_tokens token files))
              (<["<unk>" := 0]> ∅) ["<unk>"] (sorted_desc_keys_nodup token files))
    as (keys & Hpre & H2 & Hin & Hout).
  rewrite H2 in Hi. rewrite <- Ht in Hin, Hout. clear Ht H2. simpl in Hi.
  assert (Hnd : NoDup keys).
  { destruct Hpre as [rest Hrest]. pose proof (sorted_desc_keys_nodup token files) as H.
    rewrite Hrest in H. by apply NoDup_app in H as [? _]. }
  assert (Hget : ∀ j w, keys !! j = Some w →
            getitem v (VInt (1 + Z.of_nat j)) ≫= getitem v = Ok (VInt (1 + Z.of_nat j))).
  { intros j w Hj. unfold getitem at 2, contains, Vocab_len, len. rewrite Hi.
    pose proof (lookup_lt_Some _ _ _ Hj) as Hlt.
    rewrite (proj2 (Z.leb_le _ _)) by lia.
    rewrite (proj2 (Z.ltb_lt _ _)) by (simpl; lia). simpl.
    replace (Z.to_nat (1 + Z.of_nat j)) with (S j) by lia. simpl. rewrite Hj. simpl.
    unfold getitem, contains. rewrite (Hin _ _ Hj).
    by rewrite bool_decide_true. }
  assert (Hd : drop 1 (idx_to_tok v) = keys) by (by rewrite Hi).
  rewrite Hd. split; [done|]. split; [|split].
  - intros i Hr. unfold Vocab_len, len in Hr. rewrite Hi in Hr. simpl in Hr.
    destruct (lookup_lt_is_Some_2 keys (Z.to_nat (i - 1)) ltac:(lia)) as [w Hw].
    specialize (Hget _ _ Hw). by replace (1 + Z.of_nat (Z.to_nat (i - 1))) with i in Hget by lia.
  - assert (H0 : getitem v (VInt 0) = Ok (VStr "<unk>")).
    { unfold getitem, contains, Vocab_len, len. by rewrite Hi. }
    rewrite H0. simpl. split.
    + intros Hg [j Hj]%list_elem_of_lookup. revert Hg.
      unfold getitem, contains. rewrite (Hin _ _ Hj).
      rewrite bool_decide_true by done. simpl. intros [= Hg]. unfold len in Hg. simpl in Hg. lia.
    + intros Hn. unfold getitem, contains. rewrite (Hout _ Hn).
      rewrite lookup_insert_eq. by rewrite bool_decide_true.
  - intros Hs. rewrite Hi. apply NoDup_cons. split; [|done].
    intros Hk. apply Hs, sorted_desc_keys_stream.
    destruct Hpre as [rest ->]. apply elem_of_app. by left.
Qed.

(** ** A built vocabulary, written and read back *)

Lemma elem_of_concat {A} (x : A) (ls : list (list A)) :
  x ∈ concat ls ↔ ∃ l, l ∈ ls ∧ x ∈ l.
Proof.
  induction ls as [|l ls IH]; simpl.
  - split; [by intros ?%elem_of_nil|]. by intros (l & ?%elem_of_nil & _).
  - rewrite elem_of_app, IH. split.
    + intros [?|(l' & ? & ?)]; [exists l; split; [apply elem_of_cons; by left|done]|].
      exists l'. split; [apply elem_of_cons; by right|done].
    + intros (l' & [->|?]%elem_of_cons & ?); [by left|right; by exists l'].
Qed.

(** The whitespace tokenizer yields clean tokens. *)
Lemma stream_tokens_clean files t :
  t ∈ token_stream (mkTokenizer None) files → clean t.
Proof.
  unfold token_stream. intros (toks & Htoks & Ht)%elem_of_concat.
  apply list_elem_of_In, in_map_iff in Htoks as (l & <- & _).
  unfold tokenize, split_ws in Ht. simpl in Ht.
  destruct (split_ws_from_spec (list_ascii_of_string (strip_sp_nl l)) []
              ltac:(constructor)) as [Hall _].
  rewrite Forall_forall in Hall. destruct (Hall _ Ht) as [_ Hv].
  by apply visible_clean.
Qed.



(** ** [Dataset.__init__]: the reading loop *)

Section Reading.

Variable token : OpenNMTTokenizer.
Variable vocab : Vocab.

Local Abbreviation encode := (encode token vocab).
Local Abbreviation read_from := (read_from token vocab).

Local Arguments index : simpl never.

Lemma index_getitem tok : getitem vocab (VStr tok) = Ok (VInt (index vocab tok)).
Proof.
  unfold index, getitem. destruct (negb _); [done|].
  by destruct (tok_to_idx vocab !! tok).
Qed.

Lemma count_of_app x l1 l2 : count_of x (l1 ++ l2) = count_of x l1 + count_of x l2.
Proof. induction l1 as [|y l1 IH]; simpl; [done|]. rewrite IH. lia. Qed.

Lemma count_of_nonneg x l : 0 ≤ count_of x l.
Proof. induction l as [|y l IH]; simpl; [done|]. destruct (y =? x); lia. Qed.

Lemma read_tok_fold toks : ∀ st,
  let r := foldl (read_tok vocab) st toks in
  r.1.1 = st.1.1 ++ (index vocab <$> toks) ∧
  r.2 = st.2 + count_of (idx_unk vocab) (index vocab <$> toks) ∧
  (∀ idx, default 0 (r.1.2 !! idx) =
          default 0 (st.1.2 !! idx) + count_of idx (index vocab <$> toks)) ∧
  (∀ idx, is_Some (r.1.2 !! idx) ↔
          is_Some (st.1.2 !! idx) ∨ idx ∈ index vocab <$> toks).
Proof.
  induction toks as [|tok toks IH]; intros st; cbv zeta.
  - simpl. rewrite app_nil_r. split; [done|]. split; [by rewrite Z.add_0_r|].
    split; [intros; by rewrite Z.add_0_r|].
    intros idx. split; [by left|]. intros [?|?%elem_of_nil]; done.
  - destruct (IH (read_tok vocab st tok)) as (H1 & H2 & H3 & H4).
    rewrite fmap_cons. cbn [foldl count_of].
    split; [|split; [|split]].
    + rewrite H1. cbn [read_tok fst]. by rewrite <- app_assoc.
    + rewrite H2. cbn [read_tok snd].
      destruct (index vocab tok =? idx_unk vocab); lia.
    + intros idx. rewrite H3. cbn [read_tok fst snd]. rewrite lookup_insert.
      destruct (Z.eqb_spec (index vocab tok) idx) as [->|Hne].
      * rewrite decide_True by done. cbn [default from_option id].
        unfold id. lia.
      * rewrite decide_False by done. lia.
    + intros idx. rewrite H4. cbn [read_tok fst snd]. rewrite lookup_insert.
      rewrite elem_of_cons. case_decide as Heq.
      * subst idx. split; [intros _; right; by left|intros _; left; by eexists].
      * split; [intros [?|?]; [by left|right; by right]|].
        intros [?|[?|?]]; [by left|congruence|by right].
Qed.

Lemma read_from_init : read_from [] (mkReading [] ∅ 0 0).
Proof.
  split; [done|]. split; [done|]. split; [done|]. simpl.
  split; intros idx; rewrite lookup_empty; [done|].
  split; [by intros [? ?]|by intros ?%elem_of_nil].
Qed.

Lemma read_sentence_from ls st l :
  read_from ls st → read_from (ls ++ [l]) (read_sentence token vocab st l).
Proof.
  intros (Hc & Hn & Ho & Hw & Hk). unfold read_sentence.
  destruct (read_tok_fold (tokenize token (strip_sp_nl l)) ([], r_wrd2n st, r_nOOV st))
    as (H1 & H2 & H3 & H4).
  simpl in H1, H2, H3, H4. fold (encode l) in H1, H2, H3, H4.
  split; [|split; [|split; [|split]]]; simpl; rewrite H1.
  - by rewrite Hc, fmap_app.
  - rewrite concat_app. unfold len in *. rewrite length_app, Hn. simpl.
    rewrite app_nil_r. lia.
  - rewrite H2, Ho, concat_app, count_of_app. simpl. by rewrite app_nil_r.
  - intros idx. rewrite H3, Hw, concat_app, count_of_app. simpl. by rewrite app_nil_r.
  - intros idx. rewrite H4, Hk, concat_app, elem_of_app. simpl. by rewrite app_nil_r.
Qed.

Lemma read_data_from data :
  read_from (concat data) (read_data token vocab data).
Proof.
  unfold read_data.
  assert (H : ∀ ls ls0 st, read_from ls0 st →
            read_from (ls0 ++ ls) (foldl (read_sentence token vocab) st ls)).
  { induction ls as [|l ls IH]; intros ls0 st Hst; simpl.
    - by rewrite app_nil_r.
    - rewrite (cons_middle l), app_assoc. apply IH. by apply read_sentence_from. }
  apply (H _ []). apply read_from_init.
Qed.

Lemma concat_encode data :
  concat (encode <$> concat data) = index vocab <$> token_stream token data.
Proof.
  unfold token_stream, encode.
  induction (concat data) as [|l ls IH]; [done|].
  rewrite fmap_cons. cbn [concat map]. rewrite fmap_app. f_equal. exact IH.
Qed.

End Reading.

(** ** [Dataset.SubSample] *)

Section SubSampleProofs.

Variable F : Type.
Variable flt : F → F → bool.
Variable p_keep : Z → Z → option F.
Variable random : nat → F.

Local Abbreviation keep_tok := (keep_tok F flt random).
Local Abbreviation keep_sentence := (keep_sentence F flt random).
Local Abbreviation keep_table := (keep_table F p_keep).
Local Abbreviation SubSample := (SubSample F flt p_keep random).

Lemma keep_tok_raised w2p toks st :
  (∀ s, st ≠ Built s) → ∀ s, foldl (keep_tok w2p) st toks ≠ Built s.
Proof.
  revert st. induction toks as [|wrd toks IH]; intros st Hst; simpl; [done|].
  apply IH. intros s. by destruct st as [[[? ?] ?]| |]; [destruct (Hst (l, z, n))|..].
Qed.

Lemma keep_tok_fold w2p toks : ∀ snt0 n0 c0 r,
  foldl (keep_tok w2p) (Built (snt0, n0, c0)) toks = Built r →
  ∃ kept, kept `sublist_of` toks ∧ r.1.1 = snt0 ++ kept ∧ r.1.2 = n0 + len kept.
Proof.
  induction toks as [|wrd toks IH]; intros snt0 n0 c0 r; simpl.
  - intros [= <-]. exists []. simpl. rewrite app_nil_r. split; [done|]. split; [done|].
    unfold len. simpl. lia.
  - destruct (w2p !! wrd) as [p|].
    2:{ intros H. by apply keep_tok_raised in H. }
    destruct (flt (random c0) p).
    + intros (kept & Hs & H1 & H2)%IH. exists (wrd :: kept).
      split; [by constructor|]. rewrite H1, H2, <- app_assoc. split; [done|].
      unfold len. simpl. lia.
    + intros (kept & Hs & H1 & H2)%IH. exists kept. split; [by constructor|done].
Qed.

Lemma keep_tok_total w2p toks : ∀ s,
  Forall (fun wrd => is_Some (w2p !! wrd)) toks →
  ∃ r, foldl (keep_tok w2p) (Built s) toks = Built r.
Proof.
  induction toks as [|wrd toks IH]; intros [[snt0 n0] c0] Hall; simpl; [by eexists|].
  apply Forall_cons in Hall as [[p ->] Hall].
  destruct (flt (random c0) p); by apply IH.
Qed.

Lemma keep_sentence_raised w2p corpus st :
  (∀ s, st ≠ Built s) → ∀ s, foldl (keep_sentence w2p) st corpus ≠ Built s.
Proof.
  revert st. induction corpus as [|toks corpus IH]; intros st Hst; simpl; [done|].
  apply IH. intros s. by destruct st as [[[? ?] ?]| |]; [destruct (Hst (l, z, n))|..].
Qed.

Lemma keep_sentence_fold w2p corpus : ∀ fc0 n0 c0 r,
  foldl (keep_sentence w2p) (Built (fc0, n0, c0)) corpus = Built r →
  ∃ new, Forall2 sublist new corpus ∧ r.1.1 = fc0 ++ new ∧
         r.1.2 = n0 + len (concat new).
Proof.
  induction corpus as [|toks corpus IH]; intros fc0 n0 c0 r; simpl.
  - intros [= <-]. exists []. simpl. rewrite app_nil_r. split; [constructor|].
    split; [done|]. unfold len. simpl. lia.
  - destruct (foldl (keep_tok w2p) _ toks) as [[[snt n1] c1]| |] eqn:Ht.
    2,3: intros H; by apply keep_sentence_raised in H.
    apply keep_tok_fold in Ht as (kept & Hs & H1 & H2). simpl in H1, H2. subst snt n1.
    intros (new & Hn & H1 & H2)%IH. exists (kept :: new).
    split; [by constructor|]. rewrite H1, H2, <- app_assoc. split; [done|].
    simpl. unfold len. rewrite length_app. lia.
Qed.

Lemma keep_sentence_total w2p corpus : ∀ s,
  Forall (Forall (fun wrd => is_Some (w2p !! wrd))) corpus →
  ∃ r, foldl (keep_sentence w2p) (Built s) corpus = Built r.
Proof.
  induction corpus as [|toks corpus IH]; intros [[fc0 n0] c0] Hall; simpl; [by eexists|].
  apply Forall_cons in Hall as [Ht Hall].
  destruct (keep_tok_total w2p toks ([], n0, c0) Ht) as [[[snt n1] c1] ->].
  by apply IH.
Qed.

Lemma keep_table_keys wrd2n sum_counts :
  (∀ wrd n, wrd2n !! wrd = Some n → is_Some (p_keep n sum_counts)) →
  ∃ w2p, keep_table wrd2n sum_counts = Built w2p ∧
         ∀ wrd, is_Some (wrd2n !! wrd) → is_Some (w2p !! wrd).
Proof.
  intros Hp. unfold Dataset.keep_table.
  set (f := fun e : Z * Z => p ← p_keep e.2 sum_counts; Some (e.1, p)).
  assert (H : ∀ l : list (Z * Z),
            (∀ e, e ∈ l → is_Some (p_keep e.2 sum_counts)) →
            ∃ k, mapM f l = Some k ∧ k.*1 = l.*1).
  { induction l as [|e l IH]; intros He; [by exists []|].
    destruct (He e) as [p Hpe]; [apply elem_of_cons; by left|].
    destruct IH as (k & Hk & Hk1); [intros e' ?; apply He, elem_of_cons; by right|].
    exists ((e.1, p) :: k). split; [|by rewrite !fmap_cons, Hk1].
    cbn [mapM]. change (f e) with (p ← p_keep e.2 sum_counts; Some (e.1, p)).
    rewrite Hpe. simpl. by rewrite Hk. }
  destruct (H (map_to_list wrd2n)) as (k & -> & Hk1).
  { intros [wrd n] Hin%elem_of_map_to_list. by eapply Hp. }
  eexists. split; [done|]. intros wrd [n Hn].
  apply elem_of_map_to_list in Hn.
  apply (list_elem_of_fmap_2 fst) in Hn. rewrite <- Hk1 in Hn. simpl in Hn.
  destruct (list_to_map k !! wrd) as [p|] eqn:Hl; [by eexists|].
  by apply not_elem_of_list_to_map_2 in Hl.
Qed.

End SubSampleProofs.

(** X6.  [Dataset(args, token, vocab, ...)] raises [ZeroDivisionError]
    when the data files hold no token, whatever [skip_subsampling] is;
    otherwise, with [skip_subsampling=True], the corpus has one sentence
    per line, in order, of the indices [vocab[tok]] of its tokens, and
    [wrd2n] counts the occurrences of each index. *)
Theorem dataset_init_reads_every_line
    (F : Type) (flt : F → F → bool) (p_keep : Z → Z → option F) (random : nat → F)
    (a : args) (token : OpenNMTTokenizer) (vocab : Vocab) :
  (token_stream token (args_data a) = [] →
   ∀ skip_subsampling,
     Dataset_init F flt p_keep random a token vocab skip_subsampling = ZeroDivisionError) ∧
  (token_stream token (args_data a) ≠ [] →
   ∃ wrd2n,
     Dataset_init F flt p_keep random a token vocab true =
       Built (mkDataset (args_batch_size a) (args_window a) (args_n_negs a)
                (Vocab_len vocab) (idx_unk vocab)
                (encode token vocab <$> concat (args_data a)), wrd2n) ∧
     ∀ idx, default 0 (wrd2n !! idx) =
            count_of idx (index vocab <$> token_stream token (args_data a))).
Proof.
  destruct (read_data_from token vocab (args_data a)) as (Hc & Hn & _ & Hw & _).
  rewrite Hc, concat_encode in Hn, Hw. unfold Dataset_init. split.
  - intros Hnil skip. rewrite Hn, Hnil. done.
  - intros Hne. rewrite (proj2 (Z.eqb_neq _ _)).
    + rewrite Hc. by eexists.
    + rewrite Hn. unfold len. rewrite length_fmap.
      destruct (token_stream token (args_data a)); [done|simpl; lia].
Qed.

(** Blank lines only, and three lines of which one is blank. *)
Lemma dataset_init_reads_every_line_witness :
  Dataset_init Q qlt always_half alternating (mkArgs 2 1 0 blank_lines)
    (mkTokenizer None) abc_vocab false = ZeroDivisionError ∧
  ∃ wrd2n,
    Dataset_init Q qlt always_half alternating small_args (mkTokenizer None) abc_vocab true =
      Built (mkDataset 2 1 0 3 0 [[1; 2; 0]; []; [2]], wrd2n) ∧
    default 0 (wrd2n !! 2) = 2.
Proof.
  split.
  - apply (dataset_init_reads_every_line Q qlt always_half alternating
             (mkArgs 2 1 0 blank_lines) (mkTokenizer None) abc_vocab). reflexivity.
  - destruct (dataset_init_reads_every_line Q qlt always_half alternating
                small_args (mkTokenizer None) abc_vocab) as [_ H].
    destruct H as (wrd2n & Hrun & Hcount); [discriminate|].
    exists wrd2n. split; [exact Hrun|]. exact (Hcount 2).
Defined.

(** X7.  When [SubSample] returns, every sentence of the new corpus is
    the old one with some tokens dropped (sentences are neither added,
    removed nor reordered) and the value returned is the number of tokens
    left; it returns whenever every corpus word is a key of [wrd2n] and no
    division raises. *)
Theorem subsample_only_drops_tokens
    (F : Type) (flt : F → F → bool) (p_keep : Z → Z → option F) (random : nat → F)
    (corpus : list (list Z)) (wrd2n : gmap Z Z) (sum_counts : Z) :
  (∀ filtered ntokens,
     SubSample F flt p_keep random corpus wrd2n sum_counts = Built (filtered, ntokens) →
     Forall2 sublist filtered corpus ∧ ntokens = len (concat filtered)) ∧
  ((∀ wrd n, wrd2n !! wrd = Some n → is_Some (p_keep n sum_counts)) →
   (∀ wrd, wrd ∈ concat corpus → is_Some (wrd2n !! wrd)) →
   ∃ filtered ntokens,
     SubSample F flt p_keep random corpus wrd2n sum_counts = Built (filtered, ntokens)).
Proof.
  unfold SubSample. split.
  - intros filtered ntokens.
    destruct (keep_table F p_keep wrd2n sum_counts) as [w2p| |]; [|done..].
    destruct (foldl _ _ corpus) as [[[fc n] c]| |] eqn:Hf; [|done..].
    intros [= <- <-].
    apply keep_sentence_fold in Hf as (new & Hs & H1 & H2). simpl in H1, H2.
    subst fc n. split; [done|]. lia.
  - intros Hp Hk.
    destruct (keep_table_keys F p_keep wrd2n sum_counts Hp) as (w2p & -> & Hw).
    destruct (keep_sentence_total F flt random w2p corpus ([], 0, 0%nat))
      as [[[fc n] c] ->]; [|by eexists _, _].
    apply Forall_forall. intros toks Ht. apply Forall_forall. intros wrd Hwrd.
    apply Hw, Hk. apply elem_of_concat. by exists toks.
Qed.

(** Every second outcome keeps its token. *)
Lemma subsample_only_drops_tokens_witness :
  SubSample Q qlt always_half alternating four_words four_counts 4 = Built ([[1; 3]; []], 2).
Proof.
  destruct (subsample_only_drops_tokens Q qlt always_half alternating four_words
              four_counts 4) as [Hsub Htotal].
  destruct Htotal as (filtered & ntokens & Hrun).
  - intros wrd n _. by eexists.
  - intros wrd Hw. apply (bool_decide_unpack _).
    revert wrd Hw. apply Forall_forall. repeat constructor; by vm_compute.
  - assert (H : Built (filtered, ntokens) = Built ([[1; 3]; []], 2 : Z)).
    { rewrite <- Hrun. vm_compute. reflexivity. }
    rewrite Hrun. exact H.
Defined.

(** ** Training batches: the loops *)

Section BatchShape.

Variable self : Dataset.


Lemma for_each_fold {A S} (I : list A → S → Prop) (body : A → S → rnd S) l0 :
  (∀ pre x post s draws s' rest, l0 = pre ++ x :: post →
     I pre s → body x s draws = Done s' rest → I (pre ++ [x]) s') →
  ∀ s draws s' rest, I [] s → for_each body l0 s draws = Done s' rest → I l0 s'.
Proof.
  intros Hbody.
  assert (H : ∀ l pre s draws s' rest, l0 = pre ++ l → I pre s →
            for_each body l s draws = Done s' rest → I l0 s').
  { induction l as [|x l IH]; intros pre s draws s' rest Hl Hs; simpl.
    - intros [= <- <-]. by rewrite Hl, app_nil_r.
    - unfold bind. destruct (body x s draws) as [s1 rest1| |] eqn:Hb; [|done..].
      apply (IH (pre ++ [x])); [by rewrite <- app_assoc|]. by eapply Hbody. }
  intros s draws s' rest. by apply (H l0 []).
Qed.

Lemma example_done toks i st draws st' rest :
  example self toks i st draws = Done st' rest →
  ∃ wrd neg, toks !! i = Some wrd ∧ st' = flush self (with_example self st toks i wrd neg).
Proof.
  unfold example, bind at 1, lift.
  destruct (toks !! i) as [wrd|]; [|done]. unfold bind.
  destruct (sample_negs self _ _ _ _ draws) as [neg rest'| |]; [|done..].
  unfold ret. intros [= <- <-]. by exists wrd, neg.
Qed.

Lemma sentence_done index st draws st' rest :
  sentence self index st draws = Done st' rest →
  ∃ toks, corpus self !! index = Some toks ∧
    if len toks <? 2 then st' = st
    else for_each (example self toks) (seq 0 (length toks)) st draws = Done st' rest.
Proof.
  unfold sentence, bind, lift.
  destruct (corpus self !! index) as [toks|]; [|done].
  intros H. exists toks. split; [done|].
  destruct (len toks <? 2); [|done]. by injection H as <- _.
Qed.

Lemma build_batchs_done argsort draws result rest :
  build_batchs self argsort draws = Done result rest →
  ∃ st, for_each (sentence self) (argsort (len <$> corpus self))
          (mkLocals [] [] [] [] [] []) draws = Done st rest ∧
        result = if negb (len (batch_wrd st) =? 0) then batchs st ++ [current st]
                 else batchs st.
Proof.
  unfold build_batchs, bind.
  destruct (for_each _ _ _ draws) as [st rest'| |]; [|done..].
  unfold ret. intros [= <- <-]. by exists st.
Qed.

(** A property of batches that holds of the batches of the result when
    the loop keeps it for the batches moved and the lists being filled. *)
Lemma result_batches (P : batch → Prop) st result :
  Forall P (batchs st) → (batch_wrd st ≠ [] → P (current st)) →
  result = (if negb (len (batch_wrd st) =? 0) then batchs st ++ [current st]
            else batchs st) →
  Forall P result.
Proof.
  intros Hb Hc ->. destruct (len (batch_wrd st) =? 0) eqn:H0; simpl; [done|].
  apply Forall_app. split; [done|]. constructor; [|done].
  apply Hc. intros Hnil. rewrite Hnil in H0. done.
Qed.

Lemma flush_batches (P : batch → Prop) (Q : locals → Prop) st :
  Forall P (batchs st) → batch_wrd st ≠ [] → P (current st) →
  Q (mkLocals (batchs st ++ [current st]) [] [] [] [] []) → Q st →
  Forall P (batchs (flush self st)) ∧ Q (flush self st).
Proof.
  intros Hb Hne Hc Hq1 Hq2. unfold flush.
  destruct (len (batch_wrd st) =? batch_size self); [|done].
  split; [|done]. simpl. apply Forall_app. split; [done|]. by constructor.
Qed.

End BatchShape.

(** ** Training batches: context windows *)

Section BatchContext.

Variable self : Dataset.

Local Abbreviation context := (context self).
Local Abbreviation context_of := (context_of self).
Local Abbreviation ctx_inv := (ctx_inv self).

Lemma bind_singletons {A B} (g : A → list B) l :
  Forall (fun x => length (g x) = 1%nat) l → length (l ≫= g) = length l.
Proof.
  induction 1 as [|x l Hx _ IH]; [done|].
  change ((x :: l) ≫= g) with (g x ++ (l ≫= g)).
  rewrite length_app, Hx, IH. done.
Qed.

Lemma context_length toks i :
  0 ≤ window self → (i < length toks)%nat →
  len (context toks (Z.of_nat i)) = 2 * window self.
Proof.
  intros Hw Hi. unfold Dataset.context, len.
  set (g := fun j : Z => _).
  replace (Z.of_nat i + window self + 1 - (Z.of_nat i - window self))
    with (window self + (1 + window self)) by lia.
  rewrite seqZ_app by lia.
  replace (Z.of_nat i - window self + window self) with (Z.of_nat i) by lia.
  rewrite (seqZ_cons (Z.of_nat i)) by lia.
  replace (Z.pred (1 + window self)) with (window self) by lia.
  rewrite bind_app.
  change ((Z.of_nat i :: ?l) ≫= g) with (g (Z.of_nat i) ++ (l ≫= g)).
  assert (Hone : ∀ j, j ≠ Z.of_nat i → length (g j) = 1%nat).
  { intros j Hj. unfold g. cbv beta. destruct (j <? 0) eqn:H0; [done|].
    destruct (Z.of_nat (length toks) <=? j) eqn:H1; [done|].
    apply Z.ltb_ge in H0. apply Z.leb_gt in H1.
    rewrite (proj2 (Z.eqb_neq _ _) Hj). simpl.
    destruct (lookup_lt_is_Some_2 toks (Z.to_nat j) ltac:(lia)) as [t ->]. done. }
  assert (Hi0 : g (Z.of_nat i) = []).
  { unfold g. cbv beta. rewrite (proj2 (Z.ltb_ge _ _)) by lia.
    rewrite (proj2 (Z.leb_gt _ _)) by lia.
    by rewrite Z.eqb_refl. }
  rewrite Hi0, !length_app. simpl.
  rewrite !bind_singletons, !length_seqZ; [lia|..].
  - apply Forall_seqZ. intros j Hj. apply Hone. lia.
  - apply Forall_seqZ. intros j Hj. apply Hone. lia.
Qed.

Lemma context_elem toks i c :
  c ∈ context toks i → c = idx_pad self ∨ c ∈ toks.
Proof.
  unfold Dataset.context. intros (j & Hc & _)%list_elem_of_bind. revert Hc.
  destruct (j <? 0); [intros ->%list_elem_of_singleton; by left|].
  destruct (len toks <=? j); [intros ->%list_elem_of_singleton; by left|].
  destruct (negb (j =? i)); [|by intros ?%elem_of_nil].
  destruct (toks !! Z.to_nat j) as [t|] eqn:Ht; [|by intros ?%elem_of_nil].
  intros ->%list_elem_of_singleton. right. by eapply list_elem_of_lookup_2.
Qed.


Lemma example_ctx toks i st draws st' rest :
  toks ∈ corpus self →
  ctx_inv st → example self toks i st draws = Done st' rest → ctx_inv st'.
Proof.
  intros Ht [Hb Hl] (wrd & neg & Hw & ->)%example_done.
  assert (Hnew : Forall2 context_of (batch_wrd st ++ [wrd])
                   (batch_ctx st ++ [context toks (Z.of_nat i)])).
  { apply Forall2_app; [done|]. repeat constructor. by exists toks, i. }
  unfold flush. destruct (len _ =? batch_size self); [|by split].
  split; simpl; [|constructor]. apply Forall_app. split; [done|]. by repeat constructor.
Qed.

Lemma sentence_ctx index st draws st' rest :
  ctx_inv st → sentence self index st draws = Done st' rest → ctx_inv st'.
Proof.
  intros Hst (toks & Ht & H)%sentence_done.
  destruct (len toks <? 2); [by subst|].
  revert H. apply for_each_invariant; [|done].
  intros x s d s1 r1. apply example_ctx. by eapply list_elem_of_lookup_2.
Qed.

Lemma build_batchs_ctx argsort draws result rest :
  build_batchs self argsort draws = Done result rest →
  Forall (fun b => Forall2 context_of (b_wrd b) (b_ctx b)) result.
Proof.
  intros (st & Hloop & Hres)%build_batchs_done.
  assert (Hst : ctx_inv st).
  { eapply (for_each_invariant ctx_inv); [| |exact Hloop].
    - intros x s d s1 r1. apply sentence_ctx.
    - split; simpl; constructor. }
  destruct Hst as [Hb Hl]. by eapply (result_batches _ st).
Qed.

End BatchContext.

(** X8.  With a window of [window >= 0], the context of every example
    of every emitted batch has exactly [2 * window] entries, each the
    padding index or a token of the sentence the centre word comes from. *)
Theorem context_window_width
    (self : Dataset) (argsort : list Z → list nat)
    (draws : list nat) (result : list batch) (rest : list nat) :
  0 ≤ window self →
  build_batchs self argsort draws = Done result rest →
  ∀ b k wrd ctx, b ∈ result → b_wrd b !! k = Some wrd → b_ctx b !! k = Some ctx →
    len ctx = 2 * window self ∧
    ∃ toks, toks ∈ corpus self ∧ wrd ∈ toks ∧
            ∀ c, c ∈ ctx → c = idx_pad self ∨ c ∈ toks.
Proof.
  intros Hw Hrun b k wrd ctx Hb Hk Hc.
  pose proof (build_batchs_ctx self _ _ _ _ Hrun) as Hall.
  rewrite Forall_forall in Hall.
  destruct (Forall2_lookup_lr _ _ _ _ _ _ (Hall _ Hb) Hk Hc) as (toks & i & Ht & Hi & ->).
  split.
  - apply context_length; [done|]. by eapply lookup_lt_Some.
  - exists toks. split; [done|]. split; [by eapply list_elem_of_lookup_2|].
    intros c. apply context_elem.
Qed.

(** [two_sentences]: five examples in batches of three, window 1. *)
Lemma context_window_width_witness :
  ∃ result rest,
    build_batchs two_sentences in_order [] = Done result rest ∧
    b_ctx <$> result = [[[0; 2]; [1; 0]; [0; 4]]; [[3; 5]; [4; 0]]] ∧
    ∀ b k wrd ctx, b ∈ result → b_wrd b !! k = Some wrd → b_ctx b !! k = Some ctx →
      len ctx = 2 * 1.
Proof.
  eexists _, _. split; [vm_compute; reflexivity|]. split; [reflexivity|].
  intros b k wrd ctx Hb Hk Hc.
  eapply (context_window_width two_sentences in_order [] _ []); [done| |exact Hb|exact Hk|exact Hc].
  vm_compute. reflexivity.
Defined.

(** ** Training batches: how the examples are split *)

Section BatchPartition.

Variable self : Dataset.

Local Abbreviation part_inv := (part_inv self).
Local Abbreviation visited := (visited self).

Lemma visited_snoc pre index toks :
  corpus self !! index = Some toks →
  visited (pre ++ [index]) = visited pre ++ (if len toks <? 2 then [] else [toks]).
Proof.
  intros Ht. unfold visited. rewrite omap_app, filter_app. f_equal.
  simpl. rewrite Ht. simpl.
  destruct (len toks <? 2) eqn:H2.
  - apply Z.ltb_lt in H2. rewrite filter_cons_False by lia. done.
  - apply Z.ltb_ge in H2. rewrite filter_cons_True by lia. done.
Qed.

Lemma example_part toks i base st draws st' rest :
  part_inv (base ++ take i toks) st →
  example self toks i st draws = Done st' rest →
  part_inv (base ++ take (S i) toks) st'.
Proof.
  intros (Hc & Hne & Hfull) (wrd & neg & Hi & ->)%example_done.
  rewrite (take_S_r _ _ _ Hi), app_assoc, <- Hc, <- app_assoc.
  unfold flush. cbn [batch_wrd with_example].
  destruct (len (batch_wrd st ++ [wrd]) =? batch_size self) eqn:Hb.
  - apply Z.eqb_eq in Hb. split; [|split]; simpl.
    + rewrite fmap_app, concat_app. simpl. by rewrite !app_nil_r.
    + apply Forall_app. split; [done|]. constructor; [|done]. simpl.
      by destruct (batch_wrd st).
    + intros H1. destruct (Hfull H1) as [Hall Hlt]. split; [|unfold len; simpl; lia].
      apply Forall_app. split; [done|]. by constructor.
  - apply Z.eqb_neq in Hb. split; [done|]. split; [done|]. simpl.
    intros H1. destruct (Hfull H1) as [Hall Hlt]. split; [done|].
    revert Hb. unfold len. rewrite length_app. simpl. unfold len in Hlt. lia.
Qed.

Lemma sentence_part pre index st draws st' rest :
  part_inv (concat (visited pre)) st →
  sentence self index st draws = Done st' rest →
  part_inv (concat (visited (pre ++ [index]))) st'.
Proof.
  intros Hst (toks & Ht & H)%sentence_done.
  rewrite (visited_snoc _ _ _ Ht), concat_app.
  destruct (len toks <? 2).
  - subst st'. simpl. by rewrite app_nil_r.
  - simpl. rewrite app_nil_r.
    replace (concat (visited pre) ++ toks)
      with (concat (visited pre) ++ take (length (seq 0 (length toks))) toks)
      by (by rewrite length_seq, firstn_all).
    revert H.
    apply (for_each_fold
             (fun done s => part_inv (concat (visited pre) ++ take (length done) toks) s)).
    + intros done x post s d s1 r1 Hl Hs Hx.
      assert (x = length done) as ->.
      { apply (f_equal (fun l => l !! length done)) in Hl.
        rewrite lookup_app_r, Nat.sub_diag in Hl by lia. simpl in Hl.
        apply lookup_seq in Hl as [-> _]. done. }
      rewrite length_app. simpl. rewrite Nat.add_1_r. by eapply example_part.
    + simpl. by rewrite take_0, app_nil_r.
Qed.

Lemma build_batchs_part argsort draws result rest :
  build_batchs self argsort draws = Done result rest →
  ∃ st, part_inv (concat (visited (argsort (len <$> corpus self)))) st ∧
        result = if negb (len (batch_wrd st) =? 0) then batchs st ++ [current st]
                 else batchs st.
Proof.
  intros (st & Hloop & Hres)%build_batchs_done. exists st. split; [|done].
  revert Hloop. apply (for_each_fold (fun done s => part_inv (concat (visited done)) s)).
  - intros done x post s d s1 r1 _. apply sentence_part.
  - split; [done|]. split; [constructor|]. intros H1. split; [constructor|].
    unfold len. simpl. lia.
Qed.

End BatchPartition.

(** X9.  The centre words of the emitted batches, read batch after
    batch, are the tokens of the visited sentences of at least two tokens,
    in order; no emitted batch is empty, and with [batch_size >= 1] every
    batch but the last holds exactly [batch_size] examples and the last at
    most that many. *)
Theorem batches_partition_centre_words
    (self : Dataset) (argsort : list Z → list nat)
    (draws : list nat) (result : list batch) (rest : list nat) :
  build_batchs self argsort draws = Done result rest →
  concat (b_wrd <$> result) = concat (visited self (argsort (len <$> corpus self))) ∧
  Forall (fun b => b_wrd b ≠ []) result ∧
  (1 ≤ batch_size self →
   ∀ k b, result !! k = Some b →
     len (b_wrd b) ≤ batch_size self ∧
     ((S k < length result)%nat → len (b_wrd b) = batch_size self)).
Proof.
  intros (st & (Hc & Hne & Hfull) & ->)%build_batchs_part.
  destruct (len (batch_wrd st) =? 0) eqn:H0; simpl.
  - apply Z.eqb_eq in H0. assert (Hnil : batch_wrd st = []) by (by apply len_zero).
    rewrite Hnil, app_nil_r in Hc. split; [done|]. split; [done|].
    intros H1 k b Hk. destruct (Hfull H1) as [Hall _].
    rewrite Forall_forall in Hall.
    rewrite (Hall b) by (by eapply list_elem_of_lookup_2). split; [lia|done].
  - apply Z.eqb_neq in H0. split; [|split].
    + rewrite fmap_app, concat_app. simpl. by rewrite app_nil_r.
    + apply Forall_app. split; [done|]. constructor; [|done]. simpl.
      intros Hnil. by rewrite Hnil in H0.
    + intros H1 k b Hk. destruct (Hfull H1) as [Hall Hlt].
      rewrite Forall_forall in Hall. rewrite length_app. simpl.
      apply lookup_app_Some in Hk as [Hk|[Hge Hk]].
      * rewrite (Hall b) by (by eapply list_elem_of_lookup_2). split; [lia|done].
      * apply list_lookup_singleton_Some in Hk as [Hk <-]. simpl. split; [lia|]. lia.
Qed.

(** [two_sentences]: the five tokens in two batches. *)
Lemma batches_partition_centre_words_witness :
  ∃ result rest,
    build_batchs two_sentences in_order [] = Done result rest ∧
    b_wrd <$> result = [[1; 2; 3]; [4; 5]] ∧
    concat (b_wrd <$> result) = [1; 2; 3; 4; 5].
Proof.
  eexists _, _. split; [vm_compute; reflexivity|]. split; [reflexivity|].
  destruct (batches_partition_centre_words two_sentences in_order [] _ []
              ltac:(vm_compute; reflexivity)) as [Hc _].
  exact Hc.
Defined.

(** ** Training batches: padded rows *)

Section BatchRows.

Variable self : Dataset.

Local Abbreviation row_of := (row_of self).
Local Abbreviation rows_of := (rows_of self).
Local Abbreviation rows_inv := (rows_inv self).

Lemma row_of_length w wrd row n : row_of w wrd row n → length row = w.
Proof.
  intros (toks & i & _ & Hi & -> & Hn & ->). unfold len in *.
  rewrite length_app, length_replicate, length_delete by done. lia.
Qed.

Lemma row_of_widen w w' wrd row n :
  (w ≤ w')%nat → row_of w wrd row n →
  row_of w' wrd (row ++ replicate (w' - w) (idx_pad self)) n.
Proof.
  intros Hw (toks & i & Ht & Hi & -> & Hn & ->). exists toks, i.
  split; [done|]. split; [done|]. split; [done|]. split; [lia|].
  rewrite <- app_assoc, <- replicate_add. do 2 f_equal. lia.
Qed.

Lemma Forall3_fmap_m {A B C} (P Q : A → B → C → Prop) (f : B → B) l k k' :
  (∀ x y z, P x y z → Q x (f y) z) → Forall3 P l k k' → Forall3 Q l (f <$> k) k'.
Proof. intros HPQ. induction 1; constructor; auto. Qed.

Lemma pad_snt_snoc snts snt :
  pad_snt self (snts ++ [snt]) =
    if (1 <? len (snts ++ [snt])) && (len (default snt (head snts)) <? len snt)
    then ((fun s => s ++ replicate (Z.to_nat (len snt - len s)) (idx_pad self)) <$> snts)
         ++ [snt]
    else snts ++ [snt].
Proof.
  destruct snts as [|first snts]; [done|].
  unfold pad_snt.
  change ((first :: snts) ++ [snt]) with (first :: (snts ++ [snt])). cbv iota beta.
  change (first :: (snts ++ [snt])) with ((first :: snts) ++ [snt]).
  rewrite last_snoc. cbn [head default].
  replace (length ((first :: snts) ++ [snt]) - 1)%nat
    with (length (first :: snts)) by (rewrite length_app; simpl; lia).
  by rewrite take_app_length.
Qed.

Lemma pad_snt_rows w wrds snts lens toks i wrd :
  Forall3 (row_of w) wrds snts lens →
  toks ∈ corpus self → toks !! i = Some wrd → 2 ≤ len toks →
  (w ≤ length toks - 1)%nat →
  Forall3 (row_of (length toks - 1)) (wrds ++ [wrd])
    (pad_snt self (snts ++ [delete i toks])) (lens ++ [len (delete i toks)]).
Proof.
  intros Hrows Ht Hi H2 Hw. unfold len in H2.
  assert (Hd : length (delete i toks) = (length toks - 1)%nat)
    by (by rewrite length_delete).
  assert (Hnew : row_of (length toks - 1) wrd (delete i toks) (len (delete i toks))).
  { exists toks, i. split; [done|]. split; [done|]. unfold len. rewrite Hd.
    split; [lia|]. split; [lia|].
    replace (length toks - 1 - Z.to_nat _)%nat with 0%nat by lia.
    by rewrite app_nil_r. }
  rewrite pad_snt_snoc.
  destruct snts as [|first snts].
  { inversion Hrows; subst. simpl. constructor; [exact Hnew|constructor]. }
  assert (Hfirst : length first = w).
  { inversion Hrows; subst. by eapply row_of_length. }
  assert (H1 : (1 <? len ((first :: snts) ++ [delete i toks])) = true).
  { apply Z.ltb_lt. unfold len. rewrite length_app. simpl. lia. }
  rewrite H1. cbn [head default from_option id andb].
  destruct (len first <? len (delete i toks)) eqn:Hlt.
  - apply Forall3_app; [|constructor; [exact Hnew|constructor]].
    eapply Forall3_fmap_m; [|exact Hrows].
    intros x y z Hxyz. cbv beta. pose proof (row_of_length _ _ _ _ Hxyz) as Hy.
    unfold len. rewrite Hy, Hd.
    replace (Z.to_nat (Z.of_nat (length toks - 1) - Z.of_nat w))
      with (length toks - 1 - w)%nat by lia.
    by apply row_of_widen.
  - apply Z.ltb_ge in Hlt. unfold len in Hlt. rewrite Hfirst, Hd in Hlt.
    assert (Heq : (length toks - 1)%nat = w) by lia. rewrite Heq in Hnew |- *.
    apply Forall3_app; [done|]. constructor; [exact Hnew|constructor].
Qed.

Lemma rows_inv_mono m m' st : (m ≤ m')%nat → rows_inv m st → rows_inv m' st.
Proof.
  intros Hm [Hb (w & Hw & Hl)]. split; [done|]. exists w. split; [lia|done].
Qed.

Lemma example_rows toks i st draws st' rest :
  toks ∈ corpus self → 2 ≤ len toks →
  rows_inv (length toks - 1) st →
  example self toks i st draws = Done st' rest →
  rows_inv (length toks - 1) st'.
Proof.
  intros Ht H2 [Hb (w & Hw & Hl & _)] (wrd & neg & Hi & ->)%example_done.
  pose proof (pad_snt_rows _ _ _ _ _ _ _ Hl Ht Hi H2 Hw) as Hnew.
  assert (Hlast : last (batch_len st ++ [len (delete i toks)])
                  = Some (Z.of_nat (length toks - 1))).
  { rewrite last_snoc. unfold len. by rewrite length_delete. }
  unfold flush. cbn [batch_wrd with_example].
  destruct (len _ =? batch_size self).
  - split; simpl.
    + apply Forall_app. split; [done|]. constructor; [|done].
      exists (length toks - 1)%nat. by split.
    + exists 0%nat. split; [lia|]. split; [constructor|done].
  - split; [done|]. exists (length toks - 1)%nat. split; [done|]. by split.
Qed.

Lemma sentence_rows (indexs pre post : list nat) index st draws st' rest :
  ascending self indexs → indexs = pre ++ index :: post →
  (∃ m, rows_inv m st ∧
        (m = 0%nat ∨ ∃ x toks, x ∈ pre ∧ corpus self !! x = Some toks ∧
                               m = (length toks - 1)%nat)) →
  sentence self index st draws = Done st' rest →
  ∃ m, rows_inv m st' ∧
       (m = 0%nat ∨ ∃ x toks, x ∈ pre ++ [index] ∧ corpus self !! x = Some toks ∧
                              m = (length toks - 1)%nat).
Proof.
  intros Hasc -> (m & Hst & Hm) (toks & Ht & H)%sentence_done.
  destruct (len toks <? 2) eqn:H2.
  - subst st'. exists m. split; [done|].
    destruct Hm as [->|(x & tx & Hx & Htx & ->)]; [by left|].
    right. exists x, tx. split; [|done]. apply elem_of_app. by left.
  - apply Z.ltb_ge in H2.
    assert (Hle : (m ≤ length toks - 1)%nat).
    { destruct Hm as [->|(x & tx & Hx & Htx & ->)]; [lia|].
      apply list_elem_of_lookup in Hx as [ix Hix].
      pose proof (lookup_lt_Some _ _ _ Hix) as Hlt.
      assert (Hr := StronglySorted_lookup _ _ ix (length pre) x index Hasc Hlt).
      rewrite lookup_app_l in Hr by done.
      rewrite lookup_app_r, Nat.sub_diag in Hr by lia.
      specialize (Hr Hix eq_refl _ _ Htx Ht). lia. }
    exists (length toks - 1)%nat. split.
    + revert H. apply (for_each_invariant (rows_inv (length toks - 1))).
      * intros x s d s1 r1. apply example_rows; [|done].
        by eapply list_elem_of_lookup_2.
      * by eapply rows_inv_mono.
    + right. exists index, toks. split; [|done].
      apply elem_of_app. right. by apply list_elem_of_singleton.
Qed.

Lemma build_batchs_rows argsort draws result rest :
  ascending self (argsort (len <$> corpus self)) →
  build_batchs self argsort draws = Done result rest →
  Forall (fun b => rows_of (b_wrd b) (b_snt b) (b_len b)) result.
Proof.
  intros Hasc (st & Hloop & Hres)%build_batchs_done.
  set (I := fun (pre : list nat) st =>
    ∃ m, rows_inv m st ∧
         (m = 0%nat ∨ ∃ x toks, x ∈ pre ∧ corpus self !! x = Some toks ∧
                                m = (length toks - 1)%nat)).
  assert (Hst : I (argsort (len <$> corpus self)) st).
  { eapply (for_each_fold I); [| |exact Hloop].
    - intros pre x post s d s1 r1 Hl. by apply (sentence_rows _ pre post x s d s1 r1 Hasc Hl).
    - exists 0%nat. split; [|by left]. split; [constructor|].
      exists 0%nat. split; [done|]. split; [constructor|done]. }
  destruct Hst as (m & [Hb (w & _ & Hl & Hlast)] & _).
  eapply (result_batches _ st); [exact Hb| |exact Hres].
  intros Hne. exists w. split; [done|]. by apply Hlast.
Qed.

End BatchRows.

Lemma two_sentences_ascending :
  ascending two_sentences (in_order (len <$> corpus two_sentences)).
Proof.
  unfold ascending. simpl.
  repeat (constructor; try (intros ta tb [= <-] [= <-]; simpl; lia)).
Qed.

(** X10.  When the sentences are visited from the shortest to the
    longest, the rows of [batch_snt] in an emitted batch all have the width
    of the last one; row [k] is the sentence without its centre word
    followed by padding, and [batch_len[k]] is its length before padding,
    at least 1. *)
Theorem batch_rows_padded_to_longest
    (self : Dataset) (argsort : list Z → list nat)
    (draws : list nat) (result : list batch) (rest : list nat) :
  ascending self (argsort (len <$> corpus self)) →
  build_batchs self argsort draws = Done result rest →
  ∀ b, b ∈ result →
    ∃ w : nat,
      last (b_len b) = Some (Z.of_nat w) ∧
      length (b_wrd b) = length (b_snt b) ∧ length (b_wrd b) = length (b_len b) ∧
      ∀ k wrd row n,
        b_wrd b !! k = Some wrd → b_snt b !! k = Some row → b_len b !! k = Some n →
        length row = w ∧ 1 ≤ n ≤ Z.of_nat w ∧
        drop (Z.to_nat n) row = replicate (w - Z.to_nat n) (idx_pad self) ∧
        ∃ toks i, toks ∈ corpus self ∧ toks !! i = Some wrd ∧ n = len toks - 1 ∧
                  take (Z.to_nat n) row = delete i toks.
Proof.
  intros Hasc Hrun b Hb.
  pose proof (build_batchs_rows self _ _ _ _ Hasc Hrun) as Hall.
  rewrite Forall_forall in Hall. destruct (Hall _ Hb) as (w & Hrows & Hlast).
  exists w. split; [done|].
  split; [exact (Forall3_length_lm _ _ _ _ Hrows)|].
  split; [exact (Forall3_length_lr _ _ _ _ Hrows)|].
  intros k wrd row n Hw Hr Hn.
  pose proof (Forall3_lookup_lmr _ _ _ _ _ _ _ _ Hrows Hw Hr Hn) as Hrow.
  split; [by eapply row_of_length|].
  destruct Hrow as (toks & i & Ht & Hi & -> & Hn' & ->).
  assert (Hd : length (delete i toks) = Z.to_nat (len toks - 1)).
  { rewrite length_delete by done. unfold len. lia. }
  split; [done|]. split.
  - by rewrite drop_app_length'.
  - exists toks, i. split; [done|]. split; [done|]. split; [done|].
    by rewrite take_app_length'.
Qed.

(** [two_sentences]: the rows of the first batch are padded to width 2. *)
Lemma batch_rows_padded_to_longest_witness :
  ∃ result rest,
    build_batchs two_sentences in_order [] = Done result rest ∧
    b_snt <$> result = [[[2; 0]; [1; 0]; [4; 5]]; [[3; 5]; [3; 4]]] ∧
    b_len <$> result = [[1; 1; 2]; [2; 2]] ∧
    ∀ b, b ∈ result →
      ∃ w : nat, last (b_len b) = Some (Z.of_nat w) ∧
                 ∀ k row, b_snt b !! k = Some row → length row = w.
Proof.
  eexists _, _. split; [vm_compute; reflexivity|]. split; [reflexivity|].
  split; [reflexivity|]. intros b Hb.
  destruct (batch_rows_padded_to_longest two_sentences in_order [] _ []
              two_sentences_ascending ltac:(vm_compute; reflexivity) b Hb)
    as (w & Hlast & Hlen1 & Hlen2 & Hrows).
  exists w. split; [exact Hlast|]. intros k row Hrow.
  destruct (lookup_lt_is_Some_2 (b_wrd b) k) as [wrd Hw].
  { rewrite Hlen1. by eapply lookup_lt_Some. }
  destruct (lookup_lt_is_Some_2 (b_len b) k) as [n Hn].
  { rewrite <- Hlen2, Hlen1. by eapply lookup_lt_Some. }
  by destruct (Hrows k wrd row n Hw Hrow Hn) as [? _].
Defined.

(** ** Training batches: every entry indexes the vocabulary *)

Section BatchEntries.

Variable self : Dataset.
Variable P : Z → Prop.
Hypothesis P_pad : P (idx_pad self).
Hypothesis P_corpus : Forall (Forall P) (corpus self).

Lemma pad_snt_entries snts snt :
  Forall (Forall P) snts → Forall P snt →
  Forall (Forall P) (pad_snt self (snts ++ [snt])).
Proof.
  intros Hs Hn. rewrite pad_snt_snoc.
  destruct (_ && _).
  - apply Forall_app. split; [|by constructor].
    apply Forall_fmap. eapply Forall_impl; [exact Hs|]. intros row Hrow. simpl.
    apply Forall_app. split; [done|]. by apply Forall_replicate.
  - apply Forall_app. split; [done|]. by constructor.
Qed.

Lemma example_snt toks i st draws st' rest :
  Forall P toks →
  snt_inv P st → example self toks i st draws = Done st' rest → snt_inv P st'.
Proof.
  intros Ht [Hb Hl] (wrd & neg & Hw & ->)%example_done.
  assert (Hnew : Forall (Forall P) (pad_snt self (batch_snt st ++ [delete i toks]))).
  { apply pad_snt_entries; [done|]. apply Forall_forall. intros x Hx.
    rewrite Forall_forall in Ht. apply Ht.
    eapply elem_of_submseteq; [exact Hx|]. apply sublist_submseteq, sublist_delete. }
  unfold flush. destruct (len _ =? batch_size self); [|by split].
  split; simpl; [|constructor]. apply Forall_app. split; [done|]. by repeat constructor.
Qed.

Lemma sentence_snt index st draws st' rest :
  snt_inv P st → sentence self index st draws = Done st' rest → snt_inv P st'.
Proof.
  intros Hst (toks & Ht & H)%sentence_done.
  destruct (len toks <? 2); [by subst|].
  revert H. apply for_each_invariant; [|done].
  intros x s d s1 r1. apply example_snt.
  rewrite Forall_forall in P_corpus. apply P_corpus. by eapply list_elem_of_lookup_2.
Qed.

Lemma build_batchs_snt argsort draws result rest :
  build_batchs self argsort draws = Done result rest →
  Forall (fun b => Forall (Forall P) (b_snt b)) result.
Proof.
  intros (st & Hloop & Hres)%build_batchs_done.
  assert (Hst : snt_inv P st).
  { eapply (for_each_invariant (snt_inv P)); [| |exact Hloop].
    - intros x s d s1 r1. apply sentence_snt.
    - split; simpl; constructor. }
  destruct Hst as [Hb Hl]. by eapply (result_batches _ st).
Qed.

Lemma build_batchs_wrd_ctx argsort draws result rest :
  build_batchs self argsort draws = Done result rest →
  Forall (fun b => Forall P (b_wrd b) ∧ Forall (Forall P) (b_ctx b)) result.
Proof.
  intros Hrun. pose proof (build_batchs_ctx self _ _ _ _ Hrun) as Hall.
  eapply Forall_impl; [exact Hall|]. intros b Hb. simpl in Hb.
  rewrite Forall_forall in P_corpus.
  induction Hb as [|wrd ctx wrds ctxs (toks & i & Ht & Hi & ->) _ [IH1 IH2]];
    [by split|].
  pose proof (P_corpus _ Ht) as Htoks. rewrite Forall_forall in Htoks.
  split; constructor; try done.
  - apply Htoks. by eapply list_elem_of_lookup_2.
  - apply Forall_forall. intros c [->|Hc]%context_elem; [done|by apply Htoks].
Qed.

End BatchEntries.

Lemma build_batchs_neg self argsort draws result rest :
  0 ≤ n_negs self →
  build_batchs self argsort draws = Done result rest →
  Forall (fun b => Forall (Forall (fun idx => 1 ≤ idx ≤ vocab_size self - 1)) (b_neg b))
         result.
Proof.
  intros Hn (st & Hloop & Hres)%build_batchs_done.
  assert (Hst : good_locals self st).
  { eapply (for_each_invariant (good_locals self)); [| |exact Hloop].
    - intros x s d s1 r1. by apply sentence_good.
    - split; simpl; constructor. }
  destruct Hst as [Hb Hl].
  assert (Hconv : ∀ wrds ctxs negs, good_lists self wrds ctxs negs →
            Forall (Forall (fun idx => 1 ≤ idx ≤ vocab_size self - 1)) negs).
  { intros wrds ctxs negs H. induction H as [|wrd ctx neg ? ? ? [_ Hg] _ IH]; constructor.
    - eapply Forall_impl; [exact Hg|]. by intros idx (? & _).
    - done. }
  eapply (result_batches _ st); [| |exact Hres].
  - eapply Forall_impl; [exact Hb|]. intros b. apply Hconv.
  - intros _. simpl. by eapply Hconv.
Qed.

Lemma index_valid vocab tok :
  table_sound (tok_to_idx vocab) (idx_to_tok vocab) →
  0 ≤ idx_unk vocab < Vocab_len vocab →
  0 ≤ index vocab tok < Vocab_len vocab.
Proof.
  intros Hs Hu. unfold index, getitem, contains.
  destruct (tok_to_idx vocab !! tok) as [i|] eqn:Hi.
  - rewrite bool_decide_true by done. simpl.
    destruct (Hs _ _ Hi) as [H0 Hl%lookup_lt_Some]. unfold Vocab_len, len. lia.
  - rewrite bool_decide_false; [done|]. by intros [? ?].
Qed.

(** X11.  For a vocabulary whose table is sound and whose [idx_unk] is
    one of its indices, every centre word, context entry, negative sample
    and sentence entry of every batch that [build_batchs] emits on a
    [Dataset] made by [__init__] is an index below [len(vocab)]. *)
Theorem batches_index_the_vocabulary
    (F : Type) (flt : F → F → bool) (p_keep : Z → Z → option F) (random : nat → F)
    (a : args) (token : OpenNMTTokenizer) (vocab : Vocab) (skip_subsampling : bool)
    (self : Dataset) (wrd2n : gmap Z Z) (argsort : list Z → list nat)
    (draws : list nat) (result : list batch) (rest : list nat) :
  table_sound (tok_to_idx vocab) (idx_to_tok vocab) →
  0 ≤ idx_unk vocab < Vocab_len vocab →
  0 ≤ args_n_negs a →
  Dataset_init F flt p_keep random a token vocab skip_subsampling = Built (self, wrd2n) →
  build_batchs self argsort draws = Done result rest →
  ∀ b, b ∈ result →
    Forall (fun idx => 0 ≤ idx < Vocab_len vocab) (b_wrd b) ∧
    Forall (Forall (fun idx => 0 ≤ idx < Vocab_len vocab)) (b_ctx b) ∧
    Forall (Forall (fun idx => 0 ≤ idx < Vocab_len vocab)) (b_neg b) ∧
    Forall (Forall (fun idx => 0 ≤ idx < Vocab_len vocab)) (b_snt b).
Proof.
  intros Hs Hu Hn Hinit Hrun b Hb.
  set (valid := fun idx => 0 ≤ idx < Vocab_len vocab).
  assert (Henc : Forall (Forall valid) (encode token vocab <$> concat (args_data a))).
  { apply Forall_fmap, Forall_forall. intros l _. simpl. unfold encode.
    apply Forall_fmap, Forall_forall. intros tok _. by apply index_valid. }
  destruct (read_data_from token vocab (args_data a)) as (Hc & _).
  assert (Hself : vocab_size self = Vocab_len vocab ∧ idx_pad self = idx_unk vocab ∧
                  n_negs self = args_n_negs a ∧ Forall (Forall valid) (corpus self)).
  { unfold Dataset_init in Hinit. destruct (_ =? 0); [done|].
    destruct skip_subsampling.
    - injection Hinit as <- _. simpl. by rewrite Hc.
    - destruct (SubSample _ _ _ _ _ _ _) as [[filtered n]| |] eqn:Hsub; [|done..].
      injection Hinit as <- _. simpl. split; [done|]. split; [done|]. split; [done|].
      unfold SubSample in Hsub.
      destruct (keep_table _ _ _ _) as [w2p| |]; [|done..].
      destruct (foldl _ _ _) as [[[fc n'] c]| |] eqn:Hf; [|done..].
      injection Hsub as <- _.
      apply keep_sentence_fold in Hf as (new & Hsub & H1 & _). simpl in H1. subst fc.
      rewrite Hc in Hsub. clear -Hsub Henc.
      induction Hsub as [|f t fs ts Hft _ IH]; [constructor|].
      apply Forall_cons in Henc as [Ht Hts]. constructor; [|by apply IH].
      apply Forall_forall. intros x Hx. rewrite Forall_forall in Ht. apply Ht.
      eapply elem_of_submseteq; [exact Hx|]. by apply sublist_submseteq. }
  destruct Hself as (Hvs & Hpad & Hneg & Hcorpus).
  assert (Hp : valid (idx_pad self)) by (by rewrite Hpad).
  pose proof (build_batchs_wrd_ctx self valid Hp Hcorpus _ _ _ _ Hrun) as H1.
  pose proof (build_batchs_snt self valid Hp Hcorpus _ _ _ _ Hrun) as H2.
  pose proof (build_batchs_neg self _ _ _ _ ltac:(lia) Hrun) as H3.
  rewrite Forall_forall in H1, H2, H3.
  destruct (H1 _ Hb) as [Hw Hctx]. split; [done|]. split; [done|]. split; [|by apply H2].
  eapply Forall_impl; [exact (H3 _ Hb)|]. intros neg Hg.
  eapply Forall_impl; [exact Hg|]. intros idx Hi. unfold valid. cbv beta in Hi. lia.
Qed.

(** Three lines read with a vocabulary of three entries. *)
Lemma batches_index_the_vocabulary_witness :
  ∃ self wrd2n result rest,
    Dataset_init Q qlt always_half alternating small_args (mkTokenizer None) abc_vocab true
      = Built (self, wrd2n) ∧
    build_batchs self in_order [] = Done result rest ∧
    b_snt <$> result = [[[2; 0]; [1; 0]]; [[1; 2]]] ∧
    ∀ b, b ∈ result → Forall (Forall (fun idx => 0 ≤ idx < 3)) (b_snt b).
Proof.
  eexists _, _, _, _. split; [vm_compute; reflexivity|].
  split; [vm_compute; reflexivity|]. split; [reflexivity|].
  intros b Hb.
  eapply (batches_index_the_vocabulary Q qlt always_half alternating small_args
            (mkTokenizer None) abc_vocab true _ _ in_order [] _ []); [| | | | |exact Hb].
  - apply read_sound; [apply table_sound_empty|done].
  - vm_compute. split; [discriminate|reflexivity].
  - vm_compute. discriminate.
  - vm_compute. reflexivity.
  - vm_compute. reflexivity.
Defined.

(** ** Inference batches: how the sentences are split *)

Section InferPartition.

Variable self : Dataset.

Local Abbreviation from_corpus := (from_corpus self).
Local Abbreviation infer_part := (infer_part self).

Lemma infer_sentence_part done st index st' :
  infer_part done st → infer_sentence self st index = Ok st' →
  infer_part (done ++ [index]) st'.
Proof.
  intros (Hc & Hb & Hl & Hfull). unfold infer_sentence.
  destruct (corpus self !! index) as [toks|] eqn:Ht; [|done].
  rewrite last_snoc. intros [= <-].
  assert (Hnew : Forall2 (fun snt index => corpus self !! index = Some snt)
                   (ib_snt st.2 ++ [toks]) (ib_ind st.2 ++ [index])).
  { apply Forall2_app; [done|]. by repeat constructor. }
  rewrite <- Hc, <- app_assoc. unfold infer_flush. cbn [snd fst ib_snt].
  destruct (len (ib_snt st.2 ++ [toks]) =? batch_size self) eqn:Hs.
  - apply Z.eqb_eq in Hs. split; [|split; [|split]]; simpl.
    + rewrite fmap_app, concat_app. simpl. by rewrite !app_nil_r.
    + apply Forall_app. split; [done|]. constructor; [|done]. simpl.
      split; [done|]. by destruct (ib_snt st.2).
    + constructor.
    + intros H1. destruct (Hfull H1) as [Hall _]. split; [|unfold len; simpl; lia].
      apply Forall_app. split; [done|]. by constructor.
  - apply Z.eqb_neq in Hs. split; [done|]. split; [done|]. split; [done|]. simpl.
    intros H1. destruct (Hfull H1) as [Hall Hlt]. split; [done|].
    revert Hs. unfold len in *. rewrite length_app. simpl. lia.
Qed.

Lemma infer_loop_part indexs : ∀ done st st',
  infer_part done st → infer_loop self indexs st = Ok st' →
  infer_part (done ++ indexs) st'.
Proof.
  induction indexs as [|index indexs IH]; intros done st st' Hst; simpl.
  - intros [= <-]. by rewrite app_nil_r.
  - destruct (infer_sentence self st index) as [st1|] eqn:H1; [|done]. simpl.
    rewrite (cons_middle index), app_assoc. apply IH. by eapply infer_sentence_part.
Qed.

Lemma infer_loop_total indexs : ∀ st,
  Forall (fun index => (index < length (corpus self))%nat) indexs →
  ∃ st', infer_loop self indexs st = Ok st'.
Proof.
  induction indexs as [|index indexs IH]; intros st Hall; simpl; [by eexists|].
  apply Forall_cons in Hall as [Hi Hall].
  unfold infer_sentence at 1.
  destruct (lookup_lt_is_Some_2 _ _ Hi) as [toks ->]. rewrite last_snoc. simpl.
  by apply IH.
Qed.

Lemma infer_loop_bad indexs : ∀ st,
  ¬ Forall (fun index => (index < length (corpus self))%nat) indexs →
  infer_loop self indexs st = Raise IndexError.
Proof.
  induction indexs as [|index indexs IH]; intros st Hall; simpl.
  - destruct Hall. constructor.
  - unfold infer_sentence at 1.
    destruct (corpus self !! index) as [toks|] eqn:Ht; [|done].
    rewrite last_snoc. simpl. apply IH. intros Hrest. apply Hall.
    constructor; [|done]. by eapply lookup_lt_Some.
Qed.

End InferPartition.

(** X12.  [build_batchs_infer_sent] raises [IndexError] when a position
    is outside the corpus; otherwise it returns, each sentence (an empty
    one too) sits in exactly one batch next to its corpus position, in the
    order of the positions, no batch is empty, and with [batch_size >= 1]
    every batch but the last holds exactly [batch_size] sentences. *)
Theorem infer_batches_partition_sentences
    (self : Dataset) (argsort : list Z → list nat) :
  let indexs := argsort (len <$> corpus self) in
  (¬ Forall (fun index => (index < length (corpus self))%nat) indexs →
   build_batchs_infer_sent self argsort = Raise IndexError) ∧
  (Forall (fun index => (index < length (corpus self))%nat) indexs →
   ∃ result, build_batchs_infer_sent self argsort = Ok result ∧
     concat (ib_ind <$> result) = indexs ∧
     Forall (fun b => ib_snt b ≠ [] ∧
               Forall2 (fun snt index => corpus self !! index = Some snt)
                       (ib_snt b) (ib_ind b)) result ∧
     (1 ≤ batch_size self →
      ∀ k b, result !! k = Some b →
        len (ib_snt b) ≤ batch_size self ∧
        ((S k < length result)%nat → len (ib_snt b) = batch_size self))).
Proof.
  intros indexs. unfold build_batchs_infer_sent. fold indexs. split.
  - intros Hbad. by rewrite infer_loop_bad.
  - intros Hok.
    destruct (infer_loop_total self indexs ([], mkInferBatch [] [] []) Hok) as [st Hst].
    rewrite Hst. simpl. eexists. split; [done|].
    assert (Hinit : infer_part self [] ([], mkInferBatch [] [] [])).
    { split; [done|]. split; [constructor|]. split; [constructor|].
      intros H1. split; [constructor|]. unfold len. simpl. lia. }
    destruct (infer_loop_part self indexs [] _ _ Hinit Hst) as (Hc & Hb & Hl & Hfull).
    simpl in Hc.
    destruct (len (ib_snt st.2) =? 0) eqn:H0; simpl.
    + apply Z.eqb_eq, len_zero in H0.
      assert (Hi : ib_ind st.2 = []).
      { apply Forall2_length in Hl. rewrite H0 in Hl. by destruct (ib_ind st.2). }
      rewrite Hi, app_nil_r in Hc. split; [done|]. split.
      * eapply Forall_impl; [exact Hb|]. by intros b [? ?].
      * intros H1 k b Hk. destruct (Hfull H1) as [Hall _].
        rewrite Forall_forall in Hall.
        rewrite (Hall b) by (by eapply list_elem_of_lookup_2). split; [lia|done].
    + apply Z.eqb_neq in H0. split; [|split].
      * rewrite fmap_app, concat_app. simpl. by rewrite app_nil_r.
      * apply Forall_app. split.
        -- eapply Forall_impl; [exact Hb|]. by intros b [? ?].
        -- constructor; [|done]. split; [|done]. intros Hnil. by rewrite Hnil in H0.
      * intros H1 k b Hk. destruct (Hfull H1) as [Hall Hlt].
        rewrite Forall_forall in Hall. rewrite length_app. simpl.
        apply lookup_app_Some in Hk as [Hk|[Hge Hk]].
        -- rewrite (Hall b) by (by eapply list_elem_of_lookup_2). split; [lia|done].
        -- apply list_lookup_singleton_Some in Hk as [Hk <-]. split; lia.
Qed.

(** Three sentences, one of them empty, in batches of two. *)
Lemma infer_batches_partition_sentences_witness :
  ∃ result, build_batchs_infer_sent three_sentences in_order = Ok result ∧
    ib_ind <$> result = [[0; 1]; [2]]%nat ∧ ib_snt <$> result = [[[5; 6]; []]; [[7]]] ∧
    concat (ib_ind <$> result) = [0; 1; 2]%nat.
Proof.
  destruct (infer_batches_partition_sentences three_sentences in_order) as [_ H].
  destruct H as (result & Hrun & Hc & _).
  { repeat constructor. }
  exists result. split; [exact Hrun|].
  assert (Hr : Ok result = Ok [mkInferBatch [[5; 6]; []] [VList [5; 6]; VList []] [0; 1]%nat;
                               mkInferBatch [[7]] [VList [7]] [2%nat]]).
  { rewrite <- Hrun. vm_compute. reflexivity. }
  injection Hr as ->. split; [reflexivity|]. split; [reflexivity|exact Hc].
Defined.

(** ** [sequence_mask] *)

Section SequenceMask.

Lemma omap_fmap_Some {A B C} (h : B → option C) (f : A → B) (k : A → C) (xs : list A) :
  (∀ x, x ∈ xs → h (f x) = Some (k x)) → omap h (f <$> xs) = k <$> xs.
Proof.
  induction xs as [|x xs IH]; intros H; [done|].
  rewrite !fmap_cons. cbn [omap list_omap]. rewrite H by (apply elem_of_cons; by left).
  rewrite IH; [done|]. intros y Hy. apply H. apply elem_of_cons. by right.
Qed.

Lemma transpose_fmap {A B C} (g : A → B → C) (xs : list A) (ys : list B) :
  transpose (length ys) ((fun x => g x <$> ys) <$> xs) =
    (fun y => (fun x => g x y) <$> xs) <$> ys.
Proof.
  unfold transpose. apply list_eq. intros j. rewrite !list_lookup_fmap.
  destruct (ys !! j) as [y|] eqn:Hy; simpl.
  - rewrite lookup_seq_lt by (by eapply lookup_lt_Some). simpl. f_equal.
    apply omap_fmap_Some. intros x _. by rewrite list_lookup_fmap, Hy.
  - rewrite lookup_seq_ge; [done|]. by apply lookup_ge_None.
Qed.

Lemma cumsum_from_ones l : ∀ acc,
  cumsum_from acc (replicate l 1) = (fun j => acc + (Z.of_nat j + 1)) <$> seq 0 l.
Proof.
  induction l as [|l IH]; intros acc; [done|].
  simpl. f_equal; try lia. rewrite IH, <- fmap_S_seq, <- list_fmap_compose.
  apply list_fmap_ext. intros i x _. simpl. lia.
Qed.

Lemma foldl_max_upper x rest :
  x ≤ foldl Z.max x rest ∧ Forall (fun m => m ≤ foldl Z.max x rest) rest ∧
  foldl Z.max x rest ∈ x :: rest.
Proof.
  revert x. induction rest as [|y rest IH]; intros x; simpl.
  - split; [lia|]. split; [constructor|]. apply elem_of_cons. by left.
  - destruct (IH (Z.max x y)) as (H1 & H2 & H3). split; [lia|]. split.
    + constructor; [lia|done].
    + apply elem_of_cons in H3 as [H3|H3].
      * rewrite H3. destruct (Z.max_spec x y) as [[_ ->]|[_ ->]].
        -- apply elem_of_cons. right. apply elem_of_cons. by left.
        -- apply elem_of_cons. by left.
      * apply elem_of_cons. right. apply elem_of_cons. by right.
Qed.

Lemma foldl_max_unique x rest n :
  n ∈ x :: rest → (∀ m, m ∈ x :: rest → m ≤ n) → foldl Z.max x rest = n.
Proof.
  intros Hn Hub. destruct (foldl_max_upper x rest) as (H1 & H2 & H3).
  apply Z.le_antisymm; [by apply Hub|].
  apply elem_of_cons in Hn as [->|Hn]; [done|].
  rewrite Forall_forall in H2. by apply H2.
Qed.

Lemma sequence_mask_closed x rest :
  0 ≤ foldl Z.max x rest →
  sequence_mask (x :: rest) =
    Ok (mask_row (Z.to_nat (foldl Z.max x rest)) <$> (x :: rest)).
Proof.
  intros Hl. unfold sequence_mask.
  rewrite (proj2 (Z.ltb_ge _ _)) by done.
  set (lengths := x :: rest). set (l := Z.to_nat (foldl Z.max x rest)).
  f_equal. unfold cumsum, ones. rewrite fmap_replicate, cumsum_from_ones.
  rewrite <- (length_seq l 0) at 1.
  erewrite <- (const_fmap (fun _ : Z => _) lengths) by done.
  rewrite (transpose_fmap (fun (_ : Z) j => 0 + (Z.of_nat j + 1))).
  rewrite <- list_fmap_compose.
  erewrite (list_fmap_ext _ (fun j => (fun n => Z.of_nat j + 1 <=? n) <$> lengths)).
  - by rewrite (transpose_fmap (fun j n => Z.of_nat j + 1 <=? n)).
  - intros i j _. simpl. rewrite zip_with_fmap_l, zip_with_diag. done.
Qed.

End SequenceMask.

(** X13.  [sequence_mask(lengths)] raises [ValueError] for an empty list
    and for a list whose greatest entry is negative; otherwise row [b] of
    the mask has as many entries as the greatest length, and entry [j] is
    [True] exactly when [j + 1 <= lengths[b]]. *)
Theorem sequence_mask_entries (lengths : list Z) :
  (lengths = [] → sequence_mask lengths = Raise ValueError) ∧
  (∀ n, n ∈ lengths → (∀ m, m ∈ lengths → m ≤ n) →
     if n <? 0 then sequence_mask lengths = Raise ValueError
     else sequence_mask lengths =
            Ok ((fun m => (fun j => Z.of_nat j + 1 <=? m) <$> seq 0 (Z.to_nat n)) <$> lengths)).
Proof.
  split; [by intros ->|]. intros n Hn Hub.
  destruct lengths as [|x rest]; [by apply elem_of_nil in Hn|].
  pose proof (foldl_max_unique x rest n Hn Hub) as Hmax.
  destruct (n <? 0) eqn:H0.
  - unfold sequence_mask. by rewrite Hmax, H0.
  - apply Z.ltb_ge in H0. rewrite sequence_mask_closed by lia. by rewrite Hmax.
Qed.

(** Lengths 1, 3 and 2. *)
Lemma sequence_mask_entries_witness :
  sequence_mask [1; 3; 2] =
    Ok [[true; false; false]; [true; true; true]; [true; true; false]].
Proof.
  destruct (sequence_mask_entries [1; 3; 2]) as [_ H].
  specialize (H 3). simpl in H. apply H.
  - apply (bool_decide_unpack _). by vm_compute.
  - intros m Hm. apply (bool_decide_unpack _) . revert m Hm.
    apply Forall_forall. repeat constructor; by vm_compute.
Defined.

(** ** The mask of a training batch *)

(** X14.  For a batch emitted when the sentences are visited from the
    shortest to the longest, [sequence_mask(batch_len)] has the shape of
    [batch_snt], and wherever the mask is [False] the row holds the padding
    index. *)
Theorem batch_mask_covers_padding
    (self : Dataset) (argsort : list Z → list nat)
    (draws : list nat) (result : list batch) (rest : list nat) :
  ascending self (argsort (len <$> corpus self)) →
  build_batchs self argsort draws = Done result rest →
  ∀ b, b ∈ result →
    ∃ mask, sequence_mask (b_len b) = Ok mask ∧
      length mask = length (b_snt b) ∧
      ∀ k row mrow, b_snt b !! k = Some row → mask !! k = Some mrow →
        length mrow = length row ∧
        ∀ j, mrow !! j = Some false → row !! j = Some (idx_pad self).
Proof.
  intros Hasc Hrun b Hb.
  pose proof (build_batchs_rows self _ _ _ _ Hasc Hrun) as Hall.
  rewrite Forall_forall in Hall. destruct (Hall _ Hb) as (w & Hrows & Hlast).
  assert (Hmax : ∀ m, m ∈ b_len b → m ≤ Z.of_nat w).
  { intros m [k Hk]%list_elem_of_lookup.
    destruct (Forall3_lookup_r _ _ _ _ _ _ Hrows Hk) as (wrd & row & _ & _ & Hrow).
    destruct Hrow as (toks & i & _ & _ & _ & Hn & _). lia. }
  destruct (b_len b) as [|x lens] eqn:Hlens; [done|].
  assert (Hw : foldl Z.max x lens = Z.of_nat w).
  { apply foldl_max_unique; [|done]. by apply last_Some_elem_of. }
  rewrite sequence_mask_closed by lia. rewrite Hw, Nat2Z.id.
  eexists. split; [done|]. split.
  { rewrite length_fmap. symmetry.
    rewrite <- (Forall3_length_lm _ _ _ _ Hrows). exact (Forall3_length_lr _ _ _ _ Hrows). }
  intros k row mrow Hr Hm.
  apply list_lookup_fmap_Some in Hm as (n & -> & Hn).
  destruct (Forall3_lookup_m _ _ _ _ _ _ Hrows Hr) as (wrd & n' & _ & Hn' & Hrow).
  rewrite Hn in Hn'. injection Hn' as <-.
  pose proof (row_of_length _ _ _ _ _ Hrow) as Hlen.
  split; [unfold mask_row; by rewrite length_fmap, length_seq|].
  intros j Hj. unfold mask_row in Hj.
  apply list_lookup_fmap_Some in Hj as (j' & Hle & Hj').
  apply lookup_seq in Hj' as [-> Hjw]. simpl in Hle.
  symmetry in Hle. apply Z.leb_gt in Hle.
  destruct Hrow as (toks & i & _ & Hi & -> & Hn1 & ->).
  assert (Hd : length (delete i toks) = Z.to_nat (len toks - 1)).
  { rewrite length_delete by done. unfold len. lia. }
  rewrite lookup_app_r by lia. apply lookup_replicate_2. lia.
Qed.

(** [two_sentences]: the masks of the two batches. *)
Lemma batch_mask_covers_padding_witness :
  ∃ result rest,
    build_batchs two_sentences in_order [] = Done result rest ∧
    (sequence_mask ∘ b_len) <$> result =
      [Ok [[true; false]; [true; false]; [true; true]]; Ok [[true; true]; [true; true]]] ∧
    ∀ b, b ∈ result →
      ∃ mask, sequence_mask (b_len b) = Ok mask ∧ length mask = length (b_snt b).
Proof.
  eexists _, _. split; [vm_compute; reflexivity|]. split; [reflexivity|].
  intros b Hb.
  destruct (batch_mask_covers_padding two_sentences in_order [] _ []
              two_sentences_ascending ltac:(vm_compute; reflexivity) b Hb)
    as (mask & Hm & Hlen & _).
  by exists mask.
Defined.

(** ** Checkpoint names: the digits of a step count *)

Section StepNames.

Lemma string_app_nil_r (s : string) : s +:+ "" = s.
Proof. induction s as [|c s IH]; [done|]. app_step. by rewrite IH. Qed.

Lemma string_length_app (a b : string) :
  String.length (a +:+ b) = (String.length a + String.length b)%nat.
Proof. induction a as [|x a IH]; [done|]. app_step. simpl. by rewrite IH. Qed.

Lemma pretty_N_go_app x : ∀ s, pretty_N_go x s = pretty_N_go x "" +:+ s.
Proof.
  induction (N.lt_wf_0 x) as [x _ IH]; intros s.
  assert (x = 0 ∨ 0 < x)%N as [->|Hx] by lia; [done|].
  rewrite (pretty_N_go_step x s), (pretty_N_go_step x "") by done.
  assert (Hlt : (x `div` 10 < x)%N) by (by apply N.div_lt).
  rewrite (IH _ Hlt (String (pretty_N_char (x `mod` 10)) s)).
  rewrite (IH _ Hlt (String (pretty_N_char (x `mod` 10)) "")).
  by rewrite string_app_assoc.
Qed.

Lemma zeros_S k : zeros (S k) = zeros k +:+ "0".
Proof.
  induction k as [|k IH]; [done|].
  change (zeros (S (S k))) with (String "0" (zeros (S k))). rewrite IH at 1. reflexivity.
Qed.

Lemma zeros_length k : String.length (zeros k) = k.
Proof. unfold zeros. induction k as [|k IH]; [done|]. simpl. by rewrite IH. Qed.

Lemma digits_length k : ∀ x, String.length (digits k x) = k.
Proof.
  induction k as [|k IH]; intros x; [done|].
  cbn [digits]. rewrite string_length_app, IH. simpl. lia.
Qed.

Lemma pretty_N_go_digits k : ∀ x,
  (x < 10 ^ N.of_nat k)%N →
  (String.length (pretty_N_go x "") ≤ k)%nat ∧
  zeros (k - String.length (pretty_N_go x "")) +:+ pretty_N_go x "" = digits k x.
Proof.
  induction k as [|k IH]; intros x Hx.
  - assert (x = 0%N) as -> by (simpl in Hx; lia). done.
  - assert (x = 0 ∨ 0 < x)%N as [->|Hpos] by lia.
    + rewrite pretty_N_go_0. simpl String.length. split; [lia|].
      rewrite Nat.sub_0_r, string_app_nil_r, zeros_S. cbn [digits].
      destruct (IH 0%N) as [_ H0].
      { assert (10 ^ N.of_nat k ≠ 0)%N by (apply N.pow_nonzero; lia). lia. }
      rewrite pretty_N_go_0 in H0. simpl String.length in H0.
      rewrite Nat.sub_0_r, string_app_nil_r in H0.
      change (0 `div` 10)%N with 0%N. by rewrite <- H0.
    + rewrite pretty_N_go_step by done. rewrite pretty_N_go_app.
      destruct (IH (x `div` 10)%N) as [Hl Hd].
      { apply N.Div0.div_lt_upper_bound.
        replace (N.of_nat (S k)) with (N.succ (N.of_nat k)) in Hx by lia.
        rewrite N.pow_succ_r' in Hx. lia. }
      rewrite string_length_app. simpl String.length. split; [lia|].
      replace (S k - (String.length (pretty_N_go (x `div` 10) "") + 1))%nat
        with (k - String.length (pretty_N_go (x `div` 10) ""))%nat by lia.
      rewrite <- string_app_assoc, Hd. done.
Qed.

Lemma fmt09_digits n : 0 ≤ n < 10 ^ 9 → fmt09 n = digits 9 (Z.to_N n).
Proof.
  intros Hn. unfold fmt09. rewrite (proj2 (Z.ltb_ge _ _)) by lia.
  replace (Z.abs_N n) with (Z.to_N n) by lia.
  unfold pretty, pretty_N. case_decide as H0.
  - rewrite H0. reflexivity.
  - destruct (pretty_N_go_digits 9 (Z.to_N n)) as [_ Hd]; [lia|]. exact Hd.
Qed.

End StepNames.

(** ** Checkpoint names: order *)

Section StepOrder.

Lemma string_compare_app_same_length s1 : ∀ s2 t1 t2,
  String.length s1 = String.length s2 →
  String.compare (s1 +:+ t1) (s2 +:+ t2) =
    match String.compare s1 s2 with
    | Eq => String.compare t1 t2
    | r => r
    end.
Proof.
  induction s1 as [|c1 s1 IH]; intros [|c2 s2] t1 t2 Hl; try done.
  app_step. simpl. destruct (Ascii.compare c1 c2); [|done..].
  apply IH. simpl in Hl. lia.
Qed.

Lemma string_compare_refl s : String.compare s s = Eq.
Proof. induction s as [|c s IH]; simpl; [done|]. by rewrite ascii_compare_refl. Qed.

Lemma digit_code a : (a < 10)%N → N_of_ascii (pretty_N_char a) = (48 + a)%N.
Proof.
  intros Ha.
  assert (a = 0 ∨ a = 1 ∨ a = 2 ∨ a = 3 ∨ a = 4 ∨ a = 5 ∨ a = 6 ∨ a = 7
          ∨ a = 8 ∨ a = 9)%N as H by lia.
  repeat (destruct H as [->|H]; [reflexivity|]). by subst a.
Qed.

Lemma digit_compare a b :
  (a < 10)%N → (b < 10)%N →
  Ascii.compare (pretty_N_char a) (pretty_N_char b) = (a ?= b)%N.
Proof.
  intros Ha Hb. unfold Ascii.compare. rewrite !digit_code by done.
  destruct (N.compare_spec a b) as [Heq|Hlt|Hgt].
  - apply N.compare_eq_iff. lia.
  - apply N.compare_lt_iff. lia.
  - apply N.compare_gt_iff. lia.
Qed.

Lemma digits_compare k : ∀ a b,
  (a < 10 ^ N.of_nat k)%N → (b < 10 ^ N.of_nat k)%N →
  String.compare (digits k a) (digits k b) = (a ?= b)%N.
Proof.
  induction k as [|k IH]; intros a b Ha Hb.
  - simpl in Ha, Hb. assert (a = 0%N) as -> by lia. assert (b = 0%N) as -> by lia. done.
  - replace (N.of_nat (S k)) with (N.succ (N.of_nat k)) in Ha, Hb by lia.
    rewrite N.pow_succ_r' in Ha, Hb.
    cbn [digits]. rewrite string_compare_app_same_length by (by rewrite !digits_length).
    rewrite IH by (apply N.Div0.div_lt_upper_bound; lia).
    pose proof (N.div_mod a 10 ltac:(lia)) as Hda.
    pose proof (N.div_mod b 10 ltac:(lia)) as Hdb.
    pose proof (N.mod_lt a 10 ltac:(lia)) as Hma.
    pose proof (N.mod_lt b 10 ltac:(lia)) as Hmb.
    simpl String.compare. rewrite digit_compare by done.
    generalize dependent (a `div` 10)%N. generalize dependent (a `mod` 10)%N.
    generalize dependent (b `div` 10)%N. generalize dependent (b `mod` 10)%N.
    intros rb Hmb qb Hdb ra Hma qa Hda. clear IH.
    destruct (N.compare_spec qa qb) as [Heq|Hlt|Hgt].
    + destruct (N.compare_spec ra rb) as [Heq'|Hlt'|Hgt']; symmetry.
      * apply N.compare_eq_iff. lia.
      * apply N.compare_lt_iff. lia.
      * apply N.compare_gt_iff. lia.
    + symmetry. apply N.compare_lt_iff. lia.
    + symmetry. apply N.compare_gt_iff. lia.
Qed.

Lemma substring_app_l s : ∀ n t,
  String.length s = n → substring 0 n (s +:+ t) = s.
Proof.
  induction s as [|c s IH]; intros n t Hn.
  - simpl in Hn. subst n. by destruct t.
  - simpl in Hn. subst n. app_step. simpl. by rewrite IH.
Qed.

Lemma substring_app_r s : ∀ n m t,
  String.length s = n → substring n m (s +:+ t) = substring 0 m t.
Proof.
  induction s as [|c s IH]; intros n m t Hn.
  - simpl in Hn. by subst n.
  - simpl in Hn. subst n. app_step. simpl. by apply IH.
Qed.

Lemma no_slash_digits k : ∀ x, no_slash (digits k x) = true.
Proof.
  unfold no_slash. induction k as [|k IH]; intros x; [done|].
  cbn [digits]. rewrite list_ascii_of_string_app, forallb_app, IH. simpl.
  rewrite andb_true_r. apply negb_true_iff, Ascii.eqb_neq.
  unfold pretty_N_char. by repeat case_match.
Qed.

Lemma ckpt_name_is_ckpt pattern steps :
  0 ≤ steps < 10 ^ 9 → is_ckpt pattern (ckpt_name pattern steps) = true.
Proof.
  intros Hs. unfold ckpt_name. rewrite is_ckpt_app, fmt09_digits by done.
  unfold is_ckpt. change (strip_prefix _ _) with (Some (digits 9 (Z.to_N steps) +:+ ".pth")).
  cbv beta iota. rewrite string_length_app, digits_length.
  rewrite substring_app_l by apply digits_length.
  rewrite substring_app_r by apply digits_length.
  by rewrite no_slash_digits.
Qed.

Lemma ckpt_name_compare pattern a b :
  0 ≤ a < 10 ^ 9 → 0 ≤ b < 10 ^ 9 →
  String.compare (ckpt_name pattern a) (ckpt_name pattern b) = (a ?= b).
Proof.
  intros Ha Hb. unfold ckpt_name.
  rewrite string_compare_app, (string_compare_app ".model.").
  rewrite !fmt09_digits by done.
  rewrite string_compare_app_same_length by (by rewrite !digits_length).
  rewrite digits_compare by lia.
  rewrite Z2N.inj_compare by lia. destruct (a ?= b); reflexivity.
Qed.

Lemma ckpt_name_leb pattern a b :
  0 ≤ a < 10 ^ 9 → 0 ≤ b < 10 ^ 9 →
  String.leb (ckpt_name pattern a) (ckpt_name pattern b) = (a <=? b).
Proof.
  intros Ha Hb. unfold String.leb, Z.leb. by rewrite ckpt_name_compare.
Qed.

Lemma ckpt_name_inj pattern a b :
  0 ≤ a < 10 ^ 9 → 0 ≤ b < 10 ^ 9 →
  ckpt_name pattern a = ckpt_name pattern b → a = b.
Proof.
  intros Ha Hb Heq. apply Z.compare_eq.
  rewrite <- (ckpt_name_compare pattern) by done.
  rewrite Heq. apply string_compare_refl.
Qed.

End StepOrder.

(** X15.  For step counts from 0 to 999,999,999 the name
    [save_model_optim] writes to is matched by the pattern of
    [load_model_optim], different steps give different names, and the
    names sort as the steps do. *)
Theorem checkpoint_names_sort_by_step (pattern : string) (a b : Z) :
  literal pattern = true → 0 ≤ a < 10 ^ 9 → 0 ≤ b < 10 ^ 9 →
  is_ckpt pattern (ckpt_name pattern a) = true ∧
  String.leb (ckpt_name pattern a) (ckpt_name pattern b) = (a <=? b) ∧
  (ckpt_name pattern a = ckpt_name pattern b → a = b).
Proof.
  intros _ Ha Hb. split; [by apply ckpt_name_is_ckpt|].
  split; [by apply ckpt_name_leb|by apply ckpt_name_inj].
Qed.

(** Steps 999 and 1000. *)
Lemma checkpoint_names_sort_by_step_witness :
  is_ckpt "w2v" "w2v.model.000000999.pth" = true ∧
  String.leb "w2v.model.000000999.pth" "w2v.model.000001000.pth" = true ∧
  String.leb "w2v.model.000001000.pth" "w2v.model.000000999.pth" = false.
Proof.
  destruct (checkpoint_names_sort_by_step "w2v" 999 1000) as (H1 & H2 & _);
    [reflexivity|lia|lia|].
  destruct (checkpoint_names_sort_by_step "w2v" 1000 999) as (_ & H3 & _);
    [reflexivity|lia|lia|].
  split; [exact H1|]. split; [exact H2|exact H3].
Defined.

(** ** Checkpoints: saving, pruning and loading *)

Section Rotation.

Variables M O : Type.
Variable pattern : string.

Local Abbreviation name := (ckpt_name pattern).
Local Abbreviation files_of := (ckpt_files M O pattern).
Local Abbreviation save := (save_model_optim M O pattern).
Local Abbreviation load := (load_model_optim M O pattern).

Lemma insert_last steps js :
  steps < 10 ^ 9 → Forall (fun j => 0 ≤ j < steps) js →
  ¬ (name steps ∈ name <$> js) ∧
  insert_sorted String.leb (name steps) (name <$> js) = name <$> (js ++ [steps]).
Proof.
  intros Hs. induction 1 as [|j js Hj Hjs [IH1 IH2]].
  - split; [apply not_elem_of_nil|done].
  - rewrite !fmap_cons. split.
    + apply not_elem_of_cons. split; [|done].
      intros Heq%ckpt_name_inj; lia.
    + cbn [insert_sorted]. rewrite ckpt_name_leb by lia.
      rewrite (proj2 (Z.leb_gt _ _)) by lia. by rewrite IH2.
Qed.

Lemma files_insert_other disk f c :
  is_ckpt pattern f = false → files_of (<[f := c]> disk) = files_of disk.
Proof.
  intros Hf. apply (files_unique M O pattern).
  - apply files_nodup.
  - apply files_sorted.
  - intros g. rewrite (elem_of_files M O pattern). unfold on_disk.
    split; intros [Hl Hc]; (split; [|done]).
    + rewrite lookup_insert_ne; [done|]. intros ->. congruence.
    + rewrite lookup_insert_ne in Hl; [done|]. intros ->. congruence.
Qed.

Lemma pretty_N_go_long k : ∀ x,
  (10 ^ N.of_nat k ≤ x)%N → (k < String.length (pretty_N_go x ""))%nat.
Proof.
  induction k as [|k IH]; intros x Hx.
  - simpl in Hx. rewrite pretty_N_go_step, pretty_N_go_app by lia.
    rewrite string_length_app. simpl. lia.
  - replace (N.of_nat (S k)) with (N.succ (N.of_nat k)) in Hx by lia.
    rewrite N.pow_succ_r' in Hx.
    assert (10 ^ N.of_nat k ≠ 0)%N by (apply N.pow_nonzero; lia).
    rewrite pretty_N_go_step, pretty_N_go_app by lia.
    rewrite string_length_app. simpl.
    assert (k < String.length (pretty_N_go (x `div` 10) ""))%nat; [|lia].
    apply IH. apply N.div_le_lower_bound; lia.
Qed.

Lemma ckpt_name_too_long steps :
  10 ^ 9 ≤ steps → is_ckpt pattern (name steps) = false.
Proof.
  intros Hs. unfold ckpt_name. rewrite is_ckpt_app.
  unfold is_ckpt. change (strip_prefix _ _) with (Some (fmt09 steps +:+ ".pth")).
  cbv beta iota. rewrite string_length_app.
  assert (Hl : (9 < String.length (fmt09 steps))%nat).
  { unfold fmt09. rewrite (proj2 (Z.ltb_ge _ _)) by lia.
    rewrite string_length_app. unfold pretty, pretty_N.
    rewrite decide_False by lia.
    pose proof (pretty_N_go_long 9 (Z.abs_N steps) ltac:(lia)). lia. }
  rewrite (proj2 (Nat.eqb_neq _ _)); [done|]. simpl. lia.
Qed.

End Rotation.







(** X19.  From step 1,000,000,000 on the file written has ten digits:
    it stays on the disk, but the nine-character pattern does not match
    it, so it is never pruned and never loaded. *)
Theorem checkpoint_beyond_nine_digits
    (M O : Type) (pattern : string) (model0 model1 : M) (optimizer0 optimizer1 : O)
    (steps keep_last_n : Z) (disk : gmap string (checkpoint M O)) :
  literal pattern = true → 10 ^ 9 ≤ steps →
  let disk' := save_model_optim M O pattern model1 optimizer1 steps keep_last_n disk in
  disk' !! ckpt_name pattern steps = Some (mkCheckpoint M O steps optimizer1 model1) ∧
  ¬ (ckpt_name pattern steps ∈ ckpt_files M O pattern disk') ∧
  (ckpt_files M O pattern disk = [] →
   load_model_optim M O pattern model0 optimizer0 disk' = Ok (0, model0, optimizer0)).
Proof.
  intros _ Hs disk'.
  pose proof (ckpt_name_too_long pattern steps Hs) as Hc.
  assert (Hnot : ∀ d, ¬ (ckpt_name pattern steps ∈ ckpt_files M O pattern d)).
  { intros d [_ Hin]%(elem_of_files M O pattern). congruence. }
  split; [|split; [apply Hnot|]].
  - unfold disk', save_model_optim. fold (ckpt_name pattern steps).
    rewrite remove_oldest_lookup; [by rewrite lookup_insert_eq|].
    intros Hin%elem_of_take. destruct Hin as (n & Hn & _).
    apply list_elem_of_lookup_2 in Hn. by apply Hnot in Hn.
  - intros Hnil. apply load_none.
    unfold disk', save_model_optim. fold (ckpt_name pattern steps).
    rewrite (remove_oldest_files M O pattern _ _ _ eq_refl).
    rewrite files_insert_other by done. by rewrite Hnil, drop_nil.
Qed.

(** A save at step 1,000,000,000. *)
Lemma checkpoint_beyond_nine_digits_witness :
  save_model_optim Z Z "w2v" 41 42 1000000000 3 other_disk !! "w2v.model.1000000000.pth"
    = Some (mkCheckpoint Z Z 1000000000 42 41) ∧
  load_model_optim Z Z "w2v" 7 8 (save_model_optim Z Z "w2v" 41 42 1000000000 3 other_disk)
    = Ok (0, 7, 8).
Proof.
  destruct (checkpoint_beyond_nine_digits Z Z "w2v" 7 41 8 42 1000000000 3 other_disk)
    as (Hl & _ & Hload); [reflexivity|lia|].
  split; [exact Hl|]. apply Hload. vm_compute. reflexivity.
Defined.

Section LoadNewest.

Variables M O : Type.
Variable pattern : string.

Lemma last_upper_bound l f :
  StronglySorted str_le l → last l = Some f → ∀ g, g ∈ l → str_le g f.
Proof.
  intros Hs [l' ->]%last_Some g Hg.
  apply elem_of_app in Hg as [Hg|Hg%list_elem_of_singleton].
  - apply list_elem_of_lookup in Hg as [i Hi].
    pose proof (lookup_lt_Some _ _ _ Hi) as Hlt.
    apply (StronglySorted_lookup str_le (l' ++ [f]) i (length l') g f Hs Hlt).
    + by rewrite lookup_app_l.
    + by rewrite lookup_app_r, Nat.sub_diag.
  - subst g. unfold str_le. destruct (String.leb_total f f); done.
Qed.

End LoadNewest.


(** ** Text sidecars and score thresholds *)

Section Sidecar.

Variable F : Type.
Variable float32 : string → option F.
Variable renorm : list F → F → F.

Lemma Infile_init_vectors file lines d norm file_str :
  Forall (fun l => cell_count l = resolved d lines) lines →
  numeric F float32 lines →
  ∃ log vec,
    length vec = length lines ∧
    Infile_init F float32 renorm file lines d norm file_str =
      match file_str with
      | None => (log, Ok (mkInfile F file vec [] (resolved d lines)))
      | Some (fstr, slines) =>
          let txt := rstrip <$> slines in
          let log := log ++ [LogRecord INFO "Read {} strings in {}"
                               [VInt (len txt); VStr fstr]] in
          if negb (len txt =? len vec) then
            (log ++ [diff_entries file fstr (len vec) (len txt)], Raise SystemExit)
          else (log, Ok (mkInfile F file vec txt (resolved d lines)))
      end.
Proof.
  intros Hall Hnum.
  destruct (read_cells_resolved file lines d)
    as [[_ Hr]|(pre & l & post & -> & Hpre & Hl & Hr)].
  - unfold Infile_init, load_vectors. rewrite Hr.
    destruct (astype_float32_shape F float32 _ lines Hnum Hall) as (vec0 & -> & Hlen & Hw).
    eexists _, (if norm then normalize_L2 F renorm vec0 else vec0). split.
    + destruct norm; [|done].
      destruct (normalize_L2_shape F renorm _ vec0 Hw) as [H1 _]. congruence.
    + destruct file_str as [[fstr slines]|]; reflexivity.
  - apply Forall_app in Hall as [_ Hall]. apply Forall_cons in Hall as [Hl' _]. done.
Qed.

End Sidecar.

(** X21.  For a vector file that loads, a text file with another number
    of lines ends [Infile(...)] with the error naming both counts and both
    files, logged last; a text file with as many lines as vectors gives
    [txt], one right-stripped line per vector. *)
Theorem infile_sidecar_line_count
    (F : Type) (float32 : string → option F) (renorm : list F → F → F)
    (file : string) (lines : list string) (d : Z) (norm : bool)
    (fstr : string) (slines : list string) :
  lines ≠ [] →
  Forall (fun l => cell_count l = resolved d lines) lines →
  numeric F float32 lines →
  ∃ log,
    (length slines ≠ length lines →
     Infile_init F float32 renorm file lines d norm (Some (fstr, slines)) =
       (log ++ [diff_entries file fstr (len lines) (len slines)], Raise SystemExit)) ∧
    (length slines = length lines →
     ∃ inf, Infile_init F float32 renorm file lines d norm (Some (fstr, slines)) =
              (log, Ok inf) ∧
            txt F inf = rstrip <$> slines ∧ length (txt F inf) = length (vec F inf)).
Proof.
  intros _ Hall Hnum.
  destruct (Infile_init_vectors F float32 renorm file lines d norm
              (Some (fstr, slines)) Hall Hnum) as (log & vec & Hlen & ->).
  cbv zeta.
  exists (log ++ [LogRecord INFO "Read {} strings in {}"
                    [VInt (len (rstrip <$> slines)); VStr fstr]]).
  split.
  - intros Hne. rewrite (proj2 (Z.eqb_neq _ _)).
    + simpl. unfold len. by rewrite length_fmap, Hlen.
    + unfold len. rewrite length_fmap. lia.
  - intros Heq. rewrite (proj2 (Z.eqb_eq _ _)).
    + simpl. eexists. split; [done|]. simpl. split; [done|].
      rewrite length_fmap. lia.
    + unfold len. rewrite length_fmap. lia.
Qed.

(** Three vectors and a text file of two lines. *)
Lemma infile_sidecar_line_count_witness :
  ∃ log,
    Infile_init Z read_number (fun _ x => x) "db.vec" three_by_two 0 false
      (Some ("db.txt", sidecar_short)) =
      (log ++ [diff_entries "db.vec" "db.txt" 3 2], Raise SystemExit).
Proof.
  destruct (infile_sidecar_line_count Z read_number (fun _ x => x) "db.vec" three_by_two
              0 false "db.txt" sidecar_short) as (log & Hbad & _).
  - discriminate.
  - repeat constructor.
  - repeat constructor; by eexists.
  - exists log. apply Hbad. simpl. lia.
Defined.

Section Threshold.

Variable F : Type.
Variable flt : F → F → bool.
Variable Index : Type.
Variable search : Index → list (list F) → Z → list (list F) * list (list Z).

Local Abbreviation all_kept := (all_kept F flt Index).

Lemma getitem_list_elem {A} (l : list A) i x : getitem_list l i = Ok x → x ∈ l.
Proof.
  unfold getitem_list. destruct (_ <? 0); [done|].
  destruct (l !! _) as [y|] eqn:Hy; [|done]. intros [= <-].
  by eapply list_elem_of_lookup_2.
Qed.

Lemma candidate_kept self D row min_score skip i_query j r r' :
  all_kept self min_score r →
  candidate F flt Index self D row min_score skip i_query j r = Ok r' →
  all_kept self min_score r'.
Proof.
  intros Hr. unfold candidate.
  destruct (getitem_list row _) as [i_db|]; [|done]. simpl.
  destruct (getitem_list D _) as [Drow|]; [|done]. simpl.
  destruct (getitem_list Drow _) as [score|]; [|done]. simpl.
  destruct (flt score min_score) eqn:Hs; [by intros [= <-]|].
  destruct (skip && _); [by intros [= <-]|].
  destruct (getitem_list (refs F r) _) as [ref|]; [|done]. simpl.
  destruct (self_curr_db F Index self) as [c|] eqn:Hc; [|done]. simpl.
  destruct (getitem_list (txt F c) i_db) as [key|] eqn:Hk; [|done]. simpl.
  intros [= <-]. intros ref' m key' score'. simpl.
  rewrite lookup_insert. case_decide as Href.
  - intros [= <-]. rewrite lookup_insert. case_decide as Hkey.
    + intros [= <-]. subst key'. split; [done|]. exists c. split; [done|].
      by eapply getitem_list_elem.
    + destruct (store F r !! ref) as [m0|] eqn:Hm0; simpl; [|by rewrite lookup_empty].
      by apply (Hr ref).
  - by apply Hr.
Qed.

Lemma query_db_kept self query k min_score skip i_db r r' :
  all_kept self min_score r →
  query_db F flt Index search self query k min_score skip i_db r = Ok r' →
  all_kept self min_score r'.
Proof.
  intros Hr. unfold query_db.
  destruct (getitem_list (self_db F Index self) _); [|done]. simpl.
  destruct (getitem_list (self_index F Index self) _) as [curr_index|]; [|done]. simpl.
  destruct (search curr_index _ _) as [D I_].
  destruct (negb (len D =? len I_)); [done|].
  destruct (negb (len D =? _)); [done|].
  apply for_range_invariant; [done|].
  intros i s s' Hs. destruct (getitem_list I_ _) as [row|]; [|done]. simpl.
  apply for_range_invariant; [done|].
  intros j s1 s2. apply candidate_kept.
Qed.

Lemma Query_kept self query k min_score skip r :
  Query F flt Index search self query k min_score skip = Ok r →
  all_kept self min_score r.
Proof.
  unfold Query. apply for_range_invariant.
  - intros ref m key score. unfold new_results. simpl.
    rewrite lookup_singleton_Some. intros [_ <-]. by rewrite lookup_empty.
  - intros i s s'. apply query_db_kept.
Qed.

End Threshold.

(** X22.  Whenever [Query] returns, no score in the mappings is below
    [min_score], and every key is a text of [self.curr_db]. *)
Theorem query_keeps_scores_above_threshold
    (F : Type) (flt : F → F → bool) (Index : Type)
    (search : Index → list (list F) → Z → list (list F) * list (list Z))
    (self : IndexFaiss F Index) (query : Infile F) (k : Z) (min_score : F)
    (skip_same_id : bool) (r : results F) :
  Query F flt Index search self query k min_score skip_same_id = Ok r →
  ∀ m key score, m ∈ mappings F r → m !! key = Some score →
    flt score min_score = false ∧
    ∃ c, self_curr_db F Index self = Some c ∧ key ∈ txt F c.
Proof.
  intros Hq m key score Hm Hk.
  pose proof (Query_kept F flt Index search _ _ _ _ _ _ Hq) as Hall.
  unfold mappings in Hm. apply list_elem_of_fmap in Hm as (ref & -> & _).
  destruct (store F r !! ref) as [m0|] eqn:Hm0; simpl in Hk.
  - exact (Hall ref m0 key score Hm0 Hk).
  - by rewrite lookup_empty in Hk.
Qed.

(** Scores 9 and 3 against a threshold of 5. *)
Lemma query_keeps_scores_above_threshold_witness :
  ∃ r, Query Q qlt unit two_hits with_curr_db two_vectors 2 (5 # 1) false = Ok r ∧
       mappings Q r = [ {["a" := 9%Q]}; {["a" := 9%Q]} ] ∧
       ∀ m key score, m ∈ mappings Q r → m !! key = Some score →
         qlt score (5 # 1) = false.
Proof.
  eexists. split; [vm_compute; reflexivity|]. split; [vm_compute; reflexivity|].
  intros m key score Hm Hk.
  eapply (query_keeps_scores_above_threshold Q qlt unit two_hits with_curr_db two_vectors
            2 (5 # 1) false); [|exact Hm|exact Hk].
  vm_compute. reflexivity.
Defined.

(** ** The command line: parsing and checks *)

Section Parsing.

Variable F : Type.
Variable to_int : string → option Z.
Variable to_float : string → option F.
Variable is_level : string → bool.
Variable one_half : F.

Local Abbreviation parse := (FaissCli.parse F to_int to_float).
Local Abbreviation main := (FaissCli.main F to_int to_float is_level one_half).
Local Abbreviation mismatched := (mismatched F).

(** Case analysis on the option [tok] along the tests of the loop. *)
Ltac option_cases tok H :=
  repeat match type of H with
         | context [String.eqb tok ?s] =>
             destruct (String.eqb_spec tok s) as [->|?];
             cbn [String.eqb Ascii.eqb Bool.eqb] in H |- *
         end.

Lemma parse_app name n : ∀ pre post o ev o',
  (length pre ≤ n)%nat → parse name pre o = (ev, Ok o') →
  parse name (pre ++ post) o = parse name post o'.
Proof.
  induction n as [|n IH]; intros pre post o ev o' Hlen.
  - destruct pre; [by intros [= _ <-]|simpl in Hlen; lia].
  - destruct pre as [|tok rest]; [by intros [= _ <-]|]. simpl in Hlen.
    assert (Hrest : ∀ o1, parse name rest o1 = (ev, Ok o') →
              parse name (rest ++ post) o1 = parse name post o')
      by (intros o1; apply IH; lia).
    intros H. destruct rest as [|v rest].
    + change ([tok] ++ post) with (tok :: post).
      cbn [FaissCli.parse] in H |- *.
      option_cases tok H; try discriminate H;
        injection H as _ <-; try reflexivity; by destruct post.
    + assert (Hrest' : ∀ o1, parse name rest o1 = (ev, Ok o') →
                parse name (rest ++ post) o1 = parse name post o')
        by (intros o1; apply IH; simpl in Hlen; lia).
      change ((tok :: v :: rest) ++ post) with (tok :: v :: (rest ++ post)).
      change ((v :: rest) ++ post) with (v :: (rest ++ post)) in Hrest.
      set (tail := v :: rest) in *. set (tail' := v :: (rest ++ post)) in *.
      cbn [FaissCli.parse] in H |- *.
      option_cases tok H; try discriminate H; try (by apply Hrest);
        unfold tail in H; unfold tail'; cbv beta iota in H |- *;
        try (by apply Hrest').
      * destruct (to_int v); [by apply Hrest'|discriminate H].
      * destruct (to_float v); [by apply Hrest'|discriminate H].
Qed.

Lemma parse_outcome name n : ∀ argv o,
  (length argv ≤ n)%nat →
  (∃ o', parse name argv o = ([], Ok o')) ∨
  parse name argv o = ([], Raise ValueError) ∨
  parse name argv o = ([Stderr (usage name)], Raise SystemExit) ∨
  (∃ tok, tok ∈ argv ∧
     parse name argv o = ([Stderr (unparsed tok); Stderr (usage name)], Raise SystemExit)).
Proof.
  induction n as [|n IH]; intros argv o Hlen.
  - destruct argv; [left; by eexists|simpl in Hlen; lia].
  - destruct argv as [|tok rest]; [left; by eexists|]. simpl in Hlen.
    assert (Hlift : ∀ l o1, (length l ≤ n)%nat → (∀ x, x ∈ l → x ∈ tok :: rest) →
      (∃ o', parse name l o1 = ([], Ok o')) ∨
      parse name l o1 = ([], Raise ValueError) ∨
      parse name l o1 = ([Stderr (usage name)], Raise SystemExit) ∨
      (∃ t, t ∈ tok :: rest ∧
         parse name l o1 = ([Stderr (unparsed t); Stderr (usage name)], Raise SystemExit))).
    { intros l o1 Hl Hsub. destruct (IH l o1 Hl) as [?|[?|[?|(t & Ht & ?)]]];
        [by left|right; by left|right; right; by left|].
      right; right; right. exists t. split; [by apply Hsub|done]. }
    assert (Hin : ∀ x, x ∈ rest → x ∈ tok :: rest) by (intros; apply elem_of_cons; by right).
    assert (Htok : tok ∈ tok :: rest) by (apply elem_of_cons; by left).
    cbn [FaissCli.parse].
    repeat case_match; subst;
      try (apply Hlift; [simpl in *; lia|
                         intros x Hx; apply elem_of_cons; right; try done;
                         apply elem_of_cons; by right]);
      try (right; left; reflexivity);
      try (right; right; left; reflexivity);
      try (right; right; right; exists tok; split; [done|reflexivity]).
Qed.

Lemma validate_aligned o :
  ¬ mismatched o →
  validate F o =
    ([], Ok (set_fquery_str F
               (if len (fquery_str F o) =? 0
                then replicate (length (fquery F o)) None else fquery_str F o)
               (set_fdb_str F
                  (if len (fdb_str F o) =? 0
                   then replicate (length (fdb F o)) None else fdb_str F o) o))).
Proof.
  intros Hm. unfold validate.
  assert (H1 : fdb F o ≠ []) by (intros H; apply Hm; by left).
  assert (H2 : fquery F o ≠ []) by (intros H; apply Hm; right; by left).
  assert (H3 : fdb_str F o = [] ∨ length (fdb_str F o) = length (fdb F o)).
  { destruct (decide (fdb_str F o = [])) as [?|Hne]; [by left|right].
    destruct (decide (length (fdb_str F o) = length (fdb F o))) as [?|Hl]; [done|].
    destruct Hm. right; right; by left. }
  assert (H4 : fquery_str F o = [] ∨ length (fquery_str F o) = length (fquery F o)).
  { destruct (decide (fquery_str F o = [])) as [?|Hne]; [by left|right].
    destruct (decide (length (fquery_str F o) = length (fquery F o))) as [?|Hl]; [done|].
    destruct Hm. right; right; by right. }
  rewrite (proj2 (Z.eqb_neq _ _)) by (by rewrite len_zero).
  rewrite (proj2 (Z.eqb_neq _ _)) by (by rewrite len_zero).
  destruct o as [db q dbs qs k0 ms s1 s2 e v lf ll].
  cbn [fdb fquery fdb_str fquery_str] in *. cbv zeta.
  assert (Hrep : ∀ (A : Type) (l : list A), len (replicate (length l) (@None string)) = len l).
  { intros A l. unfold len. by rewrite length_replicate. }
  destruct (len dbs =? 0) eqn:E1; destruct (len qs =? 0) eqn:E2;
    cbn [fdb fquery fdb_str fquery_str set_fdb_str set_fquery_str];
    rewrite ?E1, ?E2; cbn [fdb fquery fdb_str fquery_str set_fdb_str set_fquery_str];
    rewrite ?Hrep, ?Z.eqb_refl; cbn [negb].
  - done.
  - apply Z.eqb_neq in E2. rewrite len_zero in E2. destruct H4 as [?|H4]; [done|].
    apply len_eq in H4. by rewrite H4, Z.eqb_refl.
  - apply Z.eqb_neq in E1. rewrite len_zero in E1. destruct H3 as [?|H3]; [done|].
    apply len_eq in H3. by rewrite H3, Z.eqb_refl.
  - apply Z.eqb_neq in E1, E2. rewrite len_zero in E1, E2.
    destruct H3 as [?|H3]; [done|]. destruct H4 as [?|H4]; [done|].
    apply len_eq in H3, H4. by rewrite H3, H4, !Z.eqb_refl.
Qed.

End Parsing.

(** X23.  The options of the command line are applied from left to
    right: when a prefix of the arguments parses, nothing is written and
    parsing the whole line is parsing the rest from the options the prefix
    gave, so a later option replaces an earlier one. *)
Theorem cli_options_apply_in_order
    (F : Type) (to_int : string → option Z) (to_float : string → option F)
    (name : string) (pre post : list string) (o o' : options F) (ev : list event) :
  parse F to_int to_float name pre o = (ev, Ok o') →
  ev = [] ∧
  parse F to_int to_float name (pre ++ post) o = parse F to_int to_float name post o'.
Proof.
  intros H. split.
  - by eapply (parse_ok_quiet F to_int to_float name (length pre)).
  - by eapply (parse_app F to_int to_float name (length pre)).
Qed.

(** [-k 3 -db a.vec -k 5]: the second [-k] wins. *)
Lemma cli_options_apply_in_order_witness :
  ∃ o, parse Q read_number read_float "faiss_cli.py"
         (["-k"; "3"; "-db"; "a.vec"] ++ ["-k"; "5"]) (defaults Q (1 # 2)) = ([], Ok o) ∧
       k Q o = 5 ∧ fdb Q o = ["a.vec"].
Proof.
  destruct (cli_options_apply_in_order Q read_number read_float "faiss_cli.py"
              ["-k"; "3"; "-db"; "a.vec"] ["-k"; "5"] (defaults Q (1 # 2))
              (set_fdb Q ["a.vec"] (set_k Q 3 (defaults Q (1 # 2)))) []) as [_ ->].
  - reflexivity.
  - eexists. split; [reflexivity|]. split; reflexivity.
Defined.

(** X24.  Parsing the command line ends in one of four ways: options
    and nothing written; [ValueError] (a [-k] or [-min_score] that is no
    number) and nothing written; the usage text and exit ([-h]); or the
    "unparsed" line for one of the arguments, the usage text and exit. *)
Theorem cli_parse_outcomes
    (F : Type) (to_int : string → option Z) (to_float : string → option F)
    (name : string) (argv : list string) (o : options F) :
  (∃ o', parse F to_int to_float name argv o = ([], Ok o')) ∨
  parse F to_int to_float name argv o = ([], Raise ValueError) ∨
  parse F to_int to_float name argv o = ([Stderr (usage name)], Raise SystemExit) ∨
  (∃ tok, tok ∈ argv ∧
     parse F to_int to_float name argv o =
       ([Stderr (unparsed tok); Stderr (usage name)], Raise SystemExit)).
Proof. by apply (parse_outcome F to_int to_float name (length argv)). Qed.

(** X25.  The checks of the file lists pass exactly when both lists are
    given and each list of text files is empty or as long as its list of
    vector files; they then write nothing, replace an empty list of text
    files by as many [None] as there are vector files, and leave the other
    options as they are. *)
Theorem cli_checks_accept_aligned_lists (F : Type) (o : options F) :
  ((∃ o', (validate F o).2 = Ok o') ↔ ¬ mismatched F o) ∧
  (∀ ev o', validate F o = (ev, Ok o') →
     ev = [] ∧
     fdb F o' = fdb F o ∧ fquery F o' = fquery F o ∧
     length (fdb_str F o') = length (fdb F o) ∧
     length (fquery_str F o') = length (fquery F o) ∧
     (fdb_str F o ≠ [] → fdb_str F o' = fdb_str F o) ∧
     (fdb_str F o = [] → fdb_str F o' = replicate (length (fdb F o)) None) ∧
     (fquery_str F o ≠ [] → fquery_str F o' = fquery_str F o) ∧
     (fquery_str F o = [] → fquery_str F o' = replicate (length (fquery F o)) None) ∧
     k F o' = k F o ∧ min_score F o' = min_score F o ∧
     skip_same_id F o' = skip_same_id F o).
Proof.
  assert (Hiff : (∃ o', (validate F o).2 = Ok o') ↔ ¬ mismatched F o).
  { split.
    - intros [o' Hv] Hm. destruct (validate_mismatched F o Hm) as (msg & Hf & _).
      by rewrite Hf in Hv.
    - intros Hm. rewrite (validate_aligned F o Hm). by eexists. }
  split; [exact Hiff|]. intros ev o' Hv.
  assert (Hm : ¬ mismatched F o) by (apply Hiff; exists o'; by rewrite Hv).
  rewrite (validate_aligned F o Hm) in Hv. injection Hv as <- <-.
  destruct o as [db q dbs qs k0 ms s1 s2 e v lf ll]. cbn.
  assert (H3 : dbs = [] ∨ length dbs = length db).
  { destruct (decide (dbs = [])) as [?|Hne]; [by left|right].
    destruct (decide (length dbs = length db)) as [?|Hl]; [done|].
    destruct Hm. right; right; by left. }
  assert (H4 : qs = [] ∨ length qs = length q).
  { destruct (decide (qs = [])) as [?|Hne]; [by left|right].
    destruct (decide (length qs = length q)) as [?|Hl]; [done|].
    destruct Hm. right; right; by right. }
  split; [done|]. split; [done|]. split; [done|].
  split; [|split; [|split; [|split; [|split; [|split; [|done]]]]]].
  - destruct (len dbs =? 0) eqn:E; [by rewrite length_replicate|].
    apply Z.eqb_neq in E. rewrite len_zero in E. by destruct H3.
  - destruct (len qs =? 0) eqn:E; [by rewrite length_replicate|].
    apply Z.eqb_neq in E. rewrite len_zero in E. by destruct H4.
  - intros Hne. destruct (len dbs =? 0) eqn:E; [|done].
    apply Z.eqb_eq in E. by rewrite len_zero in E.
  - by intros ->.
  - intros Hne. destruct (len qs =? 0) eqn:E; [|done].
    apply Z.eqb_eq in E. by rewrite len_zero in E.
  - by intros ->.
Qed.

(** Two databases and one query file, no text files. *)
Lemma cli_checks_accept_aligned_lists_witness :
  ∃ o', validate Q (set_fquery Q ["q.vec"] (set_fdb Q ["a.vec"; "b.vec"] (defaults Q (1 # 2))))
          = ([], Ok o') ∧
        fdb_str Q o' = [None; None] ∧ fquery_str Q o' = [None].
Proof.
  eexists. split; [reflexivity|].
  destruct (cli_checks_accept_aligned_lists Q
              (set_fquery Q ["q.vec"] (set_fdb Q ["a.vec"; "b.vec"] (defaults Q (1 # 2)))))
    as [_ H].
  destruct (H [] _ eq_refl) as (_ & _ & _ & _ & _ & _ & H1 & _ & H2 & _).
  split; [exact (H1 eq_refl)|exact (H2 eq_refl)].
Defined.


